(** * GraphLearn: the graph store, its ingestion and its queries

    A shallow embedding of [graph_to_dot.py], [graph_explorer.py] and
    [db_graph_explorer.py]: the names read from the nodes file, the
    networkx graph built from the node and edge records, the
    breadth-first neighbourhood expansion, the importance ranking, the
    pages of the static explorer, the ingestion of a graph into the
    SQLite store, and the queries that read the store.

    Python values are modelled as follows: [str] as [string], [int] as [Z],
    [dict] as an association list in insertion order (iteration order is
    observable), [set] as [gset string] together with an explicit
    enumeration function (iteration order of a set is not fixed by the
    language), exceptions as a sum type.  A character of a [str] is an
    [ascii], one of the code points below 256. *)

From Stdlib Require Import ZArith Lia Ascii String.
From stdpp Require Import base option list sorting gmap sets strings.

#[local] Set Warnings "-clear-no-such-hyp,-register-all".

Local Open Scope string_scope.
Local Open Scope list_scope.
Local Open Scope Z_scope.

(** ** Python built-ins used by the sources *)

Module Py.

(** Exceptions raised on the modelled paths. *)
Inductive exn : Type :=
| ZeroDivisionError
| IndexError
| IntegrityError
| NetworkXError
| TypeError
| AttributeError
| JSONDecodeError.

Definition result (A : Type) : Type := (exn + A)%type.

(** Sequencing of calls that may raise. *)
Definition bind {A B} (m : result A) (k : A → result B) : result B :=
  match m with
  | inl e => inl e
  | inr a => k a
  end.

Notation "'let*' x ':=' m 'in' k" := (bind m (λ x, k))
  (at level 10, x name, m at level 200, k at level 200, only parsing).

(** [str(x).replace("'", "''")] *)
Fixpoint escape (s : string) : string :=
  match s with
  | EmptyString => EmptyString
  | String c s' =>
      if Ascii.eqb c "'"
      then String "'" (String "'" (escape s'))
      else String c (escape s')
  end.

(** [len(l)] *)
Definition len {A} (l : list A) : Z := Z.of_nat (length l).

(** [l[:n]]: a negative bound counts from the end. *)
Definition slice_to {A} (l : list A) (n : Z) : list A :=
  if 0 <=? n then take (Z.to_nat n) l
  else take (Z.to_nat (len l + n)) l.

(** [tuple(sorted([a, b]))] on two strings. *)
Definition sorted_pair (a b : string) : string * string :=
  if String.leb a b then (a, b) else (b, a).

(** [sorted(items, key=..., reverse=True)].  Python's sort is stable and
    stays stable under [reverse=True]: items with equal keys keep the
    order of the input.  [ltb x y] holds when the key of [x] is strictly
    below the key of [y]. *)
Fixpoint insert_reverse {A} (ltb : A → A → bool) (x : A) (l : list A) : list A :=
  match l with
  | [] => [x]
  | y :: l' => if ltb x y then y :: insert_reverse ltb x l' else x :: y :: l'
  end.

Fixpoint sorted_reverse {A} (ltb : A → A → bool) (l : list A) : list A :=
  match l with
  | [] => []
  | x :: l' => insert_reverse ltb x (sorted_reverse ltb l')
  end.

(** [d.get(k)] on a dict kept as an association list. *)
Fixpoint dict_get {V} (k : string) (d : list (string * V)) : option V :=
  match d with
  | [] => None
  | (k', v) :: d' => if String.eqb k k' then Some v else dict_get k d'
  end.

(** [k in d] *)
Definition dict_has {V} (k : string) (d : list (string * V)) : bool :=
  bool_decide (k ∈ d.*1).

(** [d[k] = f(d[k])] for a key that is present; position is kept. *)
Fixpoint dict_alter {V} (f : V → V) (k : string) (d : list (string * V)) : list (string * V) :=
  match d with
  | [] => []
  | (k', v) :: d' =>
      if String.eqb k k' then (k', f v) :: d' else (k', v) :: dict_alter f k d'
  end.

(** What [json.loads] returns: [None], a [bool], a number (kept as its
    text), a [str], a [list] or a [dict]. *)
Inductive json : Type :=
| JNull
| JBool (b : bool)
| JNumber (text : string)
| JString (s : string)
| JArray (items : list json)
| JObject (members : list (string * json)).


(** [c.isspace()] on the characters below 256. *)
Definition isspace (c : ascii) : bool :=
  let n := N_of_ascii c in
  ((9 <=? n) && (n <=? 13) || (28 <=? n) && (n <=? 32) || (n =? 133) || (n =? 160))%N.

(** [s.lstrip(chars)] and [s.rstrip(chars)] for a set of characters. *)
Fixpoint lstrip (chars : ascii → bool) (s : string) : string :=
  match s with
  | EmptyString => EmptyString
  | String c s' => if chars c then lstrip chars s' else s
  end.

Fixpoint rstrip (chars : ascii → bool) (s : string) : string :=
  match s with
  | EmptyString => EmptyString
  | String c s' =>
      match rstrip chars s' with
      | EmptyString => if chars c then EmptyString else String c EmptyString
      | r => String c r
      end
  end.

(** [s.strip()] *)
Definition strip (s : string) : string := rstrip isspace (lstrip isspace s).

(** [s.split(sep)[0]] for a separator that is not empty: the text before
    the first occurrence of [sep], all of [s] when there is none. *)
Fixpoint split_head (sep s : string) : string :=
  match s with
  | EmptyString => EmptyString
  | String c s' =>
      if String.prefix sep s then EmptyString else String c (split_head sep s')
  end.

End Py.

(** ** networkx: the undirected [nx.Graph] built by [load_dot_file] *)

Module Nx.
Import Py.

(** [G._adj] of an undirected [nx.Graph]: node -> neighbours, both dicts
    in insertion order.  The edge attribute dicts play no role in the
    sources and are left out.  This is the class that [build_graph] and
    the parser of [load_dot_file] construct.  [read_dot], which
    [load_dot_file] tries first, returns a multigraph or a directed graph
    for some files: the operations below are those of [nx.Graph], and
    what is proved of a well-formed graph is proved of a graph with at
    most one edge per pair of nodes. *)
Record Graph : Type := mkGraph { adj : list (string * list string) }.

Definition empty : Graph := mkGraph [].

(** [G.nodes()] *)
Definition nodes (G : Graph) : list string := (adj G).*1.

(** [n in G.nodes()] *)
Definition has_node (G : Graph) (n : string) : bool := dict_has n (adj G).

(** [len(G)] *)
Definition number_of_nodes (G : Graph) : Z := len (adj G).

(** [G.add_node(n)] *)
Definition add_node (n : string) (G : Graph) : Graph :=
  if has_node G n then G else mkGraph (adj G ++ [(n, [])]).

(** [self._adj[u][v] = datadict]: a new key goes last, an old one stays. *)
Definition add_nbr (v : string) (nbrs : list string) : list string :=
  if bool_decide (v ∈ nbrs) then nbrs else nbrs ++ [v].

(** [G.add_edge(u, v)] *)
Definition add_edge (u v : string) (G : Graph) : Graph :=
  let G1 := add_node u G in
  let G2 := add_node v G1 in
  mkGraph (dict_alter (add_nbr u) v (dict_alter (add_nbr v) u (adj G2))).

(** The calls by which a loader populates the graph. *)
Inductive op : Type :=
| AddNode (n : string)
| AddEdge (u v : string).

Definition apply_op (G : Graph) (o : op) : Graph :=
  match o with
  | AddNode n => add_node n G
  | AddEdge u v => add_edge u v G
  end.

Definition build (ops : list op) : Graph := foldl apply_op empty ops.

(** [G.neighbors(n)]; raises for a node that is not in the graph. *)
Definition neighbors (G : Graph) (n : string) : result (list string) :=
  match dict_get n (adj G) with
  | Some nbrs => inr nbrs
  | None => inl NetworkXError
  end.

(** The degree of a node with neighbour dict [nbrs]:
    [len(nbrs) + (n in nbrs)], a self-loop counts twice. *)
Definition degree_of (n : string) (nbrs : list string) : Z :=
  len nbrs + (if bool_decide (n ∈ nbrs) then 1 else 0).

(** [G.degree(n)] *)
Definition degree (G : Graph) (n : string) : result Z :=
  match dict_get n (adj G) with
  | Some nbrs => inr (degree_of n nbrs)
  | None => inl NetworkXError
  end.

(** [G.degree()], iterated: one pair per node, in node order. *)
Definition degree_items (G : Graph) : list (string * Z) :=
  map (λ '(n, nbrs), (n, degree_of n nbrs)) (adj G).

(** [G.edges()]: every node in turn reports the neighbours that have not
    been a reporting node before, so an undirected edge comes out once. *)
Fixpoint edges_from (seen : list string) (a : list (string * list string))
  : list (string * string) :=
  match a with
  | [] => []
  | (n, nbrs) :: rest =>
      map (pair n) (filter (λ nbr, nbr ∉ seen) nbrs) ++ edges_from (n :: seen) rest
  end.

Definition edges (G : Graph) : list (string * string) := edges_from [] (adj G).

(** [G.subgraph(S)]: the nodes of [S] and the edges between them. *)
Definition subgraph (G : Graph) (S : gset string) : Graph :=
  mkGraph (map (λ '(n, nbrs), (n, filter (λ nbr, nbr ∈ S) nbrs))
               (filter (λ e, e.1 ∈ S) (adj G))).

End Nx.

(** ** graph_to_dot.py *)

Module GraphToDot.
Import Py Nx.

(** The three numbers [build_graph] prints: "Total edges in JSON",
    "Edges included in graph", "Edges excluded (missing nodes)". *)
Record edge_report : Type := mkReport {
  total_edges : Z;
  included_edges : Z;
  excluded_edges : Z
}.

(** [node in node_set] for what [edge.get(key)] returned, [None] standing
    for Python's [None]: the name when the test holds.  A [list] or a
    [dict] cannot be hashed and the test raises; any other value that is
    not a [str] is in no set of names. *)
Definition in_node_set (node_set : gset string) (node : option json)
  : result (option string) :=
  match node with
  | Some (JString s) => inr (if bool_decide (s ∈ node_set) then Some s else None)
  | Some (JArray _) | Some (JObject _) => inl TypeError
  | _ => inr None
  end.

(** Lines 58-62: [json.loads(edge.get('attributes', '{}'))], where only
    [JSONDecodeError] is caught.  [json.loads] raises [TypeError] on a
    value that is not text. *)
Definition load_attributes (json_loads : string → result json)
    (edge : list (string * json)) : result json :=
  match default (JString "{}") (dict_get "attributes" edge) with
  | JString attr_str =>
      match json_loads attr_str with
      | inl JSONDecodeError => inr (JObject [])
      | r => r
      end
  | _ => inl TypeError
  end.

(** The names of the parameters of [Graph.add_edge(self, u_of_edge,
    v_of_edge, **attr)]: a keyword of one of these names is a second
    value for the parameter. *)
Definition add_edge_parameters : list string := ["self"; "u_of_edge"; "v_of_edge"].

(** Lines 63-66: [attributes['id'] = edge['id']] and
    [G.add_edge(node1, node2, **attributes)] raise [TypeError] on
    attributes that are not a [dict]; the call raises it as well on a
    dict with the name of a parameter among its keys.  The key ['id'] is
    no such name. *)
Definition keywords (attributes : json) : result unit :=
  match attributes with
  | JObject members =>
      if bool_decide (Exists (λ k, k ∈ add_edge_parameters) members.*1)
      then inl TypeError else inr tt
  | _ => inl TypeError
  end.

(** Lines 53-69, the body of the loop up to the counters: the end points
    of the edge that is added, [None] when the record is counted as
    excluded.  The attributes end up as edge attributes, which the model
    of the graph leaves out.  A record that is not a [dict] has no [get]. *)
Definition edge_ends_of (json_loads : string → result json)
    (node_set : gset string) (edge : json) : result (option (string * string)) :=
  match edge with
  | JObject edge =>
      let* node1 := in_node_set node_set (dict_get "node1_id" edge) in
      match node1 with
      | None => inr None
      | Some node1 =>
          let* node2 := in_node_set node_set (dict_get "node2_id" edge) in
          match node2 with
          | None => inr None
          | Some node2 =>
              let* attributes := load_attributes json_loads edge in
              let* _ := keywords attributes in
              inr (Some (node1, node2))
          end
      end
  | _ => inl AttributeError
  end.

(** [for edge in edges: ...] *)
Fixpoint add_edges (json_loads : string → result json) (node_set : gset string)
    (edges : list json) (G : Graph) (included_edges excluded_edges : Z)
  : result (Graph * Z * Z) :=
  match edges with
  | [] => inr (G, included_edges, excluded_edges)
  | edge :: rest =>
      let* ends := edge_ends_of json_loads node_set edge in
      match ends with
      | Some (node1, node2) =>
          add_edges json_loads node_set rest (add_edge node1 node2 G)
            (included_edges + 1) excluded_edges
      | None =>
          add_edges json_loads node_set rest G included_edges (excluded_edges + 1)
      end
  end.

(** What [len(edges)] counts and [for edge in edges] runs through, for
    the value that [parse_edges] decoded: the items of a [list], the keys
    of a [dict], the characters of a [str].  [len] raises on any other
    value. *)
Definition items_of (edges : json) : result (list json) :=
  match edges with
  | JArray items => inr items
  | JObject members => inr (JString <$> members.*1)
  | JString s => inr ((λ c, JString (String c EmptyString)) <$> list_ascii_of_string s)
  | _ => inl TypeError
  end.

(** [build_graph(nodes_file, edges_file)] on the names that [parse_nodes]
    returned and on the value that [parse_edges] returned: the graph
    returned and the counts printed, which are printed after the loop.
    [json_loads] is [json.loads] on a text. *)
Definition build_graph (json_loads : string → result json) (nodes : list string)
    (edges : json) : result (Graph * edge_report) :=
  let G := foldl (λ G node, add_node node G) Nx.empty nodes in
  let node_set : gset string := list_to_set nodes in
  let* items := items_of edges in
  let total_edges := len items in
  let* r := add_edges json_loads node_set items G 0 0 in
  let '(G, included_edges, excluded_edges) := r in
  inr (G, mkReport total_edges included_edges excluded_edges).

(** [parse_nodes(filepath)], line by line: what a line of the nodes file
    adds to the list, if anything.  [line.split(' - ')] is never empty, so
    the test [if parts] always passes. *)
Definition parse_node_line (line : string) : option string :=
  let line := strip line in
  if bool_decide (line = "") || String.prefix "#" line then None
  else if String.prefix "-" line then
    Some (strip (lstrip (Ascii.eqb "-") (split_head " - " line)))
  else None.

(** [parse_nodes(filepath)] on the lines of the file. *)
Definition parse_nodes (lines : list string) : list string :=
  omap parse_node_line lines.

End GraphToDot.

(** ** graph_explorer.py *)

Module Explorer.
Import Py Nx.

(** [random.choice(seq)]; [pick] is the draw of the generator. *)
Definition random_choice (pick : nat) (seq : list string) : result string :=
  match seq !! (pick mod length seq)%nat with
  | Some x => inr x
  | None => inl IndexError
  end.

(** The variables the traversal updates inside one layer. *)
Record layer : Type := mkLayer {
  nodes_to_include : gset string;
  distance_map : gmap string Z;
  next_frontier : gset string
}.

(** [for neighbor in neighbors: ...], with its [break] on a full budget. *)
Fixpoint add_neighbors (max_nodes current_distance : Z)
    (neighbors : list string) (st : layer) : layer :=
  match neighbors with
  | [] => st
  | neighbor :: rest =>
      if Z.of_nat (size (nodes_to_include st)) >=? max_nodes then st
      else add_neighbors max_nodes current_distance rest
             (mkLayer ({[neighbor]} ∪ nodes_to_include st)
                      (<[neighbor := current_distance]> (distance_map st))
                      ({[neighbor]} ∪ next_frontier st))
  end.

(** [for node in frontier: ...].  [set_iter] enumerates a set in the order
    the interpreter iterates over it. *)
Fixpoint visit_frontier (set_iter : gset string → list string) (G : Graph)
    (max_nodes current_distance : Z) (frontier : list string) (st : layer)
  : result layer :=
  match frontier with
  | [] => inr st
  | node :: rest =>
      let* nbrs := Nx.neighbors G node in
      let neighbors := list_to_set nbrs ∖ nodes_to_include st in
      visit_frontier set_iter G max_nodes current_distance rest
        (add_neighbors max_nodes current_distance (set_iter neighbors) st)
  end.

(** The [while] loop.  [current_distance] grows by one per round and the
    loop test bounds it by [max_distance], so [fuel] rounds are enough
    when [fuel] is at least [max_distance - current_distance]. *)
Fixpoint bfs (set_iter : gset string → list string) (G : Graph)
    (max_distance max_nodes : Z) (fuel : nat) (current_distance : Z)
    (frontier : gset string) (included : gset string) (dist : gmap string Z)
  : result (gset string * gmap string Z) :=
  match fuel with
  | O => inr (included, dist)
  | S fuel' =>
      if (current_distance <? max_distance)
         && (Z.of_nat (size included) <? max_nodes)
      then
        let current_distance := current_distance + 1 in
        let* st := visit_frontier set_iter G max_nodes current_distance
                (set_iter frontier) (mkLayer included dist ∅) in
        if decide (next_frontier st = ∅)
        then inr (nodes_to_include st, distance_map st)
        else bfs set_iter G max_distance max_nodes fuel' current_distance
               (next_frontier st) (nodes_to_include st) (distance_map st)
      else inr (included, dist)
  end.

(** [get_node_neighborhood(G, center_node, max_distance, max_nodes)].  The
    warning printed for a centre that is not in the graph is left out. *)
Definition get_node_neighborhood (set_iter : gset string → list string)
    (pick : nat) (G : Graph) (center_node : string)
    (max_distance max_nodes : Z) : result (Graph * gmap string Z) :=
  let* center_node :=
    (if has_node G center_node then inr center_node
     else random_choice pick (nodes G)) in
  let* r := bfs set_iter G max_distance max_nodes (Z.to_nat max_distance) 0
         {[center_node]} {[center_node]} {[center_node := 0]} in
  inr (subgraph G r.1, r.2).

(** The two centrality routines of networkx.  Their scores are floats;
    only their order is used.  [None] stands for a raised exception. *)
Record Centrality : Type := mkCentrality {
  score : Type;
  score_ltb : score → score → bool;
  betweenness_centrality : Graph → Z → option (list (string * score));
  pagerank : Graph → option (list (string * score))
}.

(** An installation on which both routines raise; it serves to run the
    sources on concrete graphs. *)
Definition failing_centrality : Centrality :=
  mkCentrality Z Z.ltb (λ _ _, None) (λ _, None).

(** [[node for node, _ in sorted(importance.items(), key=lambda x: x[1],
    reverse=True)[:top_n]]] *)
Definition top_nodes {K} (ltb : K → K → bool) (importance : list (string * K))
    (top_n : Z) : list string :=
  (slice_to (sorted_reverse (λ x y, ltb x.2 y.2) importance) top_n).*1.

Definition by_degree (G : Graph) (top_n : Z) : list string :=
  top_nodes Z.ltb (degree_items G) top_n.

(** The whole of [sorted(dict(G.degree()).items(), ..., reverse=True)]. *)
Definition ranking (G : Graph) : list (string * Z) :=
  sorted_reverse (λ x y, x.2 <? y.2) (degree_items G).

(** [find_important_nodes(G, method, top_n)]: the lines printed and the
    list returned.  The function has the same text in both sources. *)
Definition find_important_nodes (C : Centrality) (G : Graph)
    (method : string) (top_n : Z) : list string * list string :=
  if String.eqb method "degree" then
    ([], by_degree G top_n)
  else if String.eqb method "betweenness" then
    match betweenness_centrality C G (Z.min 100 (number_of_nodes G)) with
    | Some importance => ([], top_nodes (score_ltb C) importance top_n)
    | None => (["Error computing betweenness centrality. Using degree instead."],
               by_degree G top_n)
    end
  else if String.eqb method "pagerank" then
    match pagerank C G with
    | Some importance => ([], top_nodes (score_ltb C) importance top_n)
    | None => (["Error computing PageRank. Using degree instead."],
               by_degree G top_n)
    end
  else
    ([], by_degree G top_n).

(** Lines 202-204 of [visualize_graph_page]:
    [max(degrees.items(), key=lambda x: x[1])[0]].  [max] keeps the first
    of the greatest items; on an empty sequence it raises [ValueError],
    for which [None] stands. *)
Fixpoint max_by_degree (best : string * Z) (items : list (string * Z)) : string * Z :=
  match items with
  | [] => best
  | item :: items' => max_by_degree (if best.2 <? item.2 then item else best) items'
  end.

Definition default_center (G : Graph) : option string :=
  match degree_items G with
  | [] => None
  | item :: items => Some (max_by_degree item items).1
  end.

(** Lines 215-220: the neighbours, in the full graph, of the nodes shown,
    without the nodes shown. *)
Fixpoint next_neighbors (full_graph : Graph) (shown : gset string)
    (todo : list string) (acc : gset string) : result (gset string) :=
  match todo with
  | [] => inr acc
  | node :: todo' =>
      let* nbrs := Nx.neighbors full_graph node in
      next_neighbors full_graph shown todo' (acc ∪ (list_to_set nbrs ∖ shown))
  end.

(** Lines 311-315: the page number and the text of every navigation
    link. *)
Definition nav_links (page_number : Z) (important_next : list string)
  : list (Z * string) :=
  imap (λ i node, (page_number + Z.of_nat i + 1, node)) (slice_to important_next 10).

(** What [visualize_graph_page] puts on the page it writes.  The layout,
    the colours and the HTML around the links are left out. *)
Record page : Type := mkPage {
  page_number : Z;
  page_center : string;
  page_subgraph : Graph;
  page_distance_map : gmap string Z;
  page_links : list (Z * string)
}.

(** [visualize_graph_page(G, full_graph, center_node, page_number=...,
    max_distance=..., max_nodes=...)] for a centre that is given: the page
    written and the list returned. *)
Definition visualize_graph_page (C : Centrality) (set_iter : gset string → list string)
    (pick : nat) (G full_graph : Graph) (center_node : string)
    (page_number max_distance max_nodes : Z) : result (page * list string) :=
  let* r := get_node_neighborhood set_iter pick G center_node max_distance max_nodes in
  let subgraph := r.1 in
  let distance_map := r.2 in
  let* next_neighbors :=
    next_neighbors full_graph (list_to_set (nodes subgraph)) (nodes subgraph) ∅ in
  let important_next :=
    (find_important_nodes C (Nx.subgraph full_graph next_neighbors) "degree" 10).2 in
  inr (mkPage page_number center_node subgraph distance_map
         (nav_links page_number important_next),
       important_next).

(** [create_index_page(G, output_dir, important_nodes, max_pages)]: the
    page number and the text of every link.  The statistics above the links
    divide by [len(G)]. *)
Definition create_index_page (G : Graph) (important_nodes : list string)
    (max_pages : Z) : result (list (Z * string)) :=
  if number_of_nodes G =? 0 then inl ZeroDivisionError
  else inr (imap (λ i node, (Z.of_nat i + 1, node)) (slice_to important_nodes max_pages)).

(** Lines 436-444: one page per important node; [i] is the index of the
    next node. *)
Fixpoint pages_loop (C : Centrality) (set_iter : gset string → list string)
    (pick : nat) (G : Graph) (max_distance max_nodes : Z) (i : Z)
    (todo : list string) : result (list page) :=
  match todo with
  | [] => inr []
  | node :: todo' =>
      let page_number := i + 1 in
      let* r := visualize_graph_page C set_iter pick G G node page_number
               max_distance max_nodes in
      let* rest := pages_loop C set_iter pick G max_distance max_nodes (i + 1) todo' in
      inr (r.1 :: rest)
  end.

(** What [create_graph_explorer] leaves in the output directory, and the
    number of pages it reports. *)
Record explorer : Type := mkExplorer {
  index_links : list (Z * string);
  pages : list page;
  pages_reported : Z
}.

(** [create_graph_explorer(dot_file, output_dir, max_pages, max_distance,
    max_nodes_per_page)] on the graph [G] that [load_dot_file] returned. *)
Definition create_graph_explorer (C : Centrality) (set_iter : gset string → list string)
    (pick : nat) (G : Graph) (max_pages max_distance max_nodes_per_page : Z)
  : result explorer :=
  let important_nodes := (find_important_nodes C G "degree" max_pages).2 in
  let* index := create_index_page G important_nodes max_pages in
  let* pages := pages_loop C set_iter pick G max_distance max_nodes_per_page 0
                  (slice_to important_nodes max_pages) in
  inr (mkExplorer index pages (Z.min max_pages (len important_nodes))).

End Explorer.

(** ** SQLite: the tables of the store and the statements run on them *)

Module Sqlite.
Import Py.

(** A row of [nodes (id TEXT PRIMARY KEY, label TEXT, degree INTEGER)]. *)
Record node_row : Type := mkNode {
  n_id : string;
  n_label : string;
  n_degree : Z
}.

(** A row of [edges (id INTEGER PRIMARY KEY, source TEXT, target TEXT,
    UNIQUE(source, target))].  Foreign keys are declared but SQLite does
    not enforce them unless asked to, and the sources never ask. *)
Record edge_row : Type := mkEdge {
  e_id : Z;
  e_source : string;
  e_target : string
}.

(** The text stored in [graph_stats.value]: [str] of an integer, or [str]
    of the quotient [num / den] of two integers. *)
Inductive stat_value : Type :=
| IntText (n : Z)
| QuotText (num den : Z).

#[global] Instance node_row_eq_dec : EqDecision node_row.
Proof. solve_decision. Defined.

#[global] Instance edge_row_eq_dec : EqDecision edge_row.
Proof. solve_decision. Defined.

(** The database file: its four tables, rows in insertion (rowid) order. *)
Record Store : Type := mkStore {
  nodes_table : list node_row;
  edges_table : list edge_row;
  important_nodes_table : list string;
  graph_stats_table : list (string * stat_value)
}.

Definition empty_store : Store := mkStore [] [] [] [].

(** A connection: the committed file and the view of the open
    transaction.  What is not committed is lost when the process dies. *)
Record conn : Type := mkConn { disk : Store; work : Store }.

(** [if os.path.exists(db_file): os.remove(db_file)] *)
Definition os_remove_if_exists (file : option Store) : option Store :=
  if file is Some _ then None else file.

(** [sqlite3.connect(db_file)]: opens the file, or creates an empty one.
    The [CREATE TABLE IF NOT EXISTS] statements add no rows. *)
Definition connect (file : option Store) : conn :=
  let s := default empty_store file in
  mkConn s s.

(** Statements: they read and write the connection and may raise. *)
Definition Db (A : Type) : Type := conn → result A * conn.

Definition ret {A} (a : A) : Db A := λ c, (inr a, c).

Definition raise {A} (e : exn) : Db A := λ c, (inl e, c).

Definition dbind {A B} (m : Db A) (k : A → Db B) : Db B :=
  λ c, match m c with
       | (inl e, c') => (inl e, c')
       | (inr a, c') => k a c'
       end.

Notation "'let!' x ':=' m 'in' k" := (dbind m (λ x, k))
  (at level 10, x name, m at level 200, k at level 200, only parsing).

Notation "m1 ;;; m2" := (dbind m1 (λ _, m2))
  (at level 100, m2 at level 200, right associativity, only parsing).

(** [conn.commit()] *)
Definition commit : Db unit := λ c, (inr tt, mkConn (work c) (work c)).

Definition set_nodes (t : list node_row) (s : Store) : Store :=
  mkStore t (edges_table s) (important_nodes_table s) (graph_stats_table s).

Definition set_edges (t : list edge_row) (s : Store) : Store :=
  mkStore (nodes_table s) t (important_nodes_table s) (graph_stats_table s).

Definition set_important (t : list string) (s : Store) : Store :=
  mkStore (nodes_table s) (edges_table s) t (graph_stats_table s).

Definition set_stats (t : list (string * stat_value)) (s : Store) : Store :=
  mkStore (nodes_table s) (edges_table s) (important_nodes_table s) t.

(** [INSERT INTO nodes VALUES (?,?,?)], row by row; a second row with the
    same primary key raises, and what the statement had written is never
    committed. *)
Fixpoint insert_nodes (rows : list node_row) (t : list node_row)
  : result (list node_row) :=
  match rows with
  | [] => inr t
  | r :: rows' =>
      if bool_decide (n_id r ∈ n_id <$> t) then inl IntegrityError
      else insert_nodes rows' (t ++ [r])
  end.

Definition executemany_insert_nodes (rows : list node_row) : Db unit :=
  λ c, match insert_nodes rows (nodes_table (work c)) with
       | inl e => (inl e, c)
       | inr t => (inr tt, mkConn (disk c) (set_nodes t (work c)))
       end.

(** A row conflicts with the table on its primary key or on the pair
    [(source, target)]. *)
Definition edge_conflict (r : edge_row) (t : list edge_row) : bool :=
  bool_decide (e_id r ∈ e_id <$> t)
  || bool_decide ((e_source r, e_target r) ∈ (λ x, (e_source x, e_target x)) <$> t).

(** [INSERT OR IGNORE INTO edges VALUES (?,?,?)]: a conflicting row is
    skipped, nothing is raised. *)
Fixpoint insert_or_ignore_edges (rows : list edge_row) (t : list edge_row)
  : list edge_row :=
  match rows with
  | [] => t
  | r :: rows' =>
      insert_or_ignore_edges rows' (if edge_conflict r t then t else t ++ [r])
  end.

Definition executemany_insert_or_ignore_edges (rows : list edge_row) : Db unit :=
  λ c, (inr tt,
        mkConn (disk c)
               (set_edges (insert_or_ignore_edges rows (edges_table (work c))) (work c))).

(** [INSERT INTO important_nodes VALUES (?)] *)
Fixpoint insert_important (rows : list string) (t : list string)
  : result (list string) :=
  match rows with
  | [] => inr t
  | r :: rows' =>
      if bool_decide (r ∈ t) then inl IntegrityError
      else insert_important rows' (t ++ [r])
  end.

Definition executemany_insert_important (rows : list string) : Db unit :=
  λ c, match insert_important rows (important_nodes_table (work c)) with
       | inl e => (inl e, c)
       | inr t => (inr tt, mkConn (disk c) (set_important t (work c)))
       end.

(** [INSERT INTO graph_stats VALUES (?,?)] *)
Fixpoint insert_stats (rows t : list (string * stat_value))
  : result (list (string * stat_value)) :=
  match rows with
  | [] => inr t
  | r :: rows' =>
      if bool_decide (r.1 ∈ t.*1) then inl IntegrityError
      else insert_stats rows' (t ++ [r])
  end.

Definition executemany_insert_stats (rows : list (string * stat_value)) : Db unit :=
  λ c, match insert_stats rows (graph_stats_table (work c)) with
       | inl e => (inl e, c)
       | inr t => (inr tt, mkConn (disk c) (set_stats t (work c)))
       end.

(** *** LIKE *)

(** SQLite folds the 26 ASCII letters before it compares two characters
    in a LIKE pattern ([PRAGMA case_sensitive_like] is off by default). *)
Definition to_lower (c : ascii) : ascii :=
  let n := N_of_ascii c in
  if (65 <=? n)%N && (n <=? 90)%N then ascii_of_N (n + 32) else c.

(** [text LIKE pattern] without ESCAPE: [%] stands for any run of
    characters, [_] for any one character, any other character for itself
    up to ASCII case. *)
Fixpoint like (pattern : string) : string → bool :=
  match pattern with
  | EmptyString => λ text, if text is EmptyString then true else false
  | String p pattern' =>
      if Ascii.eqb p "%" then
        fix any (text : string) : bool :=
          like pattern' text
          || (if text is String _ text' then any text' else false)
      else if Ascii.eqb p "_" then
        λ text, if text is String _ text' then like pattern' text' else false
      else
        λ text, if text is String t text'
                then Ascii.eqb (to_lower p) (to_lower t) && like pattern' text'
                else false
  end.

(** [SELECT DISTINCT]: a row that came out before is not repeated. *)
Fixpoint distinct `{EqDecision A} (seen rows : list A) : list A :=
  match rows with
  | [] => []
  | r :: rows' =>
      if bool_decide (r ∈ seen) then distinct seen rows'
      else r :: distinct (r :: seen) rows'
  end.

(** [ORDER BY degree DESC] over the rows of [nodes].  SQL fixes the order
    of rows of different degree only: rows of equal degree come out in
    the order in which the engine visits them, which is [scan], some
    rearrangement of the rows. *)
Definition order_by_degree_desc_with (scan : list node_row → list node_row)
    (rows : list node_row) : list node_row :=
  sorted_reverse (λ x y, n_degree x <? n_degree y) (scan rows).

(** SQLite 3.40.1 answers the query of [search_nodes] by walking the
    index [idx_node_degree] backwards, which lists rows of equal degree
    from the latest inserted to the earliest. *)
Definition order_by_degree_desc (rows : list node_row) : list node_row :=
  order_by_degree_desc_with reverse rows.

End Sqlite.

(** ** db_graph_explorer.py *)

Module DbExplorer.
Import Py Nx Explorer Sqlite.

(** [batch_size = 1000] *)
Definition batch_size : Z := 1000.

(** Lines 121-132: the loop over [G.nodes()].  [nodes_data] is the batch
    collected so far. *)
Fixpoint nodes_loop (batch : Z) (G : Graph) (todo : list string)
    (nodes_data : list node_row) : Db (list node_row) :=
  match todo with
  | [] => ret nodes_data
  | node :: todo' =>
      let node_id := escape node in
      let node_label := escape node in
      match Nx.degree G node with
      | inl e => raise e
      | inr d =>
          let nodes_data := nodes_data ++ [mkNode node_id node_label d] in
          if len nodes_data >=? batch then
            executemany_insert_nodes nodes_data ;;;
            commit ;;;
            nodes_loop batch G todo' []
          else nodes_loop batch G todo' nodes_data
      end
  end.

(** Lines 116-137. *)
Definition insert_all_nodes (batch : Z) (G : Graph) : Db unit :=
  let! nodes_data := nodes_loop batch G (Nx.nodes G) [] in
  if nodes_data is [] then ret tt
  else executemany_insert_nodes nodes_data ;;; commit.

(** Lines 144-167: the loop over [enumerate(G.edges())]; [i] is the index
    of the next edge of the stream.  [INSERT OR IGNORE] raises no
    [IntegrityError], so the handlers of lines 164 and 174 are never
    entered. *)
Fixpoint edges_loop (batch : Z) (i : Z) (stream : list (string * string))
    (edge_set : gset (string * string)) (edges_data : list edge_row)
  : Db (list edge_row) :=
  match stream with
  | [] => ret edges_data
  | (u, v) :: stream' =>
      let source_id := escape u in
      let target_id := escape v in
      let edge_pair := sorted_pair source_id target_id in
      if bool_decide (edge_pair ∈ edge_set) then
        edges_loop batch (i + 1) stream' edge_set edges_data
      else
        let edge_set := {[edge_pair]} ∪ edge_set in
        let edges_data := edges_data ++ [mkEdge i source_id target_id] in
        if len edges_data >=? batch then
          executemany_insert_or_ignore_edges edges_data ;;;
          commit ;;;
          edges_loop batch (i + 1) stream' edge_set []
        else edges_loop batch (i + 1) stream' edge_set edges_data
  end.

(** Lines 139-175, for any stream of edges. *)
Definition insert_all_edges (batch : Z) (stream : list (string * string)) : Db unit :=
  let! edges_data := edges_loop batch 0 stream ∅ [] in
  if edges_data is [] then ret tt
  else executemany_insert_or_ignore_edges edges_data ;;; commit.

(** Lines 183-192. *)
Definition insert_important_nodes (C : Centrality) (G : Graph) : Db unit :=
  let important_nodes := (find_important_nodes C G "degree" 50).2 in
  executemany_insert_important (escape <$> important_nodes).

(** Lines 195-202.  [len(G.edges())] is taken as the length of the edge
    stream; the quotient raises on an empty graph. *)
Definition insert_graph_stats (G : Graph) : Db unit :=
  let total_nodes := IntText (number_of_nodes G) in
  let total_edges := IntText (len (Nx.edges G)) in
  if number_of_nodes G =? 0 then raise ZeroDivisionError
  else
    let avg := QuotText (foldr Z.add 0 (degree_items G).*2) (number_of_nodes G) in
    executemany_insert_stats
      [("total_nodes", total_nodes); ("total_edges", total_edges); ("avg_degree", avg)].

(** The statements of [preprocess_graph] once the connection is open. *)
Definition populate (C : Centrality) (batch : Z) (G : Graph) : Db unit :=
  insert_all_nodes batch G ;;;
  insert_all_edges batch (Nx.edges G) ;;;
  insert_important_nodes C G ;;;
  insert_graph_stats G ;;;
  commit.

(** [preprocess_graph(dot_file, db_file)] on the graph [G] that
    [load_dot_file] returned.  [db_file] is what the path holds before the
    call; the result is the outcome and what the path holds afterwards.
    An old file is removed first, then [sqlite3.connect] creates a new
    one. *)
Definition preprocess_graph_with (C : Centrality) (batch : Z) (G : Graph)
    (db_file : option Store) : result unit * option Store :=
  let db_file := os_remove_if_exists db_file in
  let c := connect db_file in
  let '(r, c') := populate C batch G c in
  (r, Some (disk c')).

Definition preprocess_graph (C : Centrality) (G : Graph) (db_file : option Store)
  : result unit * option Store :=
  preprocess_graph_with C batch_size G db_file.

(** [expand_node(node_id)]: the two lists of the JSON answer.  The engine
    is free in the order of the rows; the model lists them in table
    order. *)
Definition touches (node_id : string) (e : edge_row) : bool :=
  bool_decide (e_source e = node_id) || bool_decide (e_target e = node_id).

Definition expand_node (db : Store) (node_id : string)
  : list node_row * list edge_row :=
  let neighbors :=
    distinct []
      (n ← nodes_table db;
       e ← edges_table db;
       if (bool_decide (n_id n = e_target e) || bool_decide (n_id n = e_source e))
          && touches node_id e
       then [n] else []) in
  let edges := distinct [] (filter (λ e, touches node_id e) (edges_table db)) in
  (neighbors, edges).

(** [get_node_info(node_id)]: the node row, if any, and the count
    [COUNT(DISTINCT CASE WHEN source = ? THEN target ELSE source END)]
    over the edges that touch the node. *)
Definition other_endpoint (node_id : string) (e : edge_row) : string :=
  if bool_decide (e_source e = node_id) then e_target e else e_source e.

Definition neighbor_ids (db : Store) (node_id : string) : list string :=
  distinct [] (other_endpoint node_id <$> filter (λ e, touches node_id e) (edges_table db)).

Definition get_node_info (db : Store) (node_id : string) : option node_row * Z :=
  (head (filter (λ n, n_id n = node_id) (nodes_table db)),
   len (neighbor_ids db node_id)).

(** [search_nodes()] for the request parameter [q]. *)
Definition search_matches (query : string) (n : node_row) : bool :=
  like ("%" ++ query ++ "%")%string (n_label n).

(** The rows the SELECT of [search_nodes] ranks, before its LIMIT, for
    an engine that visits rows in the order [scan]. *)
Definition search_candidates_with (scan : list node_row → list node_row)
    (db : Store) (query : string) : list node_row :=
  distinct [] (order_by_degree_desc_with scan
                 (filter (λ n, search_matches query n) (nodes_table db))).

Definition search_nodes_with (scan : list node_row → list node_row)
    (db : Store) (query : string) : list node_row :=
  if bool_decide (query = "") || (Z.of_nat (String.length query) <? 2) then []
  else take 10 (search_candidates_with scan db query).

(** The same on SQLite 3.40.1. *)
Definition search_candidates (db : Store) (query : string) : list node_row :=
  search_candidates_with reverse db query.

Definition search_nodes (db : Store) (query : string) : list node_row :=
  search_nodes_with reverse db query.

(** [get_initial_data()]: the two lists of the JSON answer, in table
    order as for [expand_node]. *)
Definition get_initial_data (db : Store) : list node_row * list edge_row :=
  let important_nodes :=
    n ← nodes_table db;
    i ← important_nodes_table db;
    if bool_decide (n_id n = i) then [n] else [] in
  let node_ids := n_id <$> important_nodes in
  let edges :=
    if node_ids is [] then []
    else distinct []
           (filter (λ e, e_source e ∈ node_ids ∧ e_target e ∈ node_ids) (edges_table db)) in
  (important_nodes, edges).

End DbExplorer.

(** * Vocabulary of the statements *)

Import Py Nx GraphToDot Explorer Sqlite DbExplorer.

(** The nodes are the keys of a dict, so no node occurs twice; the same
    holds for the neighbours of a node; and the adjacency is symmetric:
    whoever is listed as a neighbour is a node and lists the node back. *)
Definition wf_graph (G : Graph) : Prop :=
  NoDup (nodes G) ∧
  Forall (λ e, NoDup e.2 ∧
               Forall (λ v, e.1 ∈ default [] (dict_get v (adj G))) e.2) (adj G).

#[global] Instance wf_graph_dec G : Decision (wf_graph G).
Proof. unfold wf_graph. apply _. Defined.

(** [G.has_edge(u, v)] *)
Definition adjacent (G : Graph) (u v : string) : Prop :=
  ∃ nbrs, dict_get u (adj G) = Some nbrs ∧ v ∈ nbrs.

(** The invariant in terms of lookups. *)
Definition wf_lookup (G : Graph) : Prop :=
  NoDup (nodes G) ∧
  ∀ n nbrs, dict_get n (adj G) = Some nbrs →
            NoDup nbrs ∧ ∀ v, v ∈ nbrs → adjacent G v n.

(** What every round of the traversal keeps: the budget (a lone centre
    node is there even for a budget below one), a distance for exactly
    the nodes included, all distances between [0] and [hi], and a
    frontier made of nodes of the graph. *)
Definition bfs_inv (G : Graph) (max_nodes : Z) (hi : Z) (included : gset string) (dist : gmap string Z)
    (frontier : gset string) : Prop :=
  Z.of_nat (size included) ≤ Z.max max_nodes 1 ∧
  dom dist = included ∧
  (∀ n v, dist !! n = Some v → 0 ≤ v ≤ hi) ∧
  (∀ x, x ∈ frontier → x ∈ nodes G).

(** Two edges join the same two nodes, in either direction. *)
Definition same_edge (a b : string * string) : Prop :=
  (a.1 = b.1 ∧ a.2 = b.2) ∨ (a.1 = b.2 ∧ a.2 = b.1).

(** The key by which the ingestion tells edges apart. *)
Definition edge_key (r : edge_row) : string * string :=
  sorted_pair (e_source r) (e_target r).

Definition stream_key (e : string * string) : string * string :=
  sorted_pair (escape e.1) (escape e.2).

Definition edge_ends (r : edge_row) : string * string := (e_source r, e_target r).

(** The rows the loop collects from index [i] on, [seen] being the pairs
    met before. *)
Fixpoint first_occurrences (i : Z) (stream : list (string * string))
    (seen : gset (string * string)) : list edge_row :=
  match stream with
  | [] => []
  | e :: stream' =>
      if bool_decide (stream_key e ∈ seen) then first_occurrences (i + 1) stream' seen
      else mkEdge i (escape e.1) (escape e.2)
           :: first_occurrences (i + 1) stream' ({[stream_key e]} ∪ seen)
  end.

(** The rows of a stream in which no pair comes twice: one per edge. *)
Fixpoint indexed_rows (i : Z) (stream : list (string * string)) : list edge_row :=
  match stream with
  | [] => []
  | e :: stream' => mkEdge i (escape e.1) (escape e.2) :: indexed_rows (i + 1) stream'
  end.

(** The row written for a node. *)
Definition node_row_of (e : string * list string) : node_row :=
  mkNode (escape e.1) (escape e.1) (degree_of e.1 e.2).

Definition node_rows (G : Graph) : list node_row := node_row_of <$> adj G.

(** The store a successful run leaves behind. *)
Definition ingested (G : Graph) : Store :=
  mkStore (node_rows G)
          (first_occurrences 0 (Nx.edges G) ∅)
          (escape <$> by_degree G 50)
          [("total_nodes", IntText (number_of_nodes G));
           ("total_edges", IntText (len (Nx.edges G)));
           ("avg_degree", QuotText (foldr Z.add 0 (degree_items G).*2) (number_of_nodes G))].

(** The edge table after lines 139-175 have run on a new database. *)
Definition persisted_edges (stream : list (string * string)) : list edge_row :=
  edges_table (disk (insert_all_edges batch_size stream (connect None)).2).




(** An edge of the stream touches [n]; an edge of the stream is a loop
    at [n]. *)
Definition incident (n : string) (e : string * string) : Prop := e.1 = n ∨ e.2 = n.

Definition loop_at (n : string) (e : string * string) : Prop := e.1 = n ∧ e.2 = n.

(** ASCII case folding of a string. *)
Fixpoint fold_case (s : string) : string :=
  match s with
  | EmptyString => EmptyString
  | String c s' => String (to_lower c) (fold_case s')
  end.

(** No character of the string is a wildcard of LIKE. *)
Fixpoint no_wildcard (s : string) : Prop :=
  match s with
  | EmptyString => True
  | String c s' => c ≠ "%"%char ∧ c ≠ "_"%char ∧ no_wildcard s'
  end.

(** What the traversal keeps besides its budget: the centre is at
    distance [0]; the nodes with a distance are the nodes included, and
    they are nodes of the graph; every other node with a distance [d] has
    [1 <= d <= hi] and a neighbour at distance [d - 1]. *)
Definition bfs_tree (G : Graph) (center : string) (hi : Z)
    (included : gset string) (dist : gmap string Z) : Prop :=
  dist !! center = Some 0 ∧
  dom dist = included ∧
  (∀ n, n ∈ included → n ∈ nodes G) ∧
  (∀ n d, dist !! n = Some d →
          (n = center ∧ d = 0)
          ∨ (1 ≤ d ≤ hi ∧ ∃ m, dist !! m = Some (d - 1) ∧ adjacent G m n)).

(** Unless the budget is used up, every neighbour of a node at a distance
    below [cd], and of a node of [visited], has a distance, at most one
    above that of the node. *)
Definition bfs_closed (G : Graph) (max_nodes cd : Z) (visited : list string)
    (included : gset string) (dist : gmap string Z) : Prop :=
  Z.of_nat (size included) < max_nodes →
  ∀ n d v, dist !! n = Some d → d < cd ∨ n ∈ visited → adjacent G n v →
           ∃ dv, dist !! v = Some dv ∧ dv ≤ d + 1.

(** The distances recorded in [dist] are still there in [dist'], and
    what [dist'] has besides is at distance [cd]. *)
Definition bfs_grows (cd : Z) (dist dist' : gmap string Z) : Prop :=
  (∀ y v, dist !! y = Some v → dist' !! y = Some v) ∧
  (∀ y v, dist' !! y = Some v → dist !! y = Some v ∨ v = cd).

(** A walk of [k] edges from [u] to [v]. *)
Fixpoint walk (G : Graph) (k : nat) (u v : string) : Prop :=
  match k with
  | O => u = v ∧ u ∈ nodes G
  | S k' => ∃ m, walk G k' u m ∧ adjacent G m v
  end.

(** [sep in s] *)
Fixpoint contains (sep s : string) : bool :=
  match s with
  | EmptyString => String.prefix sep s
  | String _ s' => String.prefix sep s || contains sep s'
  end.

(** Every character of the string is [c]. *)
Fixpoint only (c : ascii) (s : string) : Prop :=
  match s with
  | EmptyString => True
  | String x s' => x = c ∧ only c s'
  end.

(** * Properties *)

(** ** Python's stable sort *)

Section sorted_reverse.
Context {A : Type} (key : A → Z).

Let ltb : A → A → bool := λ x y, key x <? key y.

Lemma insert_reverse_perm x l : insert_reverse ltb x l ≡ₚ x :: l.
Proof.
  induction l as [|y l IH]; simpl; [done|].
  destruct (ltb x y); [|done].
  rewrite IH. apply Permutation_swap.
Qed.

Lemma sorted_reverse_perm l : sorted_reverse ltb l ≡ₚ l.
Proof.
  induction l as [|x l IH]; simpl; [done|].
  by rewrite insert_reverse_perm, IH.
Qed.

Lemma sorted_reverse_length l : length (sorted_reverse ltb l) = length l.
Proof. by rewrite sorted_reverse_perm. Qed.

Lemma insert_reverse_sorted x l :
  StronglySorted (λ a b, key b ≤ key a) l →
  StronglySorted (λ a b, key b ≤ key a) (insert_reverse ltb x l).
Proof.
  induction 1 as [|y l Hl IH Hy]; simpl.
  - repeat constructor.
  - unfold ltb at 1. destruct (Z.ltb_spec (key x) (key y)) as [Hlt|Hge].
    + constructor; [done|].
      rewrite insert_reverse_perm. constructor; [lia|done].
    + constructor; [by constructor|].
      constructor; [done|].
      eapply Forall_impl; [exact Hy|]. simpl. intros; lia.
Qed.

Lemma sorted_reverse_sorted l :
  StronglySorted (λ a b, key b ≤ key a) (sorted_reverse ltb l).
Proof.
  induction l as [|x l IH]; simpl; [constructor|].
  by apply insert_reverse_sorted.
Qed.

(** Stability: the items of one key come out in the order they went in. *)
Lemma insert_reverse_filter k x l :
  filter (λ a, key a = k) (insert_reverse ltb x l)
  = filter (λ a, key a = k) (x :: l).
Proof.
  induction l as [|y l IH]; simpl; [done|].
  unfold ltb at 1. destruct (Z.ltb_spec (key x) (key y)) as [Hlt|Hge]; [|done].
  rewrite filter_cons, IH, !filter_cons.
  repeat case_decide; try done; lia.
Qed.

Lemma sorted_reverse_stable k l :
  filter (λ a, key a = k) (sorted_reverse ltb l) = filter (λ a, key a = k) l.
Proof.
  induction l as [|x l IH]; simpl; [done|].
  rewrite insert_reverse_filter, !filter_cons. by rewrite IH.
Qed.
End sorted_reverse.

(** [x] stands before [y] in [l]. *)
Lemma sublist_pair_lookup {A} (l : list A) i j x y :
  (i < j)%nat → l !! i = Some x → l !! j = Some y → [x; y] `sublist_of` l.
Proof.
  revert i j. induction l as [|z l IH]; intros i j Hij Hi Hj; [done|].
  destruct i as [|i]; simpl in *.
  - injection Hi as ->. destruct j as [|j]; [lia|]. simpl in Hj.
    apply sublist_skip. apply sublist_cons_l.
    apply list_elem_of_lookup_2 in Hj.
    apply list_elem_of_split in Hj as (l1 & l2 & ->).
    exists l1, l2. split; [done|]. apply sublist_nil_l.
  - destruct j as [|j]; [lia|]. simpl in Hj.
    apply sublist_cons. eapply IH; [|done..]. lia.
Qed.

Lemma StronglySorted_sublist {A} (R : relation A) (k l : list A) :
  StronglySorted R l → k `sublist_of` l → StronglySorted R k.
Proof.
  intros Hs. revert k. induction Hs as [|x l Hl IH Hx]; intros k Hk.
  - apply sublist_nil_r in Hk as ->. constructor.
  - inversion Hk as [|? k' ? Hk'|? ? Hk']; subst; [|by apply IH].
    constructor; [by apply IH|].
    apply Forall_forall. intros y Hy.
    eapply Forall_forall in Hx; [exact Hx|]. by eapply elem_of_sublist.
Qed.

Lemma filter_sublist_mono {A} (P : A → Prop) `{!∀ x, Decision (P x)} (k l : list A) :
  k `sublist_of` l → filter P k `sublist_of` filter P l.
Proof.
  induction 1 as [|x l1 l2 Hs IH|x l1 l2 Hs IH]; [done|..];
    rewrite ?filter_cons; repeat case_decide;
    auto using sublist_skip, sublist_cons.
Qed.

Lemma slice_to_prefix {A} (l : list A) n : slice_to l n `prefix_of` l.
Proof.
  unfold slice_to. destruct (0 <=? n); apply prefix_take.
Qed.

Lemma slice_to_length {A} (l : list A) n :
  0 ≤ n → len (slice_to l n) = Z.min n (len l).
Proof.
  intros Hn. unfold slice_to, len.
  destruct (Z.leb_spec 0 n); [|lia].
  rewrite length_take. lia.
Qed.

(** ** Dicts as association lists *)

Lemma dict_get_elem {V} (k : string) (v : V) (d : list (string * V)) :
  NoDup d.*1 → (k, v) ∈ d → dict_get k d = Some v.
Proof.
  induction d as [|[k' v'] d IH]; simpl; intros Hnd Hin.
  - by apply elem_of_nil in Hin.
  - apply NoDup_cons in Hnd as [Hk' Hnd].
    apply elem_of_cons in Hin as [Heq|Hin].
    + injection Heq as <- <-. by rewrite String.eqb_refl.
    + destruct (String.eqb_spec k k') as [->|_]; [|by apply IH].
      destruct Hk'. apply list_elem_of_fmap. by exists (k', v).
Qed.

Lemma dict_get_Some {V} (k : string) (v : V) (d : list (string * V)) :
  dict_get k d = Some v → (k, v) ∈ d.
Proof.
  induction d as [|[k' v'] d IH]; simpl; [done|].
  destruct (String.eqb_spec k k') as [->|_].
  - intros [= ->]. apply elem_of_cons; by left.
  - intros H. apply elem_of_cons; right; by apply IH.
Qed.

Lemma dict_get_None {V} (k : string) (d : list (string * V)) :
  dict_get k d = None ↔ k ∉ d.*1.
Proof.
  induction d as [|[k' v'] d IH]; simpl.
  - split; [intros _; apply not_elem_of_nil|done].
  - rewrite not_elem_of_cons.
    destruct (String.eqb_spec k k') as [->|Hne].
    + split; [done|]. by intros [? _].
    + rewrite IH. split; [done|]. by intros [_ ?].
Qed.

(** ** The ranking by degree *)

Lemma degree_items_fst G : (degree_items G).*1 = nodes G.
Proof.
  unfold degree_items, nodes. rewrite <- list_fmap_compose.
  apply list_fmap_ext. by intros _ [n nbrs] _.
Qed.

Lemma degree_items_degree G n d :
  NoDup (nodes G) → (n, d) ∈ degree_items G → degree G n = inr d.
Proof.
  intros Hnd Hin. unfold degree_items in Hin.
  apply list_elem_of_fmap in Hin as ([n' nbrs] & [= -> ->] & Hin).
  unfold degree. by rewrite (dict_get_elem _ _ _ Hnd Hin).
Qed.

Lemma find_important_nodes_degree_eq C G top_n :
  find_important_nodes C G "degree" top_n = ([], by_degree G top_n).
Proof. reflexivity. Qed.

Lemma by_degree_ranking G top_n : by_degree G top_n = (slice_to (ranking G) top_n).*1.
Proof. reflexivity. Qed.

Lemma ranking_perm G : ranking G ≡ₚ degree_items G.
Proof. apply (sorted_reverse_perm snd). Qed.

Lemma by_degree_order G top_n i j a b da db :
  NoDup (nodes G) →
  (i < j)%nat →
  by_degree G top_n !! i = Some a →
  by_degree G top_n !! j = Some b →
  degree G a = inr da →
  degree G b = inr db →
  db ≤ da ∧ (da = db → [a; b] `sublist_of` nodes G).
Proof.
  intros Hnd Hij Hi Hj Ha Hb.
  rewrite by_degree_ranking in Hi, Hj.
  apply list_lookup_fmap_Some in Hi as ([a' da'] & -> & Hi).
  apply list_lookup_fmap_Some in Hj as ([b' db'] & -> & Hj).
  simpl in *.
  pose proof (sublist_pair_lookup _ _ _ _ _ Hij Hi Hj) as Hsub.
  assert (Hsub' : [(a', da'); (b', db')] `sublist_of` ranking G).
  { etrans; [exact Hsub|]. destruct (slice_to_prefix (ranking G) top_n) as [k Hk].
    rewrite Hk at 2. by apply sublist_inserts_r. }
  assert (Hina : (a', da') ∈ degree_items G).
  { rewrite <- ranking_perm. eapply elem_of_sublist; [|exact Hsub'].
    apply elem_of_cons; by left. }
  assert (Hinb : (b', db') ∈ degree_items G).
  { rewrite <- ranking_perm. eapply elem_of_sublist; [|exact Hsub'].
    apply elem_of_cons; right. apply elem_of_cons; by left. }
  apply (degree_items_degree _ _ _ Hnd) in Hina as Ha', Hinb as Hb'.
  assert (da' = da) as -> by congruence.
  assert (db' = db) as -> by congruence.
  split.
  - pose proof (sorted_reverse_sorted snd (degree_items G)) as Hs.
    fold (ranking G) in Hs.
    assert (Hs2 : StronglySorted (λ x y : string * Z, y.2 ≤ x.2) [(a', da); (b', db)])
      by (by eapply StronglySorted_sublist).
    apply StronglySorted_inv in Hs2 as [_ Hall].
    apply Forall_cons in Hall as [H _]. exact H.
  - intros <-.
    pose proof (filter_sublist_mono (λ x : string * Z, x.2 = da) _ _ Hsub') as Hf.
    unfold ranking in Hf. rewrite (sorted_reverse_stable snd) in Hf.
    rewrite !filter_cons, filter_nil in Hf. simpl in Hf.
    rewrite !decide_True in Hf by done.
    rewrite <- degree_items_fst.
    change [a'; b'] with ([(a', da); (b', da)].*1).
    apply fmap_sublist. etrans; [exact Hf|]. apply sublist_filter.
Qed.

(** C7 (as amended).  With the degree method [find_important_nodes] prints
    nothing and returns a prefix of the full ranking of the nodes; for
    [top_n >= 0] that prefix has [min(top_n, len(G))] entries, so at most
    [top_n].  Whatever [top_n], the entries are in descending order of
    degree, and two entries of equal degree stand in the order in which
    the nodes entered the graph. *)
Theorem find_important_nodes_degree_ranked C G top_n :
  NoDup (nodes G) →
  (find_important_nodes C G "degree" top_n).1 = [] ∧
  (0 ≤ top_n →
   len (find_important_nodes C G "degree" top_n).2 = Z.min top_n (number_of_nodes G)
   ∧ len (find_important_nodes C G "degree" top_n).2 ≤ top_n) ∧
  (find_important_nodes C G "degree" top_n).2 `prefix_of` (ranking G).*1 ∧
  (ranking G).*1 ≡ₚ nodes G ∧
  (∀ i j a b da db,
     (i < j)%nat →
     (find_important_nodes C G "degree" top_n).2 !! i = Some a →
     (find_important_nodes C G "degree" top_n).2 !! j = Some b →
     degree G a = inr da →
     degree G b = inr db →
     db ≤ da ∧ (da = db → [a; b] `sublist_of` nodes G)).
Proof.
  intros Hnd. rewrite find_important_nodes_degree_eq. simpl.
  split; [done|]. split; [|split; [|split]].
  - intros Hn. rewrite by_degree_ranking.
    assert (len (slice_to (ranking G) top_n).*1 = Z.min top_n (number_of_nodes G)) as ->; [|lia].
    unfold len at 1. rewrite length_fmap. fold (len (slice_to (ranking G) top_n)).
    rewrite slice_to_length by done.
    unfold number_of_nodes, len. rewrite (Permutation_length (ranking_perm G)).
    unfold degree_items. by rewrite length_map.
  - rewrite by_degree_ranking.
    destruct (slice_to_prefix (ranking G) top_n) as [k Hk].
    exists (k.*1). rewrite Hk at 1. by rewrite fmap_app.
  - by rewrite ranking_perm, degree_items_fst.
  - intros. by eapply by_degree_order.
Qed.

Lemma find_important_nodes_degree_ranked_witness :
  (find_important_nodes failing_centrality
     (build [AddEdge "A" "B"; AddEdge "B" "C"; AddEdge "D" "B"]) "degree" 2).2
  `prefix_of` ["B"; "A"; "C"; "D"].
Proof.
  refine (proj1 (proj2 (proj2
    (find_important_nodes_degree_ranked failing_centrality
       (build [AddEdge "A" "B"; AddEdge "B" "C"; AddEdge "D" "B"]) 2 _)))).
  apply (bool_decide_unpack _). vm_compute. exact I.
Defined.

(** A negative [top_n] makes the slice drop nodes from the end of the
    ranking: the answer is then longer than [top_n]. *)
Lemma find_important_nodes_negative_top_n :
  (find_important_nodes failing_centrality
     (build [AddEdge "A" "B"; AddEdge "B" "C"]) "degree" (-1)).2 = ["B"; "A"]
  ∧ ¬ (len ["B"; "A"] ≤ -1).
Proof. split; [reflexivity|]. unfold len. simpl. lia. Qed.

(** C10.  A method name other than the three known ones is ranked by
    degree: the list returned is that of the degree method and nothing is
    printed. *)
Theorem find_important_nodes_unknown_method C G method top_n :
  method ≠ "degree" → method ≠ "betweenness" → method ≠ "pagerank" →
  find_important_nodes C G method top_n = find_important_nodes C G "degree" top_n
  ∧ (find_important_nodes C G method top_n).1 = [].
Proof.
  intros Hd Hb Hp. unfold find_important_nodes.
  destruct (String.eqb_spec method "degree") as [|_]; [done|].
  destruct (String.eqb_spec method "betweenness") as [|_]; [done|].
  destruct (String.eqb_spec method "pagerank") as [|_]; [done|].
  done.
Qed.

Lemma find_important_nodes_unknown_method_witness :
  find_important_nodes failing_centrality (build [AddEdge "A" "B"; AddEdge "B" "C"])
    "closeness" 5
  = find_important_nodes failing_centrality (build [AddEdge "A" "B"; AddEdge "B" "C"])
      "degree" 5
  ∧ (find_important_nodes failing_centrality (build [AddEdge "A" "B"; AddEdge "B" "C"])
       "closeness" 5).1 = [].
Proof.
  apply find_important_nodes_unknown_method; discriminate.
Defined.

(** ** Graphs built by [add_node] and [add_edge] *)

Lemma dict_alter_keys {V} (f : V → V) k (d : list (string * V)) :
  (dict_alter f k d).*1 = d.*1.
Proof.
  induction d as [|[k' v] d IH]; [done|]. cbn [dict_alter].
  destruct (String.eqb k k'); rewrite !fmap_cons; [done|]. by rewrite IH.
Qed.

Lemma dict_get_alter {V} (f : V → V) k k' (d : list (string * V)) :
  dict_get k' (dict_alter f k d)
  = if decide (k = k') then f <$> dict_get k d else dict_get k' d.
Proof.
  induction d as [|[k0 v] d IH]; simpl; [by destruct (decide (k = k'))|].
  destruct (String.eqb_spec k k0) as [->|Hne]; simpl.
  - destruct (decide (k0 = k')) as [->|Hk]; [by rewrite String.eqb_refl|].
    by destruct (String.eqb_spec k' k0); [congruence|].
  - rewrite IH. destruct (decide (k = k')) as [->|Hk]; [|done].
    by destruct (String.eqb_spec k' k0); [congruence|].
Qed.

Lemma dict_get_app {V} k (d1 d2 : list (string * V)) :
  dict_get k (d1 ++ d2) = match dict_get k d1 with
                          | Some v => Some v
                          | None => dict_get k d2
                          end.
Proof.
  induction d1 as [|[k' v] d1 IH]; simpl; [done|].
  by destruct (String.eqb k k').
Qed.

Lemma dict_get_is_Some {V} k (d : list (string * V)) :
  is_Some (dict_get k d) ↔ k ∈ d.*1.
Proof.
  rewrite <- not_eq_None_Some, dict_get_None.
  split; [apply dec_stable|auto].
Qed.

Lemma add_node_nodes n G :
  nodes (add_node n G) = if decide (n ∈ nodes G) then nodes G else nodes G ++ [n].
Proof.
  unfold add_node, has_node, dict_has, nodes.
  case_bool_decide; case_decide; try done. simpl. by rewrite fmap_app.
Qed.

Lemma add_node_get n k G :
  dict_get k (adj (add_node n G))
  = if decide (k = n ∧ n ∉ nodes G) then Some [] else dict_get k (adj G).
Proof.
  unfold add_node, has_node, dict_has. fold (nodes G).
  case_bool_decide as Hn; simpl.
  - case_decide as Hk; [by destruct Hk|done].
  - rewrite dict_get_app. simpl.
    destruct (String.eqb_spec k n) as [->|Hne].
    + rewrite decide_True by done.
      by apply dict_get_None in Hn as ->.
    + rewrite decide_False by (by intros [? _]).
      by destruct (dict_get k (adj G)).
Qed.

Lemma add_edge_nodes u v G : nodes (add_edge u v G) = nodes (add_node v (add_node u G)).
Proof. unfold add_edge, nodes. simpl. by rewrite !dict_alter_keys. Qed.

Lemma add_nbr_elem v x nbrs : x ∈ add_nbr v nbrs ↔ x ∈ nbrs ∨ x = v.
Proof.
  unfold add_nbr. case_bool_decide as Hv.
  - split; [auto|]. by intros [?| ->].
  - rewrite elem_of_app, list_elem_of_singleton. done.
Qed.

Lemma add_nbr_NoDup v nbrs : NoDup nbrs → NoDup (add_nbr v nbrs).
Proof.
  intros Hnd. unfold add_nbr. case_bool_decide as Hv; [done|].
  apply NoDup_app. split; [done|]. split; [|apply NoDup_singleton].
  intros x Hx ->%list_elem_of_singleton. done.
Qed.

Lemma add_edge_get u v k G :
  dict_get k (adj (add_edge u v G))
  = let base := dict_get k (adj (add_node v (add_node u G))) in
    let step1 := if decide (u = k) then add_nbr v <$> base else base in
    if decide (v = k) then add_nbr u <$> step1 else step1.
Proof.
  unfold add_edge. simpl. rewrite !dict_get_alter.
  destruct (decide (v = k)) as [<-|Hv].
  - by destruct (decide (u = v)) as [->|Hu].
  - by destruct (decide (u = k)) as [->|Hu].
Qed.

Lemma wf_graph_lookup G : wf_graph G ↔ wf_lookup G.
Proof.
  unfold wf_graph, wf_lookup, adjacent. split; intros [Hnd H]; (split; [done|]).
  - intros n nbrs Hget%dict_get_Some.
    eapply Forall_forall in H; [|done]. destruct H as [Hn Hall]. split; [done|].
    intros v Hv. eapply Forall_forall in Hall; [|done]. simpl in Hall.
    destruct (dict_get v (adj G)) as [nbrs'|]; [by exists nbrs'|].
    simpl in Hall. by apply elem_of_nil in Hall.
  - apply Forall_forall. intros [n nbrs] Hin.
    destruct (H n nbrs (dict_get_elem _ _ _ Hnd Hin)) as [Hn Hall].
    split; [done|]. apply Forall_forall. intros v Hv. simpl.
    destruct (Hall v Hv) as (nbrs' & -> & ?). done.
Qed.

Lemma wf_lookup_empty : wf_lookup Nx.empty.
Proof. split; [constructor|]. intros n nbrs. discriminate. Qed.

Lemma add_node_wf n G : wf_lookup G → wf_lookup (add_node n G).
Proof.
  intros [Hnd H]. split.
  - rewrite add_node_nodes. case_decide as Hn; [done|].
    apply NoDup_app. split; [done|]. split; [|apply NoDup_singleton].
    intros x Hx ->%list_elem_of_singleton. done.
  - intros k nbrs. rewrite add_node_get. case_decide as Hk.
    + intros [= <-]. split; [constructor|]. by intros v ?%elem_of_nil.
    + intros Hget. destruct (H k nbrs Hget) as [Hn Hall]. split; [done|].
      intros v Hv. destruct (Hall v Hv) as (nbrs' & Hget' & Hin).
      exists nbrs'. split; [|done]. rewrite add_node_get.
      rewrite decide_False; [done|]. intros [-> Hnot].
      apply Hnot. apply dict_get_is_Some. by eexists.
Qed.

Lemma add_node_has n G : n ∈ nodes (add_node n G).
Proof.
  rewrite add_node_nodes. case_decide; [done|].
  apply elem_of_app; right. by apply list_elem_of_singleton.
Qed.

Lemma add_node_mono n m G : m ∈ nodes G → m ∈ nodes (add_node n G).
Proof.
  rewrite add_node_nodes. case_decide; [done|].
  intros ?. apply elem_of_app; by left.
Qed.

Lemma add_nbr_opt_elem w b (o : option (list string)) :
  (∃ nbrs, add_nbr w <$> o = Some nbrs ∧ b ∈ nbrs) ↔
  (∃ nbrs, o = Some nbrs ∧ b ∈ nbrs) ∨ (b = w ∧ is_Some o).
Proof.
  destruct o as [l|]; simpl.
  - split.
    + intros (nbrs & [= <-] & [Hb| ->]%add_nbr_elem); [left; by exists l|right].
      split; [done|by exists l].
    + intros [(nbrs & [= <-] & Hb)|[-> _]]; eexists; (split; [done|]);
        apply add_nbr_elem; auto.
  - split; [by intros (? & ? & _)|]. intros [(? & ? & _)|[_ [? ?]]]; done.
Qed.

Lemma add_node_adjacent n G a b : adjacent (add_node n G) a b ↔ adjacent G a b.
Proof.
  unfold adjacent. setoid_rewrite add_node_get. case_decide as Hk; [|done].
  destruct Hk as [-> Hn]. split.
  - intros (nbrs & [= <-] & ?%elem_of_nil). done.
  - intros (nbrs & Hget & _). destruct Hn. apply dict_get_is_Some. by eexists.
Qed.

Lemma adjacent_node G a b : adjacent G a b → a ∈ nodes G.
Proof. intros (nbrs & Hget & _). apply dict_get_is_Some. by eexists. Qed.

(** Adjacency after [add_edge]: the old edges and the new one, both ways. *)
Lemma add_edge_adjacent u v a b G :
  adjacent (add_edge u v G) a b ↔
  adjacent G a b ∨ (a = u ∧ b = v) ∨ (a = v ∧ b = u).
Proof.
  unfold adjacent at 1. setoid_rewrite add_edge_get. simpl.
  set (G2 := add_node v (add_node u G)).
  assert (Hbase : (∃ nbrs, dict_get a (adj G2) = Some nbrs ∧ b ∈ nbrs) ↔ adjacent G a b).
  { change (adjacent G2 a b ↔ adjacent G a b). unfold G2. by rewrite !add_node_adjacent. }
  assert (Hu : is_Some (dict_get u (adj G2))).
  { apply dict_get_is_Some. apply add_node_mono, add_node_has. }
  assert (Hv : is_Some (dict_get v (adj G2))).
  { apply dict_get_is_Some. apply add_node_has. }
  destruct (decide (v = a)) as [Hva|Hva], (decide (u = a)) as [Hua|Hua].
  - subst a. subst v. rewrite !add_nbr_opt_elem, Hbase.
    rewrite fmap_is_Some. naive_solver.
  - subst a. rewrite add_nbr_opt_elem, Hbase. naive_solver.
  - subst a. rewrite add_nbr_opt_elem, Hbase. naive_solver.
  - rewrite Hbase. naive_solver.
Qed.

Lemma add_edge_wf u v G : wf_lookup G → wf_lookup (add_edge u v G).
Proof.
  intros Hwf.
  assert (Hwf2 : wf_lookup (add_node v (add_node u G))) by by do 2 apply add_node_wf.
  destruct Hwf2 as [Hnd2 H2]. split.
  - by rewrite add_edge_nodes.
  - intros n nbrs Hget. split.
    + revert Hget. rewrite add_edge_get. simpl.
      destruct (dict_get n (adj (add_node v (add_node u G)))) as [base|] eqn:Hbase;
        [|by repeat case_decide].
      destruct (H2 n base Hbase) as [Hnb _].
      repeat case_decide; simpl; intros [= <-]; auto using add_nbr_NoDup.
    + intros w Hw.
      assert (Hadj : adjacent (add_edge u v G) n w) by by exists nbrs.
      apply add_edge_adjacent in Hadj. apply add_edge_adjacent.
      destruct Hadj as [Hadj|[[-> ->]|[-> ->]]]; [left|auto..].
      destruct Hadj as (nbrs' & Hget' & Hw').
      destruct Hwf as [_ Hsym]. by apply (Hsym n nbrs' Hget').
Qed.

(** Every graph a loader builds satisfies the invariant. *)
Lemma build_wf ops : wf_graph (build ops).
Proof.
  apply wf_graph_lookup. unfold build.
  assert (Hgen : ∀ G, wf_lookup G → wf_lookup (foldl apply_op G ops)).
  { induction ops as [|o ops IH]; intros G HG; simpl; [done|].
    apply IH. destruct o; [by apply add_node_wf|by apply add_edge_wf]. }
  apply Hgen, wf_lookup_empty.
Qed.

(** ** The neighbourhood expansion *)

Lemma wf_graph_neighbor_node G n nbrs v :
  wf_graph G → (n, nbrs) ∈ adj G → v ∈ nbrs → v ∈ nodes G.
Proof.
  intros [_ Hall] Hin Hv.
  eapply Forall_forall in Hall; [|exact Hin]. destruct Hall as [_ Hall].
  eapply Forall_forall in Hall; [|exact Hv]. simpl in Hall.
  destruct (dict_get v (adj G)) as [nbrs'|] eqn:Hget; simpl in Hall.
  - apply dict_get_Some in Hget. apply list_elem_of_fmap. by exists (v, nbrs').
  - by apply elem_of_nil in Hall.
Qed.

Lemma neighbors_of_node G n :
  n ∈ nodes G → ∃ nbrs, Nx.neighbors G n = inr nbrs ∧ (n, nbrs) ∈ adj G.
Proof.
  intros Hn. unfold Nx.neighbors.
  destruct (dict_get n (adj G)) as [nbrs|] eqn:Hget.
  - exists nbrs. split; [done|]. by apply dict_get_Some.
  - by apply dict_get_None in Hget.
Qed.

Lemma size_add_le (x : string) (X : gset string) :
  (size ({[x]} ∪ X) ≤ S (size X))%nat.
Proof.
  rewrite size_union_alt, size_singleton.
  assert (Hsub : X ∖ {[x]} ⊆ X) by (intros y Hy; by apply elem_of_difference in Hy as [? _]).
  apply subseteq_size in Hsub. lia.
Qed.

Lemma subgraph_nodes G (S : gset string) :
  nodes (subgraph G S) = filter (λ n, n ∈ S) (nodes G).
Proof.
  unfold nodes, subgraph. simpl. induction (adj G) as [|[n nbrs] a IH]; [done|].
  rewrite fmap_cons, !filter_cons. simpl.
  destruct (decide (n ∈ S)); simpl; [f_equal|]; exact IH.
Qed.

Section bfs.
Variable set_iter : gset string → list string.
Variable G : Graph.
Variable max_nodes : Z.
Hypothesis set_iter_elem : ∀ s x, x ∈ set_iter s → x ∈ s.
Hypothesis G_wf : wf_graph G.

Lemma bfs_inv_frontier hi included dist frontier frontier' :
  (∀ x, x ∈ frontier' → x ∈ nodes G) →
  bfs_inv G max_nodes hi included dist frontier → bfs_inv G max_nodes hi included dist frontier'.
Proof. intros Hfr (? & ? & ? & _). by split; [|split; [|split]]. Qed.

Lemma bfs_inv_no_frontier hi included dist frontier :
  bfs_inv G max_nodes hi included dist frontier → bfs_inv G max_nodes hi included dist ∅.
Proof. apply bfs_inv_frontier. intros x Hx. by apply not_elem_of_empty in Hx. Qed.

Lemma add_neighbors_inv hi cd l st :
  0 ≤ cd ≤ hi →
  (∀ x, x ∈ l → x ∈ nodes G) →
  bfs_inv G max_nodes hi (nodes_to_include st) (distance_map st) (next_frontier st) →
  let st' := add_neighbors max_nodes cd l st in
  bfs_inv G max_nodes hi (nodes_to_include st') (distance_map st') (next_frontier st').
Proof.
  intros Hcd. revert st. induction l as [|x l IH]; intros st Hl Hinv; simpl; [done|].
  destruct (Z.geb_spec (Z.of_nat (size (nodes_to_include st))) max_nodes) as [Hfull|Hroom];
    [done|].
  apply IH; [intros y Hy; apply Hl; by apply elem_of_cons; right|].
  destruct Hinv as (Hsize & Hdom & Hdist & Hfr). simpl.
  split; [|split; [|split]].
  - pose proof (size_add_le x (nodes_to_include st)). lia.
  - rewrite dom_insert_L. by rewrite Hdom.
  - intros n v. rewrite lookup_insert. case_decide; [intros [= <-]; lia|apply Hdist].
  - intros y [->%elem_of_singleton|Hy]%elem_of_union; [|by apply Hfr].
    apply Hl. apply elem_of_cons; by left.
Qed.

Lemma visit_frontier_inv hi cd fr st :
  0 ≤ cd ≤ hi →
  (∀ x, x ∈ fr → x ∈ nodes G) →
  bfs_inv G max_nodes hi (nodes_to_include st) (distance_map st) (next_frontier st) →
  ∃ st', visit_frontier set_iter G max_nodes cd fr st = inr st'
         ∧ bfs_inv G max_nodes hi (nodes_to_include st') (distance_map st') (next_frontier st').
Proof.
  intros Hcd. revert st. induction fr as [|node fr IH]; intros st Hfr Hinv; simpl.
  - by exists st.
  - destruct (neighbors_of_node G node) as (nbrs & -> & Hin);
      [apply Hfr; apply elem_of_cons; by left|]. simpl.
    apply IH; [intros y Hy; apply Hfr; by apply elem_of_cons; right|].
    apply add_neighbors_inv; [done| |done].
    intros x Hx. apply set_iter_elem in Hx.
    apply elem_of_difference in Hx as [Hx _].
    apply elem_of_list_to_set in Hx.
    by eapply wf_graph_neighbor_node.
Qed.

Lemma bfs_inv_run hi max_distance fuel cd frontier included dist :
  max_distance ≤ hi →
  0 ≤ cd →
  bfs_inv G max_nodes hi included dist frontier →
  ∃ included' dist',
    bfs set_iter G max_distance max_nodes fuel cd frontier included dist
    = inr (included', dist')
    ∧ bfs_inv G max_nodes hi included' dist' ∅.
Proof.
  intros Hhi. revert cd frontier included dist.
  induction fuel as [|fuel IH]; intros cd frontier included dist Hcd Hinv; simpl.
  - exists included, dist. split; [done|]. by eapply bfs_inv_no_frontier.
  - destruct (Z.ltb_spec cd max_distance) as [Hlt|Hge]; simpl;
      [destruct (Z.ltb_spec (Z.of_nat (size included)) max_nodes) as [Hroom|Hfull]; simpl|].
    + destruct (visit_frontier_inv hi (cd + 1) (set_iter frontier)
                  (mkLayer included dist ∅)) as (st' & -> & Hinv'); [lia| |..].
      { intros x Hx. apply set_iter_elem in Hx.
        destruct Hinv as (_ & _ & _ & Hfr). by apply Hfr. }
      { by eapply bfs_inv_no_frontier. }
      simpl. case_decide as Hempty.
      * exists (nodes_to_include st'), (distance_map st'). split; [done|].
        by rewrite <- Hempty.
      * apply IH; [lia|done].
    + exists included, dist. split; [done|]. by eapply bfs_inv_no_frontier.
    + exists included, dist. split; [done|]. by eapply bfs_inv_no_frontier.
Qed.

(** The rounds never run out: with [fuel] at least
    [max_distance - current_distance] the loop ends by its own test. *)
Lemma bfs_fuel_enough max_distance fuel extra cd frontier included dist :
  max_distance - cd ≤ Z.of_nat fuel →
  bfs set_iter G max_distance max_nodes (fuel + extra) cd frontier included dist
  = bfs set_iter G max_distance max_nodes fuel cd frontier included dist.
Proof.
  revert cd frontier included dist.
  induction fuel as [|fuel IH]; intros cd frontier included dist Hfuel; simpl.
  - destruct extra as [|extra]; simpl; [done|].
    destruct (Z.ltb_spec cd max_distance); [lia|done].
  - destruct ((cd <? max_distance) && (Z.of_nat (size included) <? max_nodes)); [|done].
    destruct (visit_frontier _ _ _ _ _ _) as [e|st']; simpl; [done|].
    case_decide; [done|]. apply IH. lia.
Qed.

Lemma subgraph_nodes_length (S : gset string) :
  (length (nodes (subgraph G S)) ≤ size S)%nat.
Proof.
  destruct G_wf as [Hnd _].
  rewrite subgraph_nodes.
  rewrite <- (size_list_to_set (C := gset string)) by by apply NoDup_filter.
  apply subseteq_size. intros x Hx.
  apply elem_of_list_to_set, list_elem_of_filter in Hx. by destruct Hx.
Qed.

Lemma subgraph_nodes_elem (S : gset string) n :
  n ∈ nodes (subgraph G S) ↔ n ∈ S ∧ n ∈ nodes G.
Proof.
  rewrite subgraph_nodes. by rewrite list_elem_of_filter.
Qed.

End bfs.

Lemma random_choice_node pick (seq : list string) :
  seq ≠ [] → ∃ x, random_choice pick seq = inr x ∧ x ∈ seq.
Proof.
  intros Hne. unfold random_choice.
  assert (Hlt : (pick mod length seq < length seq)%nat).
  { apply Nat.mod_upper_bound. destruct seq; [done|]. simpl. lia. }
  apply lookup_lt_is_Some in Hlt as [x Hx]. rewrite Hx.
  exists x. split; [done|]. by eapply list_elem_of_lookup_2.
Qed.

(** On a graph without nodes the centre cannot be replaced and the call
    raises. *)
Lemma get_node_neighborhood_empty_graph set_iter pick c d m :
  get_node_neighborhood set_iter pick Nx.empty c d m = inl IndexError.
Proof.
  unfold get_node_neighborhood, random_choice. simpl. by destruct pick.
Qed.

(** A graph without nodes is the empty graph. *)
Lemma nodes_nil_empty G : nodes G = [] → G = Nx.empty.
Proof.
  destruct G as [a]. unfold nodes. simpl. intros H.
  apply fmap_nil_inv in H. by subst.
Qed.

(** C1 (as amended).  For every graph, every centre, every
    [max_distance] and every budget [max_nodes >= 1], the expansion either
    raises, which it does exactly on a graph without nodes, or returns a
    subgraph of at most [max_nodes] nodes, each with a distance, where
    every distance recorded is at least [0] and, when [max_distance >= 0],
    at most [max_distance]. *)
Theorem get_node_neighborhood_budget set_iter pick G center_node max_distance max_nodes :
  (∀ s x, x ∈ set_iter s → x ∈ s) →
  wf_graph G →
  1 ≤ max_nodes →
  (nodes G = []
   ∧ get_node_neighborhood set_iter pick G center_node max_distance max_nodes
     = inl IndexError)
  ∨ (nodes G ≠ []
     ∧ ∃ sub dist,
         get_node_neighborhood set_iter pick G center_node max_distance max_nodes
         = inr (sub, dist)
         ∧ len (nodes sub) ≤ max_nodes
         ∧ (∀ n, n ∈ nodes sub → is_Some (dist !! n))
         ∧ (∀ n v, dist !! n = Some v →
                   0 ≤ v ∧ (0 ≤ max_distance → v ≤ max_distance))).
Proof.
  intros Hiter Hwf Hm.
  destruct (decide (nodes G = [])) as [Hnil|Hne].
  { left. split; [done|]. rewrite (nodes_nil_empty G Hnil).
    apply get_node_neighborhood_empty_graph. }
  right. split; [done|].
  assert (Hc : ∃ c, c ∈ nodes G ∧
    get_node_neighborhood set_iter pick G center_node max_distance max_nodes
    = bind (bfs set_iter G max_distance max_nodes (Z.to_nat max_distance) 0
              {[c]} {[c]} {[c := 0]})
           (λ r, inr (subgraph G r.1, r.2))).
  { unfold get_node_neighborhood, has_node, dict_has. case_bool_decide as Hin.
    - by exists center_node.
    - destruct (random_choice_node pick (nodes G) Hne) as (c & -> & Hc).
      by exists c. }
  destruct Hc as (c & Hc & ->).
  destruct (bfs_inv_run set_iter G max_nodes Hiter Hwf (Z.max 0 max_distance)
              max_distance (Z.to_nat max_distance) 0 {[c]} {[c]} {[c := 0]})
    as (included & dist & -> & Hsize & Hdom & Hdist & _); [lia|lia| |].
  { split; [|split; [|split]].
    - rewrite size_singleton. lia.
    - apply dom_singleton_L.
    - intros n v [_ <-]%lookup_singleton_Some. lia.
    - intros x ->%elem_of_singleton. done. }
  simpl. exists (subgraph G included), dist. split; [done|].
  split; [|split].
  - pose proof (subgraph_nodes_length G Hwf included). unfold len. lia.
  - intros n [Hn _]%subgraph_nodes_elem.
    apply elem_of_dom. by rewrite Hdom.
  - intros n v Hv. apply Hdist in Hv. lia.
Qed.

Lemma get_node_neighborhood_budget_witness :
  (nodes (build [AddEdge "A" "B"; AddEdge "B" "C"; AddEdge "C" "D"]) = []
   ∧ get_node_neighborhood elements 0
       (build [AddEdge "A" "B"; AddEdge "B" "C"; AddEdge "C" "D"]) "B" 1 2
     = inl IndexError)
  ∨ (nodes (build [AddEdge "A" "B"; AddEdge "B" "C"; AddEdge "C" "D"]) ≠ []
     ∧ ∃ sub dist,
         get_node_neighborhood elements 0
           (build [AddEdge "A" "B"; AddEdge "B" "C"; AddEdge "C" "D"]) "B" 1 2
         = inr (sub, dist)
         ∧ len (nodes sub) ≤ 2
         ∧ (∀ n, n ∈ nodes sub → is_Some (dist !! n))
         ∧ (∀ n v, dist !! n = Some v → 0 ≤ v ∧ (0 ≤ 1 → v ≤ 1))).
Proof.
  apply get_node_neighborhood_budget.
  - intros s x Hx. by apply elem_of_elements.
  - apply build_wf.
  - lia.
Defined.

(** With a negative [max_distance] the loop is not entered and the centre
    keeps its distance [0], which is above [max_distance]. *)
Lemma get_node_neighborhood_negative_distance :
  ∃ sub dist,
    get_node_neighborhood elements 0 (build [AddEdge "A" "B"]) "A" (-1) 10
    = inr (sub, dist)
    ∧ dist !! "A" = Some 0
    ∧ ¬ (0 ≤ -1).
Proof.
  eexists _, _. split; [vm_compute; reflexivity|].
  split; [reflexivity|lia].
Qed.


(** ** Escaped identifiers and unordered pairs *)

Lemma escape_inj s t : escape s = escape t → s = t.
Proof.
  revert t. induction s as [|c s IH]; intros [|d t]; simpl.
  - done.
  - destruct (Ascii.eqb d "'"); discriminate.
  - destruct (Ascii.eqb c "'"); discriminate.
  - destruct (Ascii.eqb_spec c "'") as [->|Hc], (Ascii.eqb_spec d "'") as [->|Hd].
    + intros [= H]. f_equal. by apply IH.
    + intros [= <- _]. done.
    + intros [= -> _]. done.
    + intros [= -> H]. f_equal. by apply IH.
Qed.

#[global] Instance escape_Inj : Inj (=) (=) escape.
Proof. exact escape_inj. Qed.

Lemma sorted_pair_comm a b : sorted_pair a b = sorted_pair b a.
Proof.
  unfold sorted_pair.
  destruct (String.leb a b) eqn:Hab, (String.leb b a) eqn:Hba; try done.
  - by rewrite (String.leb_antisym _ _ Hab Hba).
  - destruct (String.leb_total a b); congruence.
Qed.

Lemma sorted_pair_elems a b :
  sorted_pair a b = (a, b) ∨ sorted_pair a b = (b, a).
Proof. unfold sorted_pair. destruct (String.leb a b); auto. Qed.

Lemma sorted_pair_eq a b c d :
  sorted_pair a b = sorted_pair c d ↔ same_edge (a, b) (c, d).
Proof.
  unfold same_edge. simpl. split.
  - destruct (sorted_pair_elems a b) as [->| ->], (sorted_pair_elems c d) as [->| ->];
      intros [= -> ->]; auto.
  - intros [[-> ->]|[-> ->]]; [done|apply sorted_pair_comm].
Qed.

Lemma stream_key_eq e1 e2 : stream_key e1 = stream_key e2 ↔ same_edge e1 e2.
Proof.
  unfold stream_key. rewrite sorted_pair_eq. unfold same_edge. simpl.
  split; intros [[H1 H2]|[H1 H2]]; [left|right|left|right]; split;
    try (by apply escape_inj); by f_equal.
Qed.

(** ** The edge loop, without its batches *)

Lemma first_occurrences_id i stream seen r :
  r ∈ first_occurrences i stream seen → i ≤ e_id r.
Proof.
  revert i seen. induction stream as [|e stream IH]; intros i seen; simpl.
  - by intros ?%elem_of_nil.
  - case_bool_decide.
    + intros Hr%IH. lia.
    + intros [->|Hr%IH]%elem_of_cons; simpl; lia.
Qed.

Lemma first_occurrences_ids_NoDup i stream seen :
  NoDup (e_id <$> first_occurrences i stream seen).
Proof.
  revert i seen. induction stream as [|e stream IH]; intros i seen; simpl.
  - constructor.
  - case_bool_decide; [apply IH|].
    rewrite fmap_cons. constructor; [|apply IH]. simpl.
    intros (r & Hid & Hr%first_occurrences_id)%list_elem_of_fmap. lia.
Qed.

Lemma first_occurrences_key i stream seen r :
  r ∈ first_occurrences i stream seen → edge_key r ∉ seen.
Proof.
  revert i seen. induction stream as [|e stream IH]; intros i seen; simpl.
  - by intros ?%elem_of_nil.
  - case_bool_decide as Hseen.
    + apply IH.
    + intros [->|Hr%IH]%elem_of_cons; [done|].
      intros Hin. apply Hr. apply elem_of_union; by right.
Qed.

Lemma first_occurrences_keys_NoDup i stream seen :
  NoDup (edge_key <$> first_occurrences i stream seen).
Proof.
  revert i seen. induction stream as [|e stream IH]; intros i seen; simpl.
  - constructor.
  - case_bool_decide; [apply IH|].
    rewrite fmap_cons. constructor; [|apply IH].
    intros (r & Hk & Hr%first_occurrences_key)%list_elem_of_fmap.
    apply Hr. apply elem_of_union; left. apply elem_of_singleton.
    by rewrite <- Hk.
Qed.

(** A row is collected exactly for the first edge of each pair. *)
Lemma first_occurrences_elem i stream seen r :
  r ∈ first_occurrences i stream seen ↔
  ∃ k e, stream !! k = Some e
         ∧ r = mkEdge (i + Z.of_nat k) (escape e.1) (escape e.2)
         ∧ (stream_key e ∉ seen)
         ∧ (∀ j e', (j < k)%nat → stream !! j = Some e' → stream_key e' ≠ stream_key e).
Proof.
  revert i seen. induction stream as [|e0 stream IH]; intros i seen; simpl.
  - split; [by intros ?%elem_of_nil|]. by intros (k & e & ? & _).
  - case_bool_decide as Hseen.
    + rewrite IH. split.
      * intros (k & e & Hk & -> & Hns & Hfirst).
        exists (S k), e. split; [done|]. split; [f_equal; lia|]. split; [done|].
        intros [|j] e' Hj He'; simpl in He'.
        -- injection He' as <-. congruence.
        -- eapply Hfirst; [|done]. lia.
      * intros ([|k] & e & Hk & -> & Hns & Hfirst); simpl in Hk.
        -- injection Hk as <-. done.
        -- exists k, e. split; [done|]. split; [f_equal; lia|]. split; [done|].
           intros j e' Hj He'. apply (Hfirst (S j)); [lia|done].
    + rewrite elem_of_cons, IH. split.
      * intros [->|(k & e & Hk & -> & Hns & Hfirst)].
        -- exists 0%nat, e0. split; [done|]. split; [f_equal; lia|]. split; [done|].
           intros j e' Hj. lia.
        -- exists (S k), e. split; [done|]. split; [f_equal; lia|].
           apply not_elem_of_union in Hns as [Hne%not_elem_of_singleton Hns].
           split; [done|].
           intros [|j] e' Hj He'; simpl in He'.
           ++ injection He' as <-. congruence.
           ++ eapply Hfirst; [|done]. lia.
      * intros ([|k] & e & Hk & -> & Hns & Hfirst); simpl in Hk.
        -- injection Hk as <-. left. f_equal. lia.
        -- right. exists k, e. split; [done|]. split; [f_equal; lia|]. split.
           ++ apply not_elem_of_union. split; [|done].
              apply not_elem_of_singleton. intros Heq.
              apply (Hfirst 0%nat e0); [lia|done|done].
           ++ intros j e' Hj He'. apply (Hfirst (S j)); [lia|done].
Qed.

(** ** The edge loop on the connection *)

Lemma insert_or_ignore_edges_fresh rows t :
  NoDup (e_id <$> (t ++ rows)) →
  NoDup (edge_ends <$> (t ++ rows)) →
  insert_or_ignore_edges rows t = t ++ rows.
Proof.
  revert t. induction rows as [|r rows IH]; intros t Hid Hends; simpl.
  - by rewrite app_nil_r.
  - assert (Hfresh : edge_conflict r t = false).
    { unfold edge_conflict. apply orb_false_iff. split; apply bool_decide_eq_false_2.
      - rewrite fmap_app, fmap_cons in Hid.
        apply NoDup_app in Hid as (_ & Hid & _). intros Hin.
        apply (Hid _ Hin). apply elem_of_cons; by left.
      - rewrite fmap_app, fmap_cons in Hends.
        apply NoDup_app in Hends as (_ & Hends & _). intros Hin.
        apply (Hends _ Hin). apply elem_of_cons; by left. }
    rewrite Hfresh. rewrite IH; rewrite <- ?app_assoc; done.
Qed.

Lemma edge_keys_ends_NoDup (l : list edge_row) :
  NoDup (edge_key <$> l) → NoDup (edge_ends <$> l).
Proof.
  intros H. apply (NoDup_fmap_1 (λ p : string * string, sorted_pair p.1 p.2)).
  by rewrite <- list_fmap_compose.
Qed.

Lemma NoDup_fmap_batch {A B} (f : A → B) (t data rest : list A) (r : A) :
  NoDup (f <$> (t ++ data ++ r :: rest)) → NoDup (f <$> (t ++ data ++ [r])).
Proof.
  rewrite (cons_middle r data rest), !app_assoc, fmap_app.
  by intros (H & _)%NoDup_app.
Qed.

Section edges_loop.
Variable batch : Z.

(** One batch written. *)
Lemma executemany_edges_run data c :
  NoDup (e_id <$> (edges_table (work c) ++ data)) →
  NoDup (edge_key <$> (edges_table (work c) ++ data)) →
  executemany_insert_or_ignore_edges data c
  = (inr tt, mkConn (disk c) (set_edges (edges_table (work c) ++ data) (work c))).
Proof.
  intros Hid Hkey. unfold executemany_insert_or_ignore_edges.
  rewrite insert_or_ignore_edges_fresh; [done|done|by apply edge_keys_ends_NoDup].
Qed.

Lemma edges_loop_run stream i seen data c :
  NoDup (e_id <$> (edges_table (work c) ++ data ++ first_occurrences i stream seen)) →
  NoDup (edge_key <$> (edges_table (work c) ++ data ++ first_occurrences i stream seen)) →
  ∃ data' written,
    edges_loop batch i stream seen data c
    = (inr data',
       mkConn (if written is [] then disk c
               else set_edges (edges_table (work c) ++ written) (work c))
              (set_edges (edges_table (work c) ++ written) (work c)))
    ∧ written ++ data' = data ++ first_occurrences i stream seen.
Proof.
  revert i seen data c.
  induction stream as [|[u v] stream IH]; intros i seen data c Hid Hkey.
  - exists data, []. simpl. rewrite !app_nil_r. split; [|done].
    unfold ret. by destruct c as [d [? ? ? ?]].
  - revert Hid Hkey. simpl. unfold stream_key. simpl.
    destruct (bool_decide (sorted_pair (escape u) (escape v) ∈ seen)) eqn:Hseen;
      intros Hid Hkey.
    + by apply IH.
    + destruct (Z.geb_spec (len (data ++ [mkEdge i (escape u) (escape v)])) batch)
        as [Hfull|Hroom].
      * unfold dbind.
        rewrite executemany_edges_run; [|by eapply NoDup_fmap_batch..].
        unfold commit. simpl.
        set (t1 := edges_table (work c) ++ data ++ [mkEdge i (escape u) (escape v)]).
        destruct (IH (i + 1) ({[sorted_pair (escape u) (escape v)]} ∪ seen) []
                    (mkConn (set_edges t1 (work c)) (set_edges t1 (work c))))
          as (data' & written & Hrun & Heq).
        { simpl. unfold t1. by rewrite <- !app_assoc. }
        { simpl. unfold t1. by rewrite <- !app_assoc. }
        exists data', (data ++ [mkEdge i (escape u) (escape v)] ++ written).
        simpl in Hrun, Heq. rewrite Hrun. split.
        -- unfold t1. rewrite <- !app_assoc. simpl.
           destruct data, written; simpl; try done; by rewrite ?app_nil_r.
        -- rewrite <- !app_assoc. simpl. by rewrite Heq.
      * destruct (IH (i + 1) ({[sorted_pair (escape u) (escape v)]} ∪ seen)
                    (data ++ [mkEdge i (escape u) (escape v)]) c)
          as (data' & written & Hrun & Heq).
        { by rewrite <- !app_assoc. }
        { by rewrite <- !app_assoc. }
        exists data', written. split; [done|]. rewrite Heq. by rewrite <- !app_assoc.
Qed.

(** Lines 139-175 on a connection: every first occurrence is appended to
    the table and committed; no other table changes. *)
Lemma insert_all_edges_run stream c :
  edges_table (work c) = [] →
  disk c = work c →
  insert_all_edges batch stream c
  = (inr tt, mkConn (set_edges (first_occurrences 0 stream ∅) (work c))
                    (set_edges (first_occurrences 0 stream ∅) (work c))).
Proof.
  intros Hempty Hdisk. unfold insert_all_edges, dbind at 1.
  destruct (edges_loop_run stream 0 ∅ [] c) as (data' & written & -> & Heq).
  { rewrite Hempty. simpl. apply first_occurrences_ids_NoDup. }
  { rewrite Hempty. simpl. apply first_occurrences_keys_NoDup. }
  rewrite Hempty. simpl in *.
  destruct data' as [|r data'].
  - rewrite app_nil_r in Heq. subst written. unfold ret. f_equal. f_equal.
    destruct (first_occurrences 0 stream ∅) eqn:Hfo; [|done].
    rewrite Hdisk. rewrite <- Hempty. by destruct (work c).
  - unfold dbind. rewrite executemany_edges_run; simpl.
    + by rewrite Heq.
    + rewrite Heq. apply first_occurrences_ids_NoDup.
    + rewrite Heq. apply first_occurrences_keys_NoDup.
Qed.

End edges_loop.

(** ** The node loop on the connection *)

Lemma node_rows_ids G : n_id <$> node_rows G = escape <$> nodes G.
Proof.
  unfold node_rows, nodes. rewrite <- !list_fmap_compose.
  by apply list_fmap_ext.
Qed.

Lemma node_rows_ids_NoDup G : NoDup (nodes G) → NoDup (n_id <$> node_rows G).
Proof. intros H. rewrite node_rows_ids. by apply (NoDup_fmap_2 escape). Qed.

Lemma insert_nodes_fresh rows t :
  NoDup (n_id <$> (t ++ rows)) → insert_nodes rows t = inr (t ++ rows).
Proof.
  revert t. induction rows as [|r rows IH]; intros t Hid; simpl.
  - by rewrite app_nil_r.
  - rewrite bool_decide_eq_false_2.
    + rewrite IH; rewrite <- ?app_assoc; done.
    + rewrite fmap_app, fmap_cons in Hid.
      apply NoDup_app in Hid as (_ & Hid & _). intros Hin.
      apply (Hid _ Hin). apply elem_of_cons; by left.
Qed.

Lemma executemany_nodes_run data c :
  NoDup (n_id <$> (nodes_table (work c) ++ data)) →
  executemany_insert_nodes data c
  = (inr tt, mkConn (disk c) (set_nodes (nodes_table (work c) ++ data) (work c))).
Proof.
  intros Hid. unfold executemany_insert_nodes. by rewrite insert_nodes_fresh.
Qed.

Section nodes_loop.
Variable batch : Z.
Variable G : Graph.
Hypothesis G_nodes : NoDup (nodes G).

Lemma nodes_loop_run (todo : list (string * list string)) data c :
  todo ⊆ adj G →
  NoDup (n_id <$> (nodes_table (work c) ++ data ++ (node_row_of <$> todo))) →
  ∃ data' written,
    nodes_loop batch G todo.*1 data c
    = (inr data',
       mkConn (if written is [] then disk c
               else set_nodes (nodes_table (work c) ++ written) (work c))
              (set_nodes (nodes_table (work c) ++ written) (work c)))
    ∧ written ++ data' = data ++ (node_row_of <$> todo).
Proof.
  revert data c. induction todo as [|[n nbrs] todo IH]; intros data c Hsub Hid.
  - exists data, []. simpl. rewrite !app_nil_r. split; [|done].
    unfold ret. by destruct c as [d [? ? ? ?]].
  - rewrite !fmap_cons. rewrite fmap_cons in Hid. cbn [nodes_loop fst]. unfold Nx.degree.
    rewrite (dict_get_elem n nbrs (adj G) G_nodes) by (apply Hsub, elem_of_cons; by left).
    assert (Hsub' : todo ⊆ adj G) by (intros x Hx; apply Hsub, elem_of_cons; by right).
    change (mkNode (escape n) (escape n) (degree_of n nbrs)) with (node_row_of (n, nbrs)).
    destruct (Z.geb_spec (len (data ++ [node_row_of (n, nbrs)])) batch) as [Hfull|Hroom].
    + unfold dbind.
      rewrite executemany_nodes_run by (by eapply NoDup_fmap_batch).
      unfold commit. simpl.
      set (t1 := nodes_table (work c) ++ data ++ [node_row_of (n, nbrs)]).
      destruct (IH [] (mkConn (set_nodes t1 (work c)) (set_nodes t1 (work c))))
        as (data' & written & Hrun & Heq); [done| |].
      { simpl. unfold t1. by rewrite <- !app_assoc. }
      exists data', (data ++ [node_row_of (n, nbrs)] ++ written).
      simpl in Hrun, Heq. rewrite Hrun. split.
      * unfold t1. rewrite <- !app_assoc. simpl.
        destruct data, written; simpl; try done; by rewrite ?app_nil_r.
      * rewrite <- !app_assoc. simpl. by rewrite Heq.
    + destruct (IH (data ++ [node_row_of (n, nbrs)]) c)
        as (data' & written & Hrun & Heq); [done| |].
      { by rewrite <- !app_assoc. }
      exists data', written. split; [done|]. rewrite Heq. by rewrite <- !app_assoc.
Qed.

(** Lines 116-137 on a connection: one row per node, in node order. *)
Lemma insert_all_nodes_run c :
  nodes_table (work c) = [] →
  disk c = work c →
  insert_all_nodes batch G c
  = (inr tt, mkConn (set_nodes (node_rows G) (work c))
                    (set_nodes (node_rows G) (work c))).
Proof.
  intros Hempty Hdisk. unfold insert_all_nodes, dbind at 1.
  destruct (nodes_loop_run (adj G) [] c) as (data' & written & Hrun & Heq); [done| |].
  { rewrite Hempty. simpl. by apply node_rows_ids_NoDup. }
  fold (nodes G) in Hrun. rewrite Hrun.
  rewrite Hempty. simpl in *. fold (node_rows G) in Heq.
  destruct data' as [|r data'].
  - rewrite app_nil_r in Heq. subst written. unfold ret. f_equal. f_equal.
    destruct (node_rows G) eqn:Hrows; [|done].
    rewrite Hdisk. rewrite <- Hempty. by destruct (work c).
  - unfold dbind. rewrite executemany_nodes_run; simpl.
    + by rewrite Heq.
    + rewrite Heq. by apply node_rows_ids_NoDup.
Qed.

End nodes_loop.

(** ** The whole ingestion *)

Lemma by_degree_NoDup G top_n : NoDup (nodes G) → NoDup (by_degree G top_n).
Proof.
  intros Hnd. rewrite by_degree_ranking.
  destruct (slice_to_prefix (ranking G) top_n) as [k Hk].
  assert (Hall : NoDup (ranking G).*1).
  { rewrite (fmap_Permutation fst _ _ (ranking_perm G)). by rewrite degree_items_fst. }
  rewrite Hk, fmap_app in Hall. by apply NoDup_app in Hall as (? & _).
Qed.

Lemma insert_important_fresh rows t :
  NoDup (t ++ rows) → insert_important rows t = inr (t ++ rows).
Proof.
  revert t. induction rows as [|r rows IH]; intros t Hnd; simpl.
  - by rewrite app_nil_r.
  - rewrite bool_decide_eq_false_2.
    + rewrite IH; rewrite <- ?app_assoc; done.
    + apply NoDup_app in Hnd as (_ & Hnd & _). intros Hin.
      apply (Hnd _ Hin). apply elem_of_cons; by left.
Qed.

Lemma preprocess_graph_with_ok C batch G file :
  NoDup (nodes G) → nodes G ≠ [] →
  preprocess_graph_with C batch G file = (inr tt, Some (ingested G)).
Proof.
  intros Hnd Hne. unfold preprocess_graph_with, os_remove_if_exists.
  assert (Hconn : connect (if file is Some _ then None else file)
                  = mkConn empty_store empty_store) by by destruct file.
  rewrite Hconn. unfold populate, dbind at 1.
  rewrite (insert_all_nodes_run batch G Hnd) by done. simpl.
  unfold dbind at 1. rewrite insert_all_edges_run by done. simpl.
  unfold dbind at 1, insert_important_nodes, executemany_insert_important. simpl.
  rewrite insert_important_fresh
    by (simpl; apply (NoDup_fmap_2 escape); by apply by_degree_NoDup).
  simpl. unfold dbind at 1, insert_graph_stats.
  assert (Hn : (number_of_nodes G =? 0) = false).
  { apply Z.eqb_neq. unfold number_of_nodes, len, nodes in *.
    destruct (adj G); [done|]. simpl. lia. }
  rewrite Hn. reflexivity.
Qed.

Lemma preprocess_graph_with_empty C batch G file :
  number_of_nodes G = 0 →
  preprocess_graph_with C batch G file = (inl ZeroDivisionError, Some empty_store).
Proof.
  intros Hn. destruct G as [[|e a]]; [|unfold number_of_nodes, len in Hn; simpl in Hn; lia].
  unfold preprocess_graph_with, os_remove_if_exists.
  assert (Hconn : connect (if file is Some _ then None else file)
                  = mkConn empty_store empty_store) by by destruct file.
  rewrite Hconn. reflexivity.
Qed.

(** ** Deduplication of edges (C5) *)

Lemma persisted_edges_eq stream :
  persisted_edges stream = first_occurrences 0 stream ∅.
Proof.
  unfold persisted_edges. by rewrite insert_all_edges_run.
Qed.

Lemma NoDup_fmap_elem_inj {A B} (f : A → B) (l : list A) x y :
  NoDup (f <$> l) → x ∈ l → y ∈ l → f x = f y → x = y.
Proof.
  intros Hnd [i Hi]%list_elem_of_lookup [j Hj]%list_elem_of_lookup Hf.
  assert (i = j) as ->; [|congruence].
  eapply (NoDup_lookup _ _ _ _ Hnd).
  - rewrite list_lookup_fmap, Hi. done.
  - rewrite list_lookup_fmap, Hj. simpl. by rewrite Hf.
Qed.

Lemma first_occurrences_cover i stream seen e :
  e ∈ stream →
  stream_key e ∈ seen ∨ ∃ r, r ∈ first_occurrences i stream seen ∧ edge_key r = stream_key e.
Proof.
  revert i seen. induction stream as [|e0 stream IH]; intros i seen Hin; simpl.
  - by apply elem_of_nil in Hin.
  - apply elem_of_cons in Hin as [->|Hin].
    + case_bool_decide as Hseen; [by left|right].
      eexists. split; [apply elem_of_cons; by left|done].
    + case_bool_decide as Hseen.
      * destruct (IH (i + 1) seen Hin) as [?|(r & Hr & Hk)]; [by left|right].
        by exists r.
      * destruct (IH (i + 1) ({[stream_key e0]} ∪ seen) Hin)
          as [[->%elem_of_singleton|?]%elem_of_union|(r & Hr & Hk)].
        -- right. eexists. split; [apply elem_of_cons; by left|done].
        -- by left.
        -- right. exists r. split; [apply elem_of_cons; by right|done].
Qed.

(** C5.  Whatever the stream of edges, the edge table holds at most one
    row per unordered pair of end points, every pair of the stream has
    its row, and the row kept is that of the first edge of the pair in
    the stream, under the index of that edge.  Ingesting (A,B) and then
    (B,A) leaves the single row of (A,B). *)
Theorem insert_all_edges_dedup :
  (∀ stream,
     (∀ r1 r2, r1 ∈ persisted_edges stream → r2 ∈ persisted_edges stream →
               same_edge (edge_ends r1) (edge_ends r2) → r1 = r2)
     ∧ (∀ e, e ∈ stream →
             ∃ r, r ∈ persisted_edges stream
                  ∧ same_edge (edge_ends r) (escape e.1, escape e.2))
     ∧ (∀ r, r ∈ persisted_edges stream ↔
             ∃ k e, stream !! k = Some e
                    ∧ r = mkEdge (Z.of_nat k) (escape e.1) (escape e.2)
                    ∧ (∀ j e', (j < k)%nat → stream !! j = Some e' → ¬ same_edge e' e)))
  ∧ persisted_edges [("A", "B"); ("B", "A")] = [mkEdge 0 "A" "B"].
Proof.
  split; [|reflexivity].
  intros stream. rewrite persisted_edges_eq. split; [|split].
  - intros r1 r2 H1 H2 Hsame.
    eapply (NoDup_fmap_elem_inj edge_key); [apply first_occurrences_keys_NoDup|done..|].
    unfold edge_key. by apply sorted_pair_eq.
  - intros e He.
    destruct (first_occurrences_cover 0 stream ∅ e He) as [Hin|(r & Hr & Hk)].
    + by apply not_elem_of_empty in Hin.
    + exists r. split; [done|]. by apply sorted_pair_eq.
  - intros r. rewrite first_occurrences_elem. split.
    + intros (k & e & Hk & -> & _ & Hfirst). exists k, e.
      split; [done|]. split; [done|].
      intros j e' Hj He' Hsame. by apply (Hfirst j e' Hj He'), stream_key_eq.
    + intros (k & e & Hk & -> & Hfirst). exists k, e.
      split; [done|]. split; [done|]. split; [apply not_elem_of_empty|].
      intros j e' Hj He' Hsame%stream_key_eq. by apply (Hfirst j e' Hj He').
Qed.

(** ** The end points of the edges of a graph *)

Lemma edges_from_elem seen a u v :
  (u, v) ∈ edges_from seen a → ∃ nbrs, (u, nbrs) ∈ a ∧ v ∈ nbrs.
Proof.
  revert seen. induction a as [|[n nbrs] a IH]; intros seen; simpl.
  - by intros ?%elem_of_nil.
  - intros [Hin|Hin]%elem_of_app.
    + apply list_elem_of_fmap in Hin as (w & [= -> ->] & Hw%list_elem_of_filter).
      exists nbrs. split; [apply elem_of_cons; by left|by destruct Hw].
    + destruct (IH _ Hin) as (nbrs' & ? & ?).
      exists nbrs'. split; [apply elem_of_cons; by right|done].
Qed.

Lemma edges_endpoints G u v :
  wf_graph G → (u, v) ∈ Nx.edges G → u ∈ nodes G ∧ v ∈ nodes G.
Proof.
  intros Hwf (nbrs & Hin & Hv)%edges_from_elem. split.
  - apply list_elem_of_fmap. by exists (u, nbrs).
  - by eapply wf_graph_neighbor_node.
Qed.

(** ** An ingestion that finds no node (C2) *)

(** A store is built from the graph A - B; a second run on a graph without
    nodes raises [ZeroDivisionError] and the path then holds an empty
    store, not the one built before. *)
Lemma preprocess_graph_empty_loses_store :
  ∃ old,
    preprocess_graph failing_centrality (build [AddEdge "A" "B"]) None
    = (inr tt, Some old)
    ∧ preprocess_graph failing_centrality Nx.empty (Some old)
      = (inl ZeroDivisionError, Some empty_store)
    ∧ nodes_table old = [mkNode "A" "A" 1; mkNode "B" "B" 1]
    ∧ Some empty_store ≠ Some old.
Proof.
  eexists. split; [vm_compute; reflexivity|].
  split; [reflexivity|]. split; [reflexivity|discriminate].
Qed.

(** C2 (as amended).  A run on a graph without nodes fails: the division
    by the number of nodes raises.  The file that was at the path before
    is not kept; the path holds a store with no rows afterwards. *)
Theorem preprocess_graph_empty C G file :
  number_of_nodes G = 0 →
  preprocess_graph C G file = (inl ZeroDivisionError, Some empty_store).
Proof. apply preprocess_graph_with_empty. Qed.

Lemma preprocess_graph_empty_witness :
  preprocess_graph failing_centrality Nx.empty
    (Some (mkStore [mkNode "A" "A" 0] [] ["A"] []))
  = (inl ZeroDivisionError, Some empty_store).
Proof. apply preprocess_graph_empty. reflexivity. Defined.

(** ** [build_graph] and the edge loop (C6) *)


















(** Scenario C runs to the end whatever [json.loads] does: the
    attributes of an excluded record are not decoded. *)
Example build_graph_scenario_C json_loads :
  build_graph json_loads ["A"]
    (JArray [JObject [("node1_id", JString "A"); ("node2_id", JString "Z")]])
  = inr (mkGraph [("A", [])], mkReport 1 0 1).
Proof. vm_compute. reflexivity. Qed.

(** A kept record whose attributes are a number raises, and nothing is
    printed. *)
Example build_graph_attributes_not_text json_loads :
  build_graph json_loads ["A"; "B"]
    (JArray [JObject [("node1_id", JString "A"); ("node2_id", JString "B");
                      ("attributes", JNumber "5")]])
  = inl TypeError.
Proof. vm_compute. reflexivity. Qed.

(** ** The edges of a graph, counted *)

Lemma edges_from_app seen a1 a2 :
  edges_from seen (a1 ++ a2)
  = edges_from seen a1 ++ edges_from (reverse a1.*1 ++ seen) a2.
Proof.
  revert seen. induction a1 as [|[n nbrs] a1 IH]; intros seen; simpl; [done|].
  rewrite IH, <- app_assoc. do 2 f_equal.
  by rewrite reverse_cons, <- app_assoc.
Qed.

Lemma edges_from_ends seen a u v :
  (u, v) ∈ edges_from seen a → u ∈ a.*1 ∧ v ∉ seen.
Proof.
  revert seen. induction a as [|[n nbrs] a IH]; intros seen; simpl.
  - by intros ?%elem_of_nil.
  - intros [Hin|Hin]%elem_of_app.
    + apply list_elem_of_fmap in Hin as (w & [= -> ->] & [Hw _]%list_elem_of_filter).
      split; [apply elem_of_cons; by left|done].
    + apply IH in Hin as [Hu Hv]. split; [apply elem_of_cons; by right|].
      intros ?. apply Hv. apply elem_of_cons; by right.
Qed.

Lemma filter_nil_Forall {A} (P : A → Prop) `{!∀ x, Decision (P x)} (l : list A) :
  Forall (λ x, ¬ P x) l → filter P l = [].
Proof.
  induction 1 as [|x l Hx Hl IH]; [done|].
  by rewrite filter_cons, decide_False.
Qed.

Lemma filter_all_Forall {A} (P : A → Prop) `{!∀ x, Decision (P x)} (l : list A) :
  Forall P l → filter P l = l.
Proof.
  induction 1 as [|x l Hx Hl IH]; [done|].
  by rewrite filter_cons, decide_True, IH.
Qed.

Lemma length_filter_eq_NoDup (n : string) (l : list string) :
  NoDup l → length (filter (λ v, v = n) l) = if decide (n ∈ l) then 1%nat else 0%nat.
Proof.
  induction 1 as [|x l Hx Hl IH]; [done|].
  rewrite filter_cons. destruct (decide (x = n)) as [->|Hne]; simpl; rewrite IH.
  - rewrite decide_False by done. rewrite decide_True by (apply elem_of_cons; by left). done.
  - case_decide as Hn.
    + rewrite decide_True by (apply elem_of_cons; by right). done.
    + rewrite decide_False; [done|]. by intros [?|?]%elem_of_cons.
Qed.

Section edge_count.
Variable n : string.

(** Edges reported once [n] has reported do not touch [n]. *)
Lemma edges_from_after seen a :
  n ∈ seen → n ∉ a.*1 → filter (incident n) (edges_from seen a) = [].
Proof.
  intros Hseen Hkey. apply filter_nil_Forall, Forall_forall.
  intros [u v] [Hu Hv]%edges_from_ends [Heq|Heq]; simpl in Heq; by subst.
Qed.

(** Before [n] reports, each node that lists [n] reports one edge to it. *)
Lemma edges_from_before seen a :
  n ∉ seen → n ∉ a.*1 → Forall (λ e, NoDup e.2) a →
  length (filter (incident n) (edges_from seen a))
  = length (filter (λ e, n ∈ e.2) a).
Proof.
  revert seen. induction a as [|[k nbrs] a IH]; intros seen Hseen Hkey Hnd; [done|].
  simpl. rewrite filter_app, length_app.
  rewrite fmap_cons, not_elem_of_cons in Hkey. destruct Hkey as [Hk Hkey].
  apply Forall_cons in Hnd as [Hnbrs Hnd]. simpl in *.
  rewrite IH; [|by intros [?|?]%elem_of_cons|done..].
  rewrite filter_cons. simpl.
  assert (Hhead : length (filter (incident n) (pair k <$> filter (λ nbr, nbr ∉ seen) nbrs))
                  = if decide (n ∈ nbrs) then 1%nat else 0%nat).
  { transitivity (length (filter (λ v, v = n) (filter (λ nbr, nbr ∉ seen) nbrs))).
    - generalize (filter (λ nbr, nbr ∉ seen) nbrs). intros l.
      induction l as [|x l IHl]; [done|].
      rewrite fmap_cons, !filter_cons. unfold incident at 1. simpl.
      destruct (decide (x = n)) as [->|Hx].
      + rewrite decide_True by by right. simpl. by rewrite IHl.
      + rewrite decide_False by (intros [?|?]; done). done.
    - rewrite length_filter_eq_NoDup by by apply NoDup_filter.
      destruct (decide (n ∈ nbrs)) as [Hin|Hin].
      + rewrite decide_True; [done|]. by apply list_elem_of_filter.
      + rewrite decide_False; [done|]. by intros [_ ?]%list_elem_of_filter. }
  apply (eq_trans (f_equal (λ x, (x + length (filter (λ e, n ∈ e.2) a))%nat) Hhead)).
  case_decide; simpl; lia.
Qed.

(** The edges that touch [n], for [n] at its place in the adjacency. *)
Lemma edges_from_count seen pre nbrs post :
  n ∉ seen → NoDup (pre ++ (n, nbrs) :: post).*1 →
  Forall (λ e, NoDup e.2) pre →
  length (filter (incident n) (edges_from seen (pre ++ (n, nbrs) :: post)))
  = (length (filter (λ e, n ∈ e.2) pre)
     + length (filter (λ v, v ∉ reverse pre.*1 ++ seen) nbrs))%nat.
Proof.
  intros Hseen Hnd Hpre.
  rewrite fmap_app, fmap_cons in Hnd. simpl in Hnd.
  apply NoDup_app in Hnd as (_ & Hdisj & Hnd).
  apply NoDup_cons in Hnd as [Hpost _].
  assert (Hnpre : n ∉ pre.*1).
  { intros Hin. apply (Hdisj _ Hin). apply elem_of_cons; by left. }
  rewrite edges_from_app, filter_app, length_app. simpl.
  rewrite edges_from_before by done. f_equal.
  rewrite filter_app, length_app.
  rewrite edges_from_after; [|apply elem_of_cons; by left|done].
  simpl. rewrite Nat.add_0_r.
  rewrite filter_all_Forall; [by rewrite length_fmap|].
  apply Forall_forall. intros [u v] (w & [= -> ->] & _)%list_elem_of_fmap. by left.
Qed.

(** The loops at [n] among the edges reported. *)
Lemma edges_from_loops seen pre nbrs post :
  n ∉ seen → NoDup (pre ++ (n, nbrs) :: post).*1 → NoDup nbrs →
  length (filter (loop_at n) (edges_from seen (pre ++ (n, nbrs) :: post)))
  = if decide (n ∈ nbrs) then 1%nat else 0%nat.
Proof.
  intros Hseen Hnd Hnbrs.
  rewrite fmap_app, fmap_cons in Hnd. simpl in Hnd.
  apply NoDup_app in Hnd as (_ & Hdisj & Hnd).
  apply NoDup_cons in Hnd as [Hpost _].
  assert (Hnpre : n ∉ pre.*1).
  { intros Hin. apply (Hdisj _ Hin). apply elem_of_cons; by left. }
  rewrite edges_from_app, filter_app, length_app. simpl.
  rewrite (filter_nil_Forall (loop_at n) (edges_from seen pre)); cycle 1.
  { apply Forall_forall. intros [u v] [Hu _]%edges_from_ends [Heq _].
    simpl in Heq. by subst. }
  rewrite filter_app, length_app.
  rewrite (filter_nil_Forall (loop_at n) (edges_from _ post)); cycle 1.
  { apply Forall_forall. intros [u v] [Hu _]%edges_from_ends [Heq _].
    simpl in Heq. by subst. }
  simpl. rewrite Nat.add_0_r.
  set (l := filter (λ nbr, nbr ∉ reverse pre.*1 ++ seen) nbrs).
  assert (Hl : length (filter (loop_at n) (pair n <$> l)) = length (filter (λ v, v = n) l)).
  { clear. induction l as [|x l IH]; [done|].
    rewrite fmap_cons, !filter_cons. unfold loop_at at 1. simpl.
    destruct (decide (x = n)) as [->|Hx].
    - rewrite decide_True by done. simpl. by rewrite IH.
    - rewrite decide_False by (intros [_ ?]; done). done. }
  etrans; [exact Hl|]. unfold l.
  rewrite length_filter_eq_NoDup by by apply NoDup_filter.
  destruct (decide (n ∈ nbrs)) as [Hin|Hin].
  - rewrite decide_True; [done|]. apply list_elem_of_filter. split; [|done].
    rewrite elem_of_app, elem_of_reverse. by intros [?|?].
  - rewrite decide_False; [done|]. by intros [_ ?]%list_elem_of_filter.
Qed.

End edge_count.

Lemma edges_from_keys_NoDup seen a :
  NoDup a.*1 → Forall (λ e, NoDup e.2) a →
  NoDup (stream_key <$> edges_from seen a).
Proof.
  revert seen. induction a as [|[n nbrs] a IH]; intros seen Hkeys Hnbrs; simpl.
  - constructor.
  - rewrite fmap_cons in Hkeys. apply NoDup_cons in Hkeys as [Hn Hkeys].
    apply Forall_cons in Hnbrs as [Hnb Hnbrs]. simpl in *.
    rewrite fmap_app. apply NoDup_app. split; [|split].
    + assert (Hl : NoDup (filter (λ nbr, nbr ∉ seen) nbrs)) by by apply NoDup_filter.
      revert Hl. generalize (filter (λ nbr, nbr ∉ seen) nbrs). intros l Hl.
      change (map (pair n) l) with (pair n <$> l).
      rewrite <- list_fmap_compose. apply NoDup_fmap_2_strong; [|done].
      intros v v' _ _ Heq. simpl in Heq. apply stream_key_eq in Heq.
      destruct Heq as [[_ ?]|[? ?]]; simpl in *; congruence.
    + intros key (e1 & -> & Hin1)%list_elem_of_fmap (e2 & Heq & Hin2)%list_elem_of_fmap.
      apply list_elem_of_fmap in Hin1 as (v & -> & Hv).
      destruct e2 as [u' v']. apply edges_from_ends in Hin2 as [Hu' Hv'].
      apply stream_key_eq in Heq. destruct Heq as [[? ?]|[? ?]]; simpl in *; subst.
      * done.
      * apply Hv'. apply elem_of_cons; by left.
    + by apply IH.
Qed.

Lemma wf_graph_nbrs_NoDup G : wf_graph G → Forall (λ e, NoDup e.2) (adj G).
Proof. intros [_ H]. eapply Forall_impl; [exact H|]. by intros e [? _]. Qed.

Lemma edges_keys_NoDup G : wf_graph G → NoDup (stream_key <$> Nx.edges G).
Proof.
  intros Hwf. apply edges_from_keys_NoDup; [by destruct Hwf|].
  by apply wf_graph_nbrs_NoDup.
Qed.

Lemma first_occurrences_all i stream seen :
  NoDup (stream_key <$> stream) →
  (∀ e, e ∈ stream → stream_key e ∉ seen) →
  first_occurrences i stream seen = indexed_rows i stream.
Proof.
  revert i seen. induction stream as [|e stream IH]; intros i seen Hnd Hseen; [done|].
  cbn [first_occurrences indexed_rows].
  rewrite fmap_cons in Hnd. apply NoDup_cons in Hnd as [He Hnd].
  rewrite bool_decide_eq_false_2 by (apply Hseen, elem_of_cons; by left).
  f_equal. apply IH; [done|].
  intros e' He'. rewrite elem_of_union, elem_of_singleton. intros [Heq|Hin].
  - apply He. rewrite <- Heq. by apply list_elem_of_fmap_2.
  - apply (Hseen e'); [apply elem_of_cons; by right|done].
Qed.

Lemma indexed_rows_incident n i stream :
  length (filter (λ r, touches (escape n) r) (indexed_rows i stream))
  = length (filter (incident n) stream).
Proof.
  revert i. induction stream as [|[u v] stream IH]; intros i; [done|].
  cbn [indexed_rows]. rewrite !filter_cons. simpl.
  assert (Hiff : touches (escape n) (mkEdge i (escape u) (escape v)) ↔ incident n (u, v)).
  { unfold touches, incident. simpl.
    rewrite orb_True, !bool_decide_spec.
    split; (intros [Hx|Hx]; [left|right]);
      first [by apply escape_inj in Hx | by rewrite Hx]. }
  destruct (decide (incident n (u, v))) as [Hinc|Hinc].
  - rewrite decide_True by by apply Hiff. simpl. by rewrite IH.
  - rewrite decide_False by by rewrite Hiff. apply IH.
Qed.

Lemma indexed_rows_loops n i stream :
  length (filter (λ r, e_source r = escape n ∧ e_target r = escape n)
            (indexed_rows i stream))
  = length (filter (loop_at n) stream).
Proof.
  revert i. induction stream as [|[u v] stream IH]; intros i; [done|].
  cbn [indexed_rows]. rewrite !filter_cons. simpl.
  destruct (decide (loop_at n (u, v))) as [[Hu Hv]|Hne]; simpl in *.
  - subst. rewrite decide_True by done. simpl. by rewrite IH.
  - rewrite decide_False; [apply IH|].
    intros [?%escape_inj ?%escape_inj]. by apply Hne.
Qed.

(** In a graph, the edges that touch a node are as many as its
    neighbours. *)
Lemma edges_incident_count G n nbrs :
  wf_graph G → (n, nbrs) ∈ adj G →
  length (filter (incident n) (Nx.edges G)) = length nbrs
  ∧ length (filter (loop_at n) (Nx.edges G)) = (if decide (n ∈ nbrs) then 1 else 0)%nat.
Proof.
  intros Hwf Hin. pose proof Hwf as [Hkeys Hall].
  pose proof (wf_graph_nbrs_NoDup G Hwf) as Hnbrs.
  assert (Hnb : NoDup nbrs).
  { eapply Forall_forall in Hnbrs; [|exact Hin]. done. }
  apply list_elem_of_split in Hin as (pre & post & Hadj).
  unfold Nx.edges, nodes in *. rewrite Hadj in *.
  split; [|by apply edges_from_loops; [apply not_elem_of_nil|..]].
  rewrite edges_from_count; [|apply not_elem_of_nil|done|].
  2:{ by apply Forall_app in Hnbrs as [? _]. }
  rewrite app_nil_r.
  assert (Hperm : (filter (λ e : string * list string, n ∈ e.2) pre).*1
                  ≡ₚ filter (λ v, v ∈ reverse pre.*1) nbrs).
  { apply NoDup_Permutation.
    - rewrite fmap_app in Hkeys. apply NoDup_app in Hkeys as (Hpre & _).
      eapply sublist_NoDup; [exact Hpre|]. apply fmap_sublist, sublist_filter.
    - by apply NoDup_filter.
    - intros x. rewrite list_elem_of_filter, elem_of_reverse. split.
      + intros ([x' nbrs'] & -> & [Hn Hx]%list_elem_of_filter)%list_elem_of_fmap.
        simpl in *. split; [by apply list_elem_of_fmap_2 with (f := fst) in Hx|].
        assert (Hx' : (x', nbrs') ∈ pre ++ (n, nbrs) :: post)
          by (apply elem_of_app; by left).
        eapply Forall_forall in Hall; [|exact Hx']. destruct Hall as [_ Hsym].
        eapply Forall_forall in Hsym; [|exact Hn]. simpl in Hsym.
        assert (Hget : dict_get n (pre ++ (n, nbrs) :: post) = Some nbrs).
        { apply dict_get_elem; [done|]. apply elem_of_app; right.
          apply elem_of_cons; by left. }
        rewrite Hget in Hsym. done.
      + intros [Hx Hxn]. apply list_elem_of_fmap in Hx as ([x' nbrs'] & -> & Hx).
        simpl in *. apply list_elem_of_fmap. exists (x', nbrs'). split; [done|].
        apply list_elem_of_filter. split; [|done]. simpl.
        assert (Hn' : (n, nbrs) ∈ pre ++ (n, nbrs) :: post).
        { apply elem_of_app; right. apply elem_of_cons; by left. }
        eapply Forall_forall in Hall; [|exact Hn']. destruct Hall as [_ Hsym].
        eapply Forall_forall in Hsym; [|exact Hxn]. simpl in Hsym.
        assert (Hget : dict_get x' (pre ++ (n, nbrs) :: post) = Some nbrs').
        { apply dict_get_elem; [done|]. apply elem_of_app; by left. }
        rewrite Hget in Hsym. done. }
  rewrite <- (length_fmap fst), Hperm.
  rewrite <- (Permutation_length (filter_app_complement (λ v, v ∈ reverse pre.*1) nbrs)).
  by rewrite length_app.
Qed.

(** ** The stored degree and the stored edges (C3) *)

(** A loop makes the degree exceed the number of edge rows: the graph with
    the single edge A - A is stored with degree 2 for A and one edge row. *)
Lemma stored_degree_of_loop :
  ∃ db, preprocess_graph failing_centrality (build [AddEdge "A" "A"]) None
        = (inr tt, Some db)
        ∧ nodes_table db = [mkNode "A" "A" 2]
        ∧ edges_table db = [mkEdge 0 "A" "A"]
        ∧ len (filter (λ e, touches "A" e) (edges_table db)) = 1
        ∧ 2 ≠ 1.
Proof.
  eexists. split; [vm_compute; reflexivity|]. by repeat split.
Qed.

(** C3 (as amended).  For every node row of a store built from a graph,
    the degree stored is the number of edge rows that have the node as
    source or target, plus the number of edge rows that are a loop at the
    node, of which there is at most one: the degree is that of the graph,
    where a loop counts twice.  For a node without a loop the degree is
    the number of its edge rows. *)
Theorem stored_degree_counts_loop_twice C G file :
  wf_graph G → nodes G ≠ [] →
  ∃ db, preprocess_graph C G file = (inr tt, Some db)
        ∧ ∀ row, row ∈ nodes_table db →
            n_degree row
            = len (filter (λ e, touches (n_id row) e) (edges_table db))
              + len (filter (λ e, e_source e = n_id row ∧ e_target e = n_id row)
                       (edges_table db))
            ∧ len (filter (λ e, e_source e = n_id row ∧ e_target e = n_id row)
                     (edges_table db)) ≤ 1.
Proof.
  intros Hwf Hne. exists (ingested G). split.
  { apply preprocess_graph_with_ok; [by destruct Hwf|done]. }
  intros row ([n nbrs] & -> & Hin)%list_elem_of_fmap. simpl.
  rewrite first_occurrences_all;
    [|by apply edges_keys_NoDup|intros; apply not_elem_of_empty].
  unfold len. rewrite indexed_rows_incident, indexed_rows_loops.
  destruct (edges_incident_count G n nbrs Hwf Hin) as [-> ->].
  unfold degree_of, len. case_bool_decide; case_decide; try done; lia.
Qed.

Lemma stored_degree_counts_loop_twice_witness :
  ∃ db, preprocess_graph failing_centrality
          (build [AddEdge "A" "B"; AddEdge "B" "C"; AddEdge "C" "C"]) None
        = (inr tt, Some db)
        ∧ ∀ row, row ∈ nodes_table db →
            n_degree row
            = len (filter (λ e, touches (n_id row) e) (edges_table db))
              + len (filter (λ e, e_source e = n_id row ∧ e_target e = n_id row)
                       (edges_table db))
            ∧ len (filter (λ e, e_source e = n_id row ∧ e_target e = n_id row)
                     (edges_table db)) ≤ 1.
Proof.
  apply stored_degree_counts_loop_twice; [apply build_wf|discriminate].
Defined.

(** ** SELECT DISTINCT *)

Lemma distinct_elem `{EqDecision A} (seen l : list A) x :
  x ∈ distinct seen l ↔ x ∈ l ∧ x ∉ seen.
Proof.
  revert seen. induction l as [|y l IH]; intros seen; simpl.
  - split; [by intros ?%elem_of_nil|]. by intros [?%elem_of_nil _].
  - case_bool_decide as Hy.
    + rewrite IH, elem_of_cons. split; [naive_solver|].
      intros [[->|?] ?]; [done|auto].
    + rewrite !elem_of_cons, IH, not_elem_of_cons. split; [naive_solver|].
      intros [[->|?] ?]; [by left|].
      destruct (decide (x = y)) as [->|?]; [by left|by right].
Qed.

Lemma distinct_NoDup `{EqDecision A} (seen l : list A) : NoDup (distinct seen l).
Proof.
  revert seen. induction l as [|y l IH]; intros seen; simpl; [constructor|].
  case_bool_decide; [apply IH|].
  constructor; [|apply IH].
  intros [_ Hy]%distinct_elem. apply Hy. apply elem_of_cons; by left.
Qed.

Lemma distinct_sublist `{EqDecision A} (seen l : list A) : distinct seen l `sublist_of` l.
Proof.
  revert seen. induction l as [|y l IH]; intros seen; simpl; [done|].
  case_bool_decide; [apply sublist_cons|apply sublist_skip]; apply IH.
Qed.

(** ** expand_node (C9) *)

Lemma touches_spec node_id e :
  touches node_id e ↔ e_source e = node_id ∨ e_target e = node_id.
Proof. unfold touches. by rewrite orb_True, !bool_decide_spec. Qed.

Lemma neighbor_ids_elem db node_id x :
  x ∈ neighbor_ids db node_id ↔
  ∃ e, e ∈ edges_table db ∧ touches node_id e ∧ other_endpoint node_id e = x.
Proof.
  unfold neighbor_ids. rewrite distinct_elem, list_elem_of_fmap.
  split.
  - intros [(e & -> & [? ?]%list_elem_of_filter) _]. by exists e.
  - intros (e & ? & ? & <-). split; [|apply not_elem_of_nil].
    exists e. split; [done|]. by apply list_elem_of_filter.
Qed.

(** For the store of the graph A - B the answer for A holds the rows of A
    and of B, while B is the only neighbour of A. *)
Lemma expand_node_returns_center :
  ∃ db, preprocess_graph failing_centrality (build [AddEdge "A" "B"]) None
        = (inr tt, Some db)
        ∧ (expand_node db "A").1 = [mkNode "A" "A" 1; mkNode "B" "B" 1]
        ∧ neighbor_ids db "A" = ["B"]
        ∧ "A" ∉ neighbor_ids db "A".
Proof.
  eexists. split; [vm_compute; reflexivity|].
  split; [reflexivity|]. split; [reflexivity|].
  intros Hin. apply (bool_decide_pack _) in Hin. vm_compute in Hin. done.
Qed.

(** C9 (as amended).  For every store and every node id, the answer of
    [expand_node] holds, each once and with no bound on their number,
    the edge rows that have the id as source or target, and the node
    rows of the neighbours of the id together with the node row of the
    id itself when at least one edge row touches it. *)
Theorem expand_node_closed_neighborhood db node_id :
  NoDup (expand_node db node_id).1
  ∧ NoDup (expand_node db node_id).2
  ∧ (∀ e, e ∈ (expand_node db node_id).2 ↔
          e ∈ edges_table db ∧ (e_source e = node_id ∨ e_target e = node_id))
  ∧ (∀ n, n ∈ (expand_node db node_id).1 ↔
          n ∈ nodes_table db
          ∧ (n_id n ∈ neighbor_ids db node_id
             ∨ (n_id n = node_id ∧ ∃ e, e ∈ (expand_node db node_id).2))).
Proof.
  unfold expand_node. simpl. split; [apply distinct_NoDup|].
  split; [apply distinct_NoDup|].
  assert (Hedges : ∀ e, e ∈ distinct [] (filter (λ e, touches node_id e) (edges_table db)) ↔
                        e ∈ edges_table db ∧ (e_source e = node_id ∨ e_target e = node_id)).
  { intros e. rewrite distinct_elem, list_elem_of_filter, touches_spec.
    split; [by intros [[? ?] _]|]. intros [? ?]. split; [done|apply not_elem_of_nil]. }
  split; [done|].
  intros n. rewrite distinct_elem, list_elem_of_bind. split.
  - intros [(n' & Hn & Hn') _].
    apply list_elem_of_bind in Hn as (e & He & Hin).
    destruct (_ && _) eqn:Hcond in He; [|by apply elem_of_nil in He].
    apply list_elem_of_singleton in He as ->.
    apply andb_true_iff in Hcond as [Hend Ht].
    apply orb_true_iff in Hend. rewrite !bool_decide_eq_true in Hend.
    apply Is_true_true in Ht. split; [done|].
    pose proof Ht as Ht'. apply touches_spec in Ht'.
    destruct (decide (n_id n' = other_endpoint node_id e)) as [Heq|Hne].
    + left. apply neighbor_ids_elem. by exists e.
    + right. split.
      * unfold other_endpoint in Hne. case_bool_decide; destruct Hend, Ht'; congruence.
      * exists e. by apply Hedges.
  - intros [Hn Hcase]. split; [|apply not_elem_of_nil].
    exists n. split; [|done].
    assert (He : ∃ e, e ∈ edges_table db ∧ touches node_id e
                      ∧ (n_id n = e_target e ∨ n_id n = e_source e)).
    { destruct Hcase as [(e & He & Ht & Ho)%neighbor_ids_elem|[Hid (e & He)]].
      - exists e. split; [done|]. split; [done|].
        unfold other_endpoint in Ho. case_bool_decide; subst; auto.
      - apply Hedges in He as [He Ht]. exists e. split; [done|].
        split; [by apply touches_spec|]. destruct Ht; subst; auto. }
    destruct He as (e & He & Ht & Hend).
    apply list_elem_of_bind. exists e. split; [|done].
    rewrite (Is_true_true_1 _ Ht), andb_true_r.
    assert (Hb : bool_decide (n_id n = e_target e) || bool_decide (n_id n = e_source e) = true).
    { apply orb_true_iff. rewrite !bool_decide_eq_true. done. }
    rewrite Hb. apply list_elem_of_singleton. done.
Qed.

(** ** LIKE (C4) *)

Lemma string_app_cons x (a b : string) : (String x a ++ b = String x (a ++ b))%string.
Proof. reflexivity. Qed.

Lemma string_app_nil_l (a : string) : ("" ++ a = a)%string.
Proof. reflexivity. Qed.

Lemma string_app_nil_r (a : string) : (a ++ "" = a)%string.
Proof.
  induction a as [|x a IH]; [done|]. by rewrite string_app_cons, IH.
Qed.

Lemma like_empty text : like "" text = true ↔ text = "".
Proof. by destruct text. Qed.

Lemma like_percent rest text :
  like (String "%" rest) text = true ↔
  ∃ pre text', text = (pre ++ text')%string ∧ like rest text' = true.
Proof.
  cbn [like]. rewrite Ascii.eqb_refl.
  induction text as [|c text IH].
  - rewrite orb_false_r. split.
    + intros H. by exists "", "".
    + intros ([|? ?] & text' & Heq & H); [|done].
      rewrite string_app_nil_l in Heq. by subst.
  - rewrite orb_true_iff, IH. split.
    + intros [H|(pre & text' & -> & H)].
      * by exists "", (String c text).
      * by exists (String c pre), text'.
    + intros ([|d pre] & text' & Heq & H).
      * rewrite string_app_nil_l in Heq. subst. by left.
      * rewrite string_app_cons in Heq. injection Heq as -> ->.
        right. by exists pre, text'.
Qed.

Lemma like_literal q rest text :
  no_wildcard q →
  like (q ++ rest)%string text = true ↔
  ∃ mid text', text = (mid ++ text')%string
               ∧ fold_case mid = fold_case q ∧ like rest text' = true.
Proof.
  revert text. induction q as [|c q IH]; intros text Hq.
  - rewrite string_app_nil_l. split.
    + intros H. by exists "", text.
    + intros ([|? ?] & text' & -> & Hf & H); [done|discriminate].
  - destruct Hq as (Hp & Hu & Hq). rewrite string_app_cons. cbn [like].
    rewrite (proj2 (Ascii.eqb_neq _ _) Hp), (proj2 (Ascii.eqb_neq _ _) Hu).
    destruct text as [|t text].
    + split; [done|]. intros ([|? ?] & text' & Heq & Hf & _); discriminate.
    + rewrite andb_true_iff, Ascii.eqb_eq, IH by done. split.
      * intros [Hc (mid & text' & -> & Hf & H)].
        exists (String t mid), text'. rewrite string_app_cons. simpl.
        by rewrite Hf, Hc.
      * intros ([|m mid] & text' & Heq & Hf & H); [discriminate|].
        rewrite string_app_cons in Heq. simpl in Hf.
        injection Heq as -> ->. injection Hf as Hc Hf.
        split; [done|]. by exists mid, text'.
Qed.

(** A query without wildcards is matched as a substring, up to ASCII
    case. *)
Lemma like_substring q text :
  no_wildcard q →
  like ("%" ++ q ++ "%")%string text = true ↔
  ∃ pre mid post, text = (pre ++ mid ++ post)%string ∧ fold_case mid = fold_case q.
Proof.
  intros Hq. change ("%" ++ q ++ "%")%string with (String "%" (q ++ "%")).
  rewrite like_percent. split.
  - intros (pre & text' & -> & (mid & post & -> & Hf & _)%like_literal); [|done].
    by exists pre, mid, post.
  - intros (pre & mid & post & -> & Hf). exists pre, (mid ++ post)%string.
    split; [done|]. apply like_literal; [done|]. exists mid, post.
    split; [done|]. split; [done|].
    apply like_percent. exists post, "". by rewrite string_app_nil_r.
Qed.

(** The label AB is found by the query ab, of which it has no
    occurrence. *)
Lemma search_matches_ignores_case :
  search_nodes (mkStore [mkNode "AB" "AB" 0] [] [] []) "ab" = [mkNode "AB" "AB" 0]
  ∧ ¬ (∃ pre post, "AB" = (pre ++ "ab" ++ post)%string).
Proof.
  split; [reflexivity|].
  intros (pre & post & Heq).
  destruct pre as [|? [|? [|? ?]]]; discriminate.
Qed.

Lemma order_by_degree_desc_with_perm scan rows :
  (∀ rows, scan rows ≡ₚ rows) → order_by_degree_desc_with scan rows ≡ₚ rows.
Proof.
  intros Hscan. unfold order_by_degree_desc_with.
  by rewrite (sorted_reverse_perm n_degree), Hscan.
Qed.

Lemma search_candidates_with_elem scan db query n :
  (∀ rows, scan rows ≡ₚ rows) →
  n ∈ search_candidates_with scan db query ↔
  n ∈ nodes_table db ∧ search_matches query n.
Proof.
  intros Hscan. unfold search_candidates_with.
  rewrite distinct_elem, order_by_degree_desc_with_perm, list_elem_of_filter by done.
  split; [by intros [[? ?] _]|]. intros [? ?]. split; [done|apply not_elem_of_nil].
Qed.

Lemma search_nodes_with_long scan db query :
  2 ≤ Z.of_nat (String.length query) →
  search_nodes_with scan db query = take 10 (search_candidates_with scan db query).
Proof.
  intros Hlen. unfold search_nodes_with.
  rewrite bool_decide_eq_false_2 by (intros ->; simpl in Hlen; lia).
  by rewrite (proj2 (Z.ltb_ge _ _) Hlen).
Qed.

Lemma search_candidates_elem db query n :
  n ∈ search_candidates db query ↔ n ∈ nodes_table db ∧ search_matches query n.
Proof.
  apply search_candidates_with_elem. intros rows. apply reverse_Permutation.
Qed.

Lemma search_nodes_long db query :
  2 ≤ Z.of_nat (String.length query) →
  search_nodes db query = take 10 (search_candidates db query).
Proof. apply search_nodes_with_long. Qed.

(** C4 (as amended).  For a query of two characters or more the rows
    that [search_nodes] ranks, and of which it returns the first ten, are
    exactly the node rows whose label matches the LIKE pattern made of the
    query between two [%].  For a query without [%] and [_] these are the
    rows whose label has the query as a substring up to the case of ASCII
    letters. *)
Theorem search_matches_like db query :
  2 ≤ Z.of_nat (String.length query) →
  search_nodes db query = take 10 (search_candidates db query)
  ∧ (∀ n, n ∈ search_candidates db query ↔
          n ∈ nodes_table db ∧ like ("%" ++ query ++ "%")%string (n_label n) = true)
  ∧ (no_wildcard query →
     ∀ n, n ∈ search_candidates db query ↔
          n ∈ nodes_table db
          ∧ ∃ pre mid post, n_label n = (pre ++ mid ++ post)%string
                            ∧ fold_case mid = fold_case query).
Proof.
  intros Hlen. split; [by apply search_nodes_long|].
  assert (Hm : ∀ n, n ∈ search_candidates db query ↔
                    n ∈ nodes_table db ∧ like ("%" ++ query ++ "%")%string (n_label n) = true).
  { intros n. rewrite search_candidates_elem. unfold search_matches.
    by rewrite Is_true_true. }
  split; [done|].
  intros Hq n. by rewrite Hm, like_substring.
Qed.

Lemma search_matches_like_witness :
  search_nodes (mkStore [mkNode "n1" "Alpha" 3; mkNode "n2" "beta" 1] [] [] []) "LP"
  = take 10 (search_candidates
               (mkStore [mkNode "n1" "Alpha" 3; mkNode "n2" "beta" 1] [] [] []) "LP")
  ∧ (∀ n, n ∈ search_candidates
                (mkStore [mkNode "n1" "Alpha" 3; mkNode "n2" "beta" 1] [] [] []) "LP" ↔
          n ∈ nodes_table (mkStore [mkNode "n1" "Alpha" 3; mkNode "n2" "beta" 1] [] [] [])
          ∧ like ("%" ++ "LP" ++ "%")%string (n_label n) = true)
  ∧ (no_wildcard "LP" →
     ∀ n, n ∈ search_candidates
                (mkStore [mkNode "n1" "Alpha" 3; mkNode "n2" "beta" 1] [] [] []) "LP" ↔
          n ∈ nodes_table (mkStore [mkNode "n1" "Alpha" 3; mkNode "n2" "beta" 1] [] [] [])
          ∧ ∃ pre mid post, n_label n = (pre ++ mid ++ post)%string
                            ∧ fold_case mid = fold_case "LP").
Proof. apply search_matches_like. simpl. lia. Defined.

(** ** The order of the search results (C8) *)

Lemma search_candidates_with_sorted scan db query :
  StronglySorted (λ a b, n_degree b ≤ n_degree a) (search_candidates_with scan db query).
Proof.
  unfold search_candidates_with, order_by_degree_desc_with.
  eapply StronglySorted_sublist; [|apply distinct_sublist].
  apply (sorted_reverse_sorted n_degree).
Qed.

(** Rows of one degree come out in the order in which the engine visits
    them. *)
Lemma search_candidates_with_ties scan db query a b :
  [a; b] `sublist_of` search_candidates_with scan db query →
  n_degree a = n_degree b →
  [a; b] `sublist_of` scan (filter (λ n, search_matches query n) (nodes_table db)).
Proof.
  intros Hsub Hdeg. unfold search_candidates_with, order_by_degree_desc_with in Hsub.
  assert (Hs : [a; b] `sublist_of`
               sorted_reverse (λ x y, n_degree x <? n_degree y)
                 (scan (filter (λ n, search_matches query n) (nodes_table db))))
    by (etrans; [exact Hsub|apply distinct_sublist]).
  apply (filter_sublist_mono (λ x, n_degree x = n_degree a)) in Hs.
  rewrite (sorted_reverse_stable n_degree) in Hs.
  rewrite !filter_cons, filter_nil in Hs.
  rewrite decide_True in Hs by done. rewrite decide_True in Hs by done.
  etrans; [exact Hs|]. apply sublist_filter.
Qed.

Lemma distinct_length_perm `{EqDecision A} (l1 l2 : list A) :
  l1 ≡ₚ l2 → length (distinct [] l1) = length (distinct [] l2).
Proof.
  intros Hp. apply Permutation_length, NoDup_Permutation; [apply distinct_NoDup..|].
  intros x. rewrite !distinct_elem. by rewrite Hp.
Qed.

Lemma search_candidates_with_length scan db query :
  (∀ rows, scan rows ≡ₚ rows) →
  length (search_candidates_with scan db query)
  = length (distinct [] (filter (λ n, search_matches query n) (nodes_table db))).
Proof.
  intros Hscan. apply distinct_length_perm. by apply order_by_degree_desc_with_perm.
Qed.

(** Three nodes of degree 2 enter the store in the order kkb, kka, kkc.
    The search for kk returns them as kkc, kka, kkb when the engine
    walks the index of the degrees backwards, and as kkb, kka, kkc when
    it visits them in table order: neither is by ascending id. *)
Lemma search_nodes_ties_not_by_id :
  ∃ db, preprocess_graph failing_centrality
          (build [AddEdge "kkb" "kka"; AddEdge "kkc" "kkb"; AddEdge "kka" "kkc"]) None
        = (inr tt, Some db)
        ∧ search_nodes db "kk"
          = [mkNode "kkc" "kkc" 2; mkNode "kka" "kka" 2; mkNode "kkb" "kkb" 2]
        ∧ search_nodes_with (λ rows, rows) db "kk"
          = [mkNode "kkb" "kkb" 2; mkNode "kka" "kka" 2; mkNode "kkc" "kkc" 2]
        ∧ String.ltb "kka" "kkc" = true
        ∧ String.ltb "kka" "kkb" = true.
Proof.
  eexists. split; [vm_compute; reflexivity|]. repeat split; reflexivity.
Qed.

(** C8 (as amended).  For a query of two characters or more [search_nodes]
    returns the matching rows of greatest degree in descending order of
    degree: each row once, ten rows or all matching rows when there are
    fewer, and no matching row left out has a greater degree than a row
    returned.  The query names no second sort key: rows of equal degree
    are not ordered by id, they come in the order in which the engine
    visits them, whichever that is. *)
Theorem search_nodes_by_degree scan db query :
  (∀ rows, scan rows ≡ₚ rows) →
  2 ≤ Z.of_nat (String.length query) →
  NoDup (search_nodes_with scan db query)
  ∧ len (search_nodes_with scan db query)
    = Z.min 10 (len (distinct [] (filter (λ n, search_matches query n) (nodes_table db))))
  ∧ (∀ n, n ∈ search_nodes_with scan db query →
          n ∈ nodes_table db ∧ search_matches query n)
  ∧ StronglySorted (λ a b, n_degree b ≤ n_degree a) (search_nodes_with scan db query)
  ∧ (∀ n a, n ∈ nodes_table db → search_matches query n →
            n ∉ search_nodes_with scan db query →
            a ∈ search_nodes_with scan db query →
            n_degree n ≤ n_degree a)
  ∧ (∀ i j a b,
       (i < j)%nat →
       search_nodes_with scan db query !! i = Some a →
       search_nodes_with scan db query !! j = Some b →
       n_degree a = n_degree b →
       [a; b] `sublist_of` scan (filter (λ n, search_matches query n) (nodes_table db))).
Proof.
  intros Hscan Hlen. rewrite search_nodes_with_long by done.
  pose proof (search_candidates_with_sorted scan db query) as Hsorted.
  split; [eapply sublist_NoDup; [apply distinct_NoDup|apply sublist_take]|].
  split.
  { unfold len. rewrite length_take, search_candidates_with_length by done. lia. }
  split.
  { intros n Hn. apply (search_candidates_with_elem scan); [done|].
    eapply elem_of_sublist; [exact Hn|apply sublist_take]. }
  split; [eapply StronglySorted_sublist; [exact Hsorted|apply sublist_take]|].
  split.
  - intros n a Hn Hm Hout Ha.
    assert (Hc : n ∈ search_candidates_with scan db query)
      by (by apply search_candidates_with_elem).
    apply list_elem_of_lookup in Hc as [j Hj], Ha as [i Hi].
    apply lookup_take_Some in Hi as [Hi Hi10].
    destruct (decide (j < 10)%nat) as [Hj10|Hj10].
    { destruct Hout. apply elem_of_take. by exists j. }
    assert (Hij : (i < j)%nat) by lia.
    pose proof (sublist_pair_lookup _ _ _ _ _ Hij Hi Hj) as Hsub.
    pose proof (StronglySorted_sublist _ _ _ Hsorted Hsub) as Hs.
    apply StronglySorted_inv in Hs as [_ Hall].
    by apply Forall_cons in Hall as [H _].
  - intros i j a b Hij Hi Hj Hdeg.
    pose proof (sublist_pair_lookup _ _ _ _ _ Hij Hi Hj) as Hsub.
    apply (search_candidates_with_ties scan db query); [|done].
    etrans; [exact Hsub|apply sublist_take].
Qed.

(** Two rows of degree 2 and one of degree 5, the engine walking the
    index of the degrees backwards. *)
Lemma search_nodes_by_degree_witness :
  NoDup (search_nodes_with reverse
           (mkStore [mkNode "ab1" "ab1" 2; mkNode "ab2" "ab2" 2; mkNode "ab3" "ab3" 5]
              [] [] []) "ab")
  ∧ len (search_nodes_with reverse
           (mkStore [mkNode "ab1" "ab1" 2; mkNode "ab2" "ab2" 2; mkNode "ab3" "ab3" 5]
              [] [] []) "ab")
    = Z.min 10 (len (distinct [] (filter (λ n, search_matches "ab" n)
                      (nodes_table
                         (mkStore [mkNode "ab1" "ab1" 2; mkNode "ab2" "ab2" 2;
                                   mkNode "ab3" "ab3" 5] [] [] [])))))
  ∧ (∀ n, n ∈ search_nodes_with reverse
                (mkStore [mkNode "ab1" "ab1" 2; mkNode "ab2" "ab2" 2; mkNode "ab3" "ab3" 5]
                   [] [] []) "ab" →
          n ∈ nodes_table
                (mkStore [mkNode "ab1" "ab1" 2; mkNode "ab2" "ab2" 2; mkNode "ab3" "ab3" 5]
                   [] [] [])
          ∧ search_matches "ab" n)
  ∧ StronglySorted (λ a b, n_degree b ≤ n_degree a)
      (search_nodes_with reverse
         (mkStore [mkNode "ab1" "ab1" 2; mkNode "ab2" "ab2" 2; mkNode "ab3" "ab3" 5]
            [] [] []) "ab")
  ∧ (∀ n a,
       n ∈ nodes_table
             (mkStore [mkNode "ab1" "ab1" 2; mkNode "ab2" "ab2" 2; mkNode "ab3" "ab3" 5]
                [] [] []) →
       search_matches "ab" n →
       n ∉ search_nodes_with reverse
             (mkStore [mkNode "ab1" "ab1" 2; mkNode "ab2" "ab2" 2; mkNode "ab3" "ab3" 5]
                [] [] []) "ab" →
       a ∈ search_nodes_with reverse
             (mkStore [mkNode "ab1" "ab1" 2; mkNode "ab2" "ab2" 2; mkNode "ab3" "ab3" 5]
                [] [] []) "ab" →
       n_degree n ≤ n_degree a)
  ∧ (∀ i j a b,
       (i < j)%nat →
       search_nodes_with reverse
         (mkStore [mkNode "ab1" "ab1" 2; mkNode "ab2" "ab2" 2; mkNode "ab3" "ab3" 5]
            [] [] []) "ab" !! i = Some a →
       search_nodes_with reverse
         (mkStore [mkNode "ab1" "ab1" 2; mkNode "ab2" "ab2" 2; mkNode "ab3" "ab3" 5]
            [] [] []) "ab" !! j = Some b →
       n_degree a = n_degree b →
       [a; b] `sublist_of`
       reverse (filter (λ n, search_matches "ab" n)
                  (nodes_table
                     (mkStore [mkNode "ab1" "ab1" 2; mkNode "ab2" "ab2" 2;
                               mkNode "ab3" "ab3" 5] [] [] [])))).
Proof.
  apply search_nodes_by_degree.
  - intros rows. apply reverse_Permutation.
  - simpl. lia.
Defined.

(** The answer to the search above, with the two rows of degree 2 in the
    reverse of their order in the table. *)
Example search_nodes_tie :
  search_nodes
    (mkStore [mkNode "ab1" "ab1" 2; mkNode "ab2" "ab2" 2; mkNode "ab3" "ab3" 5] [] [] [])
    "ab"
  = [mkNode "ab3" "ab3" 5; mkNode "ab2" "ab2" 2; mkNode "ab1" "ab1" 2].
Proof. reflexivity. Qed.

(** * Further properties of the ingestion and of the queries *)

(** ** The tables of a graph *)

Lemma indexed_rows_length i stream : length (indexed_rows i stream) = length stream.
Proof.
  revert i. induction stream as [|e stream IH]; intros i; [done|].
  cbn [indexed_rows length]. by rewrite IH.
Qed.

Lemma indexed_rows_lookup i stream k :
  indexed_rows i stream !! k
  = (λ e, mkEdge (i + Z.of_nat k) (escape e.1) (escape e.2)) <$> stream !! k.
Proof.
  revert i k. induction stream as [|e stream IH]; intros i k; [done|].
  cbn [indexed_rows]. destruct k as [|k]; simpl.
  - by rewrite Z.add_0_r.
  - rewrite IH. destruct (stream !! k); simpl; [|done].
    do 2 f_equal. lia.
Qed.

Lemma indexed_rows_elem i stream r :
  r ∈ indexed_rows i stream →
  ∃ e, e ∈ stream ∧ e_source r = escape e.1 ∧ e_target r = escape e.2.
Proof.
  intros (k & Hk)%list_elem_of_lookup. rewrite indexed_rows_lookup in Hk.
  destruct (stream !! k) as [e|] eqn:He; [|done]. injection Hk as <-.
  exists e. split; [by eapply list_elem_of_lookup_2|done].
Qed.

Lemma elem_indexed_rows i stream e :
  e ∈ stream →
  ∃ r, r ∈ indexed_rows i stream ∧ e_source r = escape e.1 ∧ e_target r = escape e.2.
Proof.
  intros (k & Hk)%list_elem_of_lookup.
  exists (mkEdge (i + Z.of_nat k) (escape e.1) (escape e.2)). split; [|done].
  apply list_elem_of_lookup. exists k. by rewrite indexed_rows_lookup, Hk.
Qed.

(** On the edges of a graph the duplicate check of the edge loop never
    fires. *)
Lemma ingested_edges G :
  wf_graph G → edges_table (ingested G) = indexed_rows 0 (Nx.edges G).
Proof.
  intros Hwf. simpl. apply first_occurrences_all; [by apply edges_keys_NoDup|].
  intros e _. apply not_elem_of_empty.
Qed.

Lemma preprocess_graph_ingested C G file :
  wf_graph G → nodes G ≠ [] →
  preprocess_graph C G file = (inr tt, Some (ingested G)).
Proof. intros [Hnd _] Hne. by apply preprocess_graph_with_ok. Qed.

Lemma by_degree_elem G top_n n : n ∈ by_degree G top_n → n ∈ nodes G.
Proof.
  rewrite by_degree_ranking. intros Hn.
  destruct (slice_to_prefix (ranking G) top_n) as [k Hk].
  rewrite <- degree_items_fst, <- (fmap_Permutation fst _ _ (ranking_perm G)).
  rewrite Hk, fmap_app. apply elem_of_app. by left.
Qed.

Lemma by_degree_length G top_n :
  0 ≤ top_n → len (by_degree G top_n) = Z.min top_n (number_of_nodes G).
Proof.
  intros Hn. unfold by_degree, top_nodes, len. rewrite length_fmap.
  pose proof (slice_to_length
                (sorted_reverse (λ x y : string * Z, x.2 <? y.2) (degree_items G))
                top_n Hn) as Hlen.
  unfold len in Hlen. rewrite Hlen, sorted_reverse_length.
  unfold degree_items, number_of_nodes, len. by rewrite length_map.
Qed.

(** Every pair reported by [G.edges()] is found by walking the adjacency
    up to its first node. *)
Lemma edges_from_elem_iff seen a u v :
  (u, v) ∈ edges_from seen a ↔
  ∃ pre nbrs post, a = pre ++ (u, nbrs) :: post ∧ v ∈ nbrs ∧ (v ∉ seen) ∧ (v ∉ pre.*1).
Proof.
  revert seen. induction a as [|[n nb] rest IH]; intros seen.
  - simpl. split; [by intros ?%elem_of_nil|].
    intros (pre & nbrs & post & Heq & _). by destruct pre.
  - cbn [edges_from]. rewrite elem_of_app, IH. split.
    + intros [Hin|(pre & nbrs & post & -> & Hv & Hseen & Hpre)].
      * apply list_elem_of_fmap in Hin as (w & [= -> ->] & [Hw Hin]%list_elem_of_filter).
        exists [], nb, rest. repeat split; [done..|apply not_elem_of_nil].
      * apply not_elem_of_cons in Hseen as [Hvn Hseen].
        exists ((n, nb) :: pre), nbrs, post. repeat split; [done..|].
        rewrite fmap_cons. apply not_elem_of_cons. done.
    + intros (pre & nbrs & post & Heq & Hv & Hseen & Hpre).
      destruct pre as [|p pre]; simplify_eq/=.
      * left. apply list_elem_of_fmap. exists v. split; [done|].
        by apply list_elem_of_filter.
      * right. apply not_elem_of_cons in Hpre as [Hvn Hpre].
        exists pre, nbrs, post. repeat split; [done| |done].
        apply not_elem_of_cons. done.
Qed.

Lemma wf_adjacent_sym G u v : wf_graph G → adjacent G u v → adjacent G v u.
Proof.
  intros Hwf%wf_graph_lookup (nbrs & Hget & Hv).
  destruct Hwf as [_ Hall]. destruct (Hall u nbrs Hget) as [_ Hsym]. by apply Hsym.
Qed.

Lemma edges_adjacent G u v :
  wf_graph G → adjacent G u v ↔ (u, v) ∈ Nx.edges G ∨ (v, u) ∈ Nx.edges G.
Proof.
  intros Hwf. pose proof Hwf as [Hnd _].
  assert (Hedge : ∀ a b, (a, b) ∈ Nx.edges G → adjacent G a b).
  { intros a b (nbrs & Hin & Hb)%edges_from_elem. exists nbrs. split; [|done].
    by apply dict_get_elem. }
  split.
  - intros Huv. pose proof (wf_adjacent_sym G u v Hwf Huv) as Hvu.
    destruct Huv as (nu & Hu & Hv). destruct Hvu as (nv & Hv' & Hu').
    apply dict_get_Some, list_elem_of_split in Hu as (pre & post & Hadj).
    destruct (decide (v ∈ pre.*1)) as [Hin|Hout].
    + right. apply dict_get_Some in Hv'. rewrite Hadj in Hv'.
      apply elem_of_app in Hv' as [Hv'|Hv'].
      * apply list_elem_of_split in Hv' as (p1 & p2 & ->).
        apply edges_from_elem_iff. exists p1, nv, (p2 ++ (u, nu) :: post).
        split; [by rewrite Hadj, <- app_assoc|]. split; [done|].
        split; [apply not_elem_of_nil|].
        unfold nodes in Hnd. rewrite Hadj, !fmap_app, !fmap_cons in Hnd. simpl in Hnd.
        rewrite <- app_assoc in Hnd. apply NoDup_app in Hnd as (_ & Hdisj & _).
        intros Hup. apply (Hdisj u Hup). apply elem_of_cons. right.
        apply elem_of_app. right. apply elem_of_cons. by left.
      * exfalso. unfold nodes in Hnd. rewrite Hadj, fmap_app in Hnd.
        apply NoDup_app in Hnd as (_ & Hdisj & _). apply (Hdisj v Hin).
        by apply (list_elem_of_fmap_2 fst) in Hv'.
    + left. apply edges_from_elem_iff. exists pre, nu, post.
      repeat split; [done..|apply not_elem_of_nil|done].
  - intros [H|H]; [by apply Hedge|]. apply wf_adjacent_sym; [done|]. by apply Hedge.
Qed.

(** X1.  A run of [preprocess_graph] on a graph with at least one node
    succeeds and leaves one node row per node, in the order of the nodes,
    with the escaped name as id and as label; no id comes twice.  The
    table of important nodes holds [min(50, len(G))] ids, none twice, and
    every one of them is the id of a node row. *)
Theorem preprocess_graph_node_tables C G file :
  wf_graph G → nodes G ≠ [] →
  ∃ db, preprocess_graph C G file = (inr tt, Some db)
        ∧ n_id <$> nodes_table db = escape <$> nodes G
        ∧ NoDup (n_id <$> nodes_table db)
        ∧ (∀ row, row ∈ nodes_table db → n_label row = n_id row)
        ∧ NoDup (important_nodes_table db)
        ∧ (∀ i, i ∈ important_nodes_table db → i ∈ n_id <$> nodes_table db)
        ∧ len (important_nodes_table db) = Z.min 50 (number_of_nodes G).
Proof.
  intros Hwf Hne. exists (ingested G). pose proof Hwf as [Hnd _].
  split; [by apply preprocess_graph_ingested|]. simpl.
  split; [apply node_rows_ids|].
  split; [by apply node_rows_ids_NoDup|].
  split; [by intros row (e & -> & _)%list_elem_of_fmap|].
  split; [apply (NoDup_fmap_2 escape); by apply by_degree_NoDup|].
  split.
  - intros i (n & -> & Hn%by_degree_elem)%list_elem_of_fmap.
    rewrite node_rows_ids. by apply list_elem_of_fmap_2.
  - unfold len. rewrite length_fmap. by apply (by_degree_length G 50).
Qed.

Lemma preprocess_graph_node_tables_witness :
  ∃ db, preprocess_graph failing_centrality
          (build [AddEdge "it's" "B"; AddEdge "B" "C"]) None
        = (inr tt, Some db)
        ∧ n_id <$> nodes_table db
          = escape <$> nodes (build [AddEdge "it's" "B"; AddEdge "B" "C"])
        ∧ NoDup (n_id <$> nodes_table db)
        ∧ (∀ row, row ∈ nodes_table db → n_label row = n_id row)
        ∧ NoDup (important_nodes_table db)
        ∧ (∀ i, i ∈ important_nodes_table db → i ∈ n_id <$> nodes_table db)
        ∧ len (important_nodes_table db)
          = Z.min 50 (number_of_nodes (build [AddEdge "it's" "B"; AddEdge "B" "C"])).
Proof.
  apply preprocess_graph_node_tables; [apply build_wf|discriminate].
Defined.

(** ** The rows of a stream in which a pair may come twice *)

Lemma first_occurrences_length_le i stream seen :
  (length (first_occurrences i stream seen) ≤ length stream)%nat.
Proof.
  revert i seen. induction stream as [|e stream IH]; intros i seen; [done|].
  cbn [first_occurrences]. case_bool_decide; cbn [length].
  - specialize (IH (i + 1) seen). lia.
  - specialize (IH (i + 1) ({[stream_key e]} ∪ seen)). lia.
Qed.

Lemma first_occurrences_length_seen i stream seen e :
  e ∈ stream → stream_key e ∈ seen →
  (length (first_occurrences i stream seen) < length stream)%nat.
Proof.
  revert i seen. induction stream as [|e0 stream IH]; intros i seen He Hseen.
  - by apply elem_of_nil in He.
  - cbn [first_occurrences]. case_bool_decide as H0; cbn [length].
    + pose proof (first_occurrences_length_le (i + 1) stream seen). lia.
    + apply elem_of_cons in He as [->|He]; [done|].
      specialize (IH (i + 1) ({[stream_key e0]} ∪ seen) He).
      apply Nat.succ_lt_mono in IH; [done|]. apply elem_of_union. by right.
Qed.

Lemma first_occurrences_length_dup i stream seen :
  ¬ NoDup (stream_key <$> stream) →
  (length (first_occurrences i stream seen) < length stream)%nat.
Proof.
  revert i seen. induction stream as [|e stream IH]; intros i seen Hdup.
  - destruct Hdup. constructor.
  - cbn [first_occurrences]. case_bool_decide as He; cbn [length].
    + pose proof (first_occurrences_length_le (i + 1) stream seen). lia.
    + apply -> Nat.succ_lt_mono.
      destruct (decide (stream_key e ∈ stream_key <$> stream)) as [Hin|Hin].
      * apply list_elem_of_fmap in Hin as (e' & Hkey & He').
        apply (first_occurrences_length_seen _ _ _ e'); [done|].
        apply elem_of_union. left. apply elem_of_singleton. by rewrite Hkey.
      * apply IH. intros Hnd. apply Hdup. rewrite fmap_cons.
        by apply NoDup_cons.
Qed.

(** The duplicate check drops nothing exactly when no unordered pair
    comes twice. *)
Lemma first_occurrences_length stream :
  length (first_occurrences 0 stream ∅) = length stream ↔
  NoDup (stream_key <$> stream).
Proof.
  split.
  - intros Hlen. destruct (decide (NoDup (stream_key <$> stream))) as [|Hdup]; [done|].
    pose proof (first_occurrences_length_dup 0 stream ∅ Hdup). lia.
  - intros Hnd. rewrite first_occurrences_all; [apply indexed_rows_length|done|].
    intros e _. apply not_elem_of_empty.
Qed.

(** X2.  After a run of [preprocess_graph] on a graph with at least one
    node the edge table never has more rows than [G.edges()] has pairs,
    and it has as many exactly when no unordered pair comes twice in
    [G.edges()].  For a graph with at most one edge per pair of nodes,
    undirected, the table then holds one row per pair, in that order,
    with the position of the pair as id, and two nodes are adjacent in
    the graph exactly when an edge row joins their ids, in one direction
    or the other. *)
Theorem preprocess_graph_edge_table C G file :
  NoDup (nodes G) → nodes G ≠ [] →
  ∃ db, preprocess_graph C G file = (inr tt, Some db)
        ∧ len (edges_table db) ≤ len (Nx.edges G)
        ∧ (len (edges_table db) = len (Nx.edges G) ↔
           NoDup (stream_key <$> Nx.edges G))
        ∧ (wf_graph G →
           (∀ k, edges_table db !! k
                 = (λ e, mkEdge (Z.of_nat k) (escape e.1) (escape e.2))
                   <$> Nx.edges G !! k)
           ∧ (∀ u v, adjacent G u v ↔
                     ∃ r, r ∈ edges_table db
                          ∧ same_edge (edge_ends r) (escape u, escape v))).
Proof.
  intros Hnd Hne. exists (ingested G).
  split; [by apply preprocess_graph_with_ok|].
  split.
  { cbn [ingested edges_table]. unfold len.
    pose proof (first_occurrences_length_le 0 (Nx.edges G) ∅). lia. }
  split.
  { cbn [ingested edges_table]. unfold len.
    rewrite <- first_occurrences_length. lia. }
  intros Hwf. rewrite ingested_edges by done. split.
  - intros k. rewrite indexed_rows_lookup. by rewrite Z.add_0_l.
  - intros u v. rewrite edges_adjacent by done. split.
    + intros [Hin|Hin]; apply (elem_indexed_rows 0) in Hin as (r & Hr & Hs & Ht);
        exists r; (split; [done|]); unfold same_edge, edge_ends; simpl in *.
      * by left.
      * by right.
    + intros (r & (e & He & Hs & Ht)%indexed_rows_elem & Hsame).
      unfold same_edge, edge_ends in Hsame. simpl in Hsame. rewrite Hs, Ht in Hsame.
      destruct e as [a b]. simpl in *.
      destruct Hsame as [[->%escape_inj ->%escape_inj]|[->%escape_inj ->%escape_inj]];
        [by left|by right].
Qed.

Lemma preprocess_graph_edge_table_witness :
  ∃ db, preprocess_graph failing_centrality
          (build [AddEdge "A" "B"; AddEdge "B" "C"; AddEdge "C" "A"]) None
        = (inr tt, Some db)
        ∧ len (edges_table db)
          ≤ len (Nx.edges (build [AddEdge "A" "B"; AddEdge "B" "C"; AddEdge "C" "A"]))
        ∧ (len (edges_table db)
           = len (Nx.edges (build [AddEdge "A" "B"; AddEdge "B" "C"; AddEdge "C" "A"])) ↔
           NoDup (stream_key
                    <$> Nx.edges (build [AddEdge "A" "B"; AddEdge "B" "C"; AddEdge "C" "A"])))
        ∧ (wf_graph (build [AddEdge "A" "B"; AddEdge "B" "C"; AddEdge "C" "A"]) →
           (∀ k, edges_table db !! k
                 = (λ e, mkEdge (Z.of_nat k) (escape e.1) (escape e.2))
                   <$> Nx.edges (build [AddEdge "A" "B"; AddEdge "B" "C"; AddEdge "C" "A"])
                       !! k)
           ∧ (∀ u v,
                adjacent (build [AddEdge "A" "B"; AddEdge "B" "C"; AddEdge "C" "A"]) u v ↔
                ∃ r, r ∈ edges_table db
                     ∧ same_edge (edge_ends r) (escape u, escape v))).
Proof.
  apply preprocess_graph_edge_table; [apply build_wf|discriminate].
Defined.

(** An adjacency that lists B twice for A and A twice for B, which is
    what [G.edges()] and [G.degree()] see of two parallel edges between A
    and B: [G.edges()] has three pairs, the table two rows with the ids 0
    and 2, and [graph_stats] holds 3 as [total_edges] and 6/3 as
    [avg_degree]. *)
Example preprocess_graph_parallel_edges :
  Nx.edges (mkGraph [("A", ["B"; "B"; "C"]); ("B", ["A"; "A"]); ("C", ["A"])])
  = [("A", "B"); ("A", "B"); ("A", "C")]
  ∧ ∃ db, preprocess_graph failing_centrality
            (mkGraph [("A", ["B"; "B"; "C"]); ("B", ["A"; "A"]); ("C", ["A"])]) None
          = (inr tt, Some db)
          ∧ edges_table db = [mkEdge 0 "A" "B"; mkEdge 2 "A" "C"]
          ∧ graph_stats_table db
            = [("total_nodes", IntText 3); ("total_edges", IntText 3);
               ("avg_degree", QuotText 6 3)].
Proof.
  split; [vm_compute; reflexivity|].
  eexists. split; [vm_compute; reflexivity|]. split; reflexivity.
Qed.

(** ** The sum of the degrees *)










(** ** The queries on the tables of a graph *)

Lemma filter_key_singleton {A B} `{EqDecision B} (f : A → B) (l : list A) x :
  NoDup (f <$> l) → x ∈ l → filter (λ y, f y = f x) l = [x].
Proof.
  induction l as [|y l IH]; intros Hnd Hx; [by apply elem_of_nil in Hx|].
  rewrite fmap_cons in Hnd. apply NoDup_cons in Hnd as [Hy Hnd].
  rewrite filter_cons. apply elem_of_cons in Hx as [->|Hx].
  - rewrite decide_True by done. f_equal. apply filter_nil_Forall.
    apply Forall_forall. intros z Hz Heq. apply Hy. rewrite <- Heq.
    by apply list_elem_of_fmap_2.
  - rewrite decide_False; [by apply IH|].
    intros Heq. apply Hy. rewrite Heq. by apply list_elem_of_fmap_2.
Qed.

Lemma distinct_NoDup_id `{EqDecision A} (seen l : list A) :
  NoDup l → (∀ x, x ∈ l → x ∉ seen) → distinct seen l = l.
Proof.
  revert seen. induction l as [|y l IH]; intros seen Hnd Hseen; [done|].
  apply NoDup_cons in Hnd as [Hy Hnd]. simpl.
  rewrite bool_decide_eq_false_2 by (apply Hseen, elem_of_cons; by left).
  f_equal. apply IH; [done|]. intros x Hx. apply not_elem_of_cons. split.
  - intros ->. done.
  - apply Hseen. apply elem_of_cons. by right.
Qed.

Lemma other_endpoint_key node_id r :
  touches node_id r → edge_key r = sorted_pair node_id (other_endpoint node_id r).
Proof.
  intros Ht. unfold edge_key, other_endpoint. case_bool_decide as Hs.
  - by rewrite Hs.
  - apply touches_spec in Ht as [?|Ht]; [done|]. rewrite Ht. apply sorted_pair_comm.
Qed.

(** When no pair of nodes has two edge rows, the neighbours counted by
    [get_node_info] are as many as the edge rows at the node. *)
Lemma neighbor_ids_rows db node_id :
  NoDup (edge_key <$> edges_table db) →
  neighbor_ids db node_id
  = other_endpoint node_id <$> filter (λ e, touches node_id e) (edges_table db).
Proof.
  intros Hnd. unfold neighbor_ids.
  apply distinct_NoDup_id; [|intros; apply not_elem_of_nil].
  apply NoDup_fmap_2_strong; [|apply NoDup_filter; by apply NoDup_fmap_1 in Hnd].
  intros a b [Ha Hta]%list_elem_of_filter [Hb Htb]%list_elem_of_filter Heq.
  apply (NoDup_fmap_elem_inj edge_key (edges_table db)); [done..|].
  by rewrite (other_endpoint_key node_id a), (other_endpoint_key node_id b), Heq.
Qed.

Lemma indexed_rows_keys_NoDup G :
  wf_graph G → NoDup (edge_key <$> indexed_rows 0 (Nx.edges G)).
Proof.
  intros Hwf. rewrite <- ingested_edges by done. simpl.
  apply first_occurrences_keys_NoDup.
Qed.

Lemma indexed_rows_untouched G x :
  wf_graph G → x ∉ escape <$> nodes G →
  filter (λ e, touches x e) (indexed_rows 0 (Nx.edges G)) = [].
Proof.
  intros Hwf Hx. apply filter_nil_Forall, Forall_forall.
  intros r ([u v] & He & Hs & Ht)%indexed_rows_elem Htouch. simpl in *.
  apply edges_endpoints in He as [Hu Hv]; [|done].
  apply Hx. apply touches_spec in Htouch as [<-|<-].
  - rewrite Hs. by apply list_elem_of_fmap_2.
  - rewrite Ht. by apply list_elem_of_fmap_2.
Qed.

(** X4.  On the database of a graph, [get_node_info] answers for the id
    of a node with the row of the node and, as number of neighbours, the
    number of entries of [G[n]]: a loop counts once there, while it counts
    twice in the degree of the row.  For an id that no node row carries it
    answers with no row and with [0] neighbours. *)
Theorem get_node_info_stored C G file n nbrs :
  wf_graph G → (n, nbrs) ∈ adj G →
  ∃ db, preprocess_graph C G file = (inr tt, Some db)
        ∧ get_node_info db (escape n)
          = (Some (mkNode (escape n) (escape n) (degree_of n nbrs)), len nbrs)
        ∧ ∀ x, x ∉ n_id <$> nodes_table db → get_node_info db x = (None, 0).
Proof.
  intros Hwf Hin. pose proof Hwf as [Hnd _]. exists (ingested G).
  split.
  { apply preprocess_graph_ingested; [done|].
    intros Hnil. apply (list_elem_of_fmap_2 fst) in Hin. fold (nodes G) in Hin.
    rewrite Hnil in Hin. by apply elem_of_nil in Hin. }
  assert (Hkeys : NoDup (edge_key <$> edges_table (ingested G))).
  { rewrite ingested_edges by done. by apply indexed_rows_keys_NoDup. }
  unfold get_node_info. split.
  - rewrite neighbor_ids_rows, ingested_edges by done.
    apply pair_equal_spec. split.
    + simpl. unfold node_rows.
      change (escape n) with (n_id (node_row_of (n, nbrs))).
      rewrite (filter_key_singleton n_id (node_row_of <$> adj G) (node_row_of (n, nbrs)));
        [done| |by apply list_elem_of_fmap_2].
      fold (node_rows G). by apply node_rows_ids_NoDup.
    + unfold len. rewrite length_fmap, indexed_rows_incident.
      by destruct (edges_incident_count G n nbrs Hwf Hin) as [-> _].
  - intros x Hx. simpl in Hx. rewrite node_rows_ids in Hx.
    rewrite neighbor_ids_rows, ingested_edges by done.
    rewrite indexed_rows_untouched by done. apply pair_equal_spec. split; [|done].
    simpl. rewrite filter_nil_Forall; [done|]. apply Forall_forall.
    intros row Hrow Hid. apply Hx. rewrite <- Hid, <- node_rows_ids.
    by apply list_elem_of_fmap_2.
Qed.

Lemma get_node_info_stored_witness :
  ∃ db, preprocess_graph failing_centrality
          (build [AddEdge "A" "B"; AddEdge "A" "A"]) None
        = (inr tt, Some db)
        ∧ get_node_info db (escape "A")
          = (Some (mkNode (escape "A") (escape "A") (degree_of "A" ["B"; "A"])),
             len ["B"; "A"])
        ∧ ∀ x, x ∉ n_id <$> nodes_table db → get_node_info db x = (None, 0).
Proof.
  apply get_node_info_stored; [apply build_wf|].
  apply elem_of_cons. by left.
Defined.

Lemma adjacent_nbrs G n nbrs v :
  NoDup (nodes G) → (n, nbrs) ∈ adj G → adjacent G n v ↔ v ∈ nbrs.
Proof.
  intros Hnd Hin. apply dict_get_elem in Hin; [|done]. unfold adjacent. rewrite Hin.
  split; [by intros (? & [= <-] & ?)|]. intros Hv. by exists nbrs.
Qed.

Lemma expand_node_nodes_elem db node_id row :
  row ∈ (expand_node db node_id).1 ↔
  row ∈ nodes_table db
  ∧ ∃ e, e ∈ edges_table db ∧ touches node_id e
         ∧ (n_id row = e_target e ∨ n_id row = e_source e).
Proof.
  unfold expand_node. simpl. rewrite distinct_elem, list_elem_of_bind. split.
  - intros [(row' & Hin & Hrow) _].
    apply list_elem_of_bind in Hin as (e & Hin & He).
    destruct (_ && _) eqn:Hcond in Hin; [|by apply elem_of_nil in Hin].
    apply list_elem_of_singleton in Hin as ->.
    apply andb_true_iff in Hcond as [Hend Ht].
    apply orb_true_iff in Hend. rewrite !bool_decide_eq_true in Hend.
    split; [done|]. exists e. split; [done|]. split; [by apply Is_true_true|done].
  - intros [Hrow (e & He & Ht & Hend)]. split; [|apply not_elem_of_nil].
    exists row. split; [|done]. apply list_elem_of_bind. exists e. split; [|done].
    rewrite (Is_true_true_1 _ Ht), andb_true_r.
    assert (Hb : bool_decide (n_id row = e_target e)
                 || bool_decide (n_id row = e_source e) = true).
    { apply orb_true_iff. by rewrite !bool_decide_eq_true. }
    rewrite Hb. by apply list_elem_of_singleton.
Qed.

(** X5.  On the database of a graph, [expand_node] answers for the id of
    a node [n] with as many edge rows as [G[n]] has entries, and with the
    node rows of the neighbours of [n] together with the row of [n]
    itself when [n] has a neighbour; for a node without neighbours both
    lists are empty. *)
Theorem expand_node_stored C G file n nbrs :
  wf_graph G → (n, nbrs) ∈ adj G →
  ∃ db, preprocess_graph C G file = (inr tt, Some db)
        ∧ len (expand_node db (escape n)).2 = len nbrs
        ∧ (∀ row, row ∈ (expand_node db (escape n)).1 ↔
                  row ∈ nodes_table db
                  ∧ ∃ m, n_id row = escape m ∧ (m ∈ nbrs ∨ (m = n ∧ nbrs ≠ [])))
        ∧ (nbrs = [] → expand_node db (escape n) = ([], [])).
Proof.
  intros Hwf Hin. pose proof Hwf as [Hnd _]. exists (ingested G).
  split.
  { apply preprocess_graph_ingested; [done|].
    intros Hnil. apply (list_elem_of_fmap_2 fst) in Hin. fold (nodes G) in Hin.
    rewrite Hnil in Hin. by apply elem_of_nil in Hin. }
  assert (Hrows : NoDup (indexed_rows 0 (Nx.edges G))).
  { eapply NoDup_fmap_1. by apply indexed_rows_keys_NoDup. }
  assert (Hlen : len (expand_node (ingested G) (escape n)).2 = len nbrs).
  { unfold expand_node. cbn [snd]. rewrite ingested_edges by done.
    rewrite distinct_NoDup_id;
      [|by apply NoDup_filter|intros; apply not_elem_of_nil].
    unfold len. rewrite indexed_rows_incident.
    by destruct (edges_incident_count G n nbrs Hwf Hin) as [-> _]. }
  assert (Helem : ∀ row, row ∈ (expand_node (ingested G) (escape n)).1 ↔
                  row ∈ nodes_table (ingested G)
                  ∧ ∃ m, n_id row = escape m ∧ (m ∈ nbrs ∨ (m = n ∧ nbrs ≠ []))).
  { intros row. rewrite expand_node_nodes_elem, ingested_edges by done.
    split; intros [Hrow Hex]; (split; [done|]).
    - destruct Hex as (r & ([u v] & He & Hs & Ht)%indexed_rows_elem & Htouch & Hend).
      simpl in *. apply touches_spec in Htouch. rewrite Hs, Ht in Htouch, Hend.
      assert (Huv : adjacent G u v) by (apply edges_adjacent; [done|by left]).
      assert (Hvu : adjacent G v u) by by apply wf_adjacent_sym.
      destruct Htouch as [->%escape_inj| ->%escape_inj].
      + apply (adjacent_nbrs G n nbrs) in Huv; [|done..].
        destruct Hend as [Hid|Hid].
        * exists v. split; [done|]. by left.
        * exists n. split; [done|]. right. split; [done|]. intros ->.
          by apply elem_of_nil in Huv.
      + apply (adjacent_nbrs G n nbrs) in Hvu; [|done..].
        destruct Hend as [Hid|Hid].
        * exists n. split; [done|]. right. split; [done|]. intros ->.
          by apply elem_of_nil in Hvu.
        * exists u. split; [done|]. by left.
    - destruct Hex as (m & Hid & Hm).
      assert (Hv : ∃ v, v ∈ nbrs ∧ (m = v ∨ m = n)).
      { destruct Hm as [Hm|[-> Hne]]; [exists m; auto|].
        destruct nbrs as [|v nbrs]; [done|]. exists v. split; [|by right].
        apply elem_of_cons. by left. }
      destruct Hv as (v & Hv & Hmv).
      apply (adjacent_nbrs G n nbrs) in Hv; [|done..].
      apply (edges_adjacent G n v Hwf) in Hv. destruct Hv as [He|He];
        apply (elem_indexed_rows 0) in He as (r & Hr & Hs & Ht); simpl in *;
        exists r; (split; [done|]); rewrite touches_spec, Hs, Ht, Hid;
        destruct Hmv as [->| ->]; auto. }
  split; [done|]. split; [done|].
  intros ->. destruct (expand_node (ingested G) (escape n)) as [rows es] eqn:Hexp.
  simpl in *. destruct es; [|done]. destruct rows as [|row rows]; [done|].
  destruct (proj1 (Helem row)) as (_ & m & _ & [Hm|[_ Hne]]);
    [apply elem_of_cons; by left|by apply elem_of_nil in Hm|done].
Qed.

Lemma expand_node_stored_witness :
  ∃ db, preprocess_graph failing_centrality
          (build [AddEdge "A" "B"; AddNode "C"]) None
        = (inr tt, Some db)
        ∧ len (expand_node db (escape "C")).2 = len (@nil string)
        ∧ (∀ row, row ∈ (expand_node db (escape "C")).1 ↔
                  row ∈ nodes_table db
                  ∧ ∃ m, n_id row = escape m
                         ∧ (m ∈ @nil string ∨ (m = "C" ∧ @nil string ≠ [])))
        ∧ (@nil string = [] → expand_node db (escape "C") = ([], [])).
Proof.
  apply (expand_node_stored failing_centrality (build [AddEdge "A" "B"; AddNode "C"])
           None "C" []); [apply build_wf|].
  apply elem_of_cons. right. apply elem_of_cons. right. apply elem_of_cons. by left.
Defined.

(** The join of [get_initial_data] keeps the node rows whose id is listed
    as important. *)
Lemma join_important (important : list string) (rows : list node_row) :
  NoDup important →
  (n ← rows; i ← important; if bool_decide (n_id n = i) then [n] else [])
  = filter (λ n, n_id n ∈ important) rows.
Proof.
  intros Hnd. induction rows as [|row rows IH]; [done|].
  rewrite filter_cons. cbn [mbind list_bind]. 
  change (list_bind ?f ?l) with (l ≫= f) in *. rewrite IH. clear IH.
  assert (Hone : ∀ l, NoDup l →
            (i ← l; if bool_decide (n_id row = i) then [row] else [])
            = if decide (n_id row ∈ l) then [row] else []).
  { clear. intros l. induction l as [|i l IH]; intros Hnd.
    - by rewrite decide_False by apply not_elem_of_nil.
    - apply NoDup_cons in Hnd as [Hi Hnd]. cbn [mbind list_bind].
      change (list_bind ?f ?l) with (l ≫= f) in *. rewrite IH by done.
      case_bool_decide as Heq.
      + subst i. rewrite decide_False by done.
        rewrite decide_True by (apply elem_of_cons; by left). done.
      + destruct (decide (n_id row ∈ l)) as [Hl|Hl].
        * rewrite decide_True by (apply elem_of_cons; by right). done.
        * rewrite decide_False; [done|]. by intros [?|?]%elem_of_cons. }
  rewrite Hone by done. by destruct (decide (n_id row ∈ important)).
Qed.

Lemma get_initial_data_edges_elem db e :
  e ∈ (get_initial_data db).2 ↔
  e ∈ edges_table db
  ∧ e_source e ∈ n_id <$> (get_initial_data db).1
  ∧ e_target e ∈ n_id <$> (get_initial_data db).1.
Proof.
  unfold get_initial_data. cbn [fst snd].
  destruct (n_id <$> _) as [|i ids] eqn:Hids.
  - split; [by intros ?%elem_of_nil|]. by intros (_ & ?%elem_of_nil & _).
  - rewrite distinct_elem, list_elem_of_filter. split; [by intros [[? ?] _]|].
    intros [? ?]. split; [done|apply not_elem_of_nil].
Qed.

(** X6.  On the database of a graph, [get_initial_data] answers with the
    node rows of the nodes that [find_important_nodes] ranks first by
    degree, [min(50, len(G))] rows and none twice, and with the edge rows
    that join two of these nodes. *)
Theorem get_initial_data_stored C G file :
  wf_graph G → nodes G ≠ [] →
  ∃ db, preprocess_graph C G file = (inr tt, Some db)
        ∧ NoDup (get_initial_data db).1
        ∧ len (get_initial_data db).1 = Z.min 50 (number_of_nodes G)
        ∧ (∀ row, row ∈ (get_initial_data db).1 ↔
                  row ∈ nodes_table db
                  ∧ n_id row ∈ escape <$> (find_important_nodes C G "degree" 50).2)
        ∧ (∀ e, e ∈ (get_initial_data db).2 ↔
                e ∈ edges_table db
                ∧ e_source e ∈ escape <$> (find_important_nodes C G "degree" 50).2
                ∧ e_target e ∈ escape <$> (find_important_nodes C G "degree" 50).2).
Proof.
  intros Hwf Hne. pose proof Hwf as [Hnd _]. exists (ingested G).
  split; [by apply preprocess_graph_ingested|].
  rewrite find_important_nodes_degree_eq. cbn [snd].
  assert (Himp : NoDup (escape <$> by_degree G 50)).
  { apply (NoDup_fmap_2 escape). by apply by_degree_NoDup. }
  assert (Hjoin : (get_initial_data (ingested G)).1
                  = filter (λ n, n_id n ∈ escape <$> by_degree G 50) (node_rows G)).
  { unfold get_initial_data. cbn [fst]. simpl. by apply join_important. }
  assert (Hids : n_id <$> (get_initial_data (ingested G)).1 ≡ₚ escape <$> by_degree G 50).
  { apply NoDup_Permutation; [|done|].
    - rewrite Hjoin. eapply sublist_NoDup; [by apply node_rows_ids_NoDup|].
      apply fmap_sublist, sublist_filter.
    - intros x. rewrite Hjoin, list_elem_of_fmap. split.
      + by intros (row & -> & [Hrow _]%list_elem_of_filter).
      + intros Hx. pose proof Hx as (m & -> & Hm%by_degree_elem)%list_elem_of_fmap.
        apply (list_elem_of_fmap_2 escape) in Hm. rewrite <- node_rows_ids in Hm.
        apply list_elem_of_fmap in Hm as (row & Hid & Hrow).
        exists row. split; [done|]. apply list_elem_of_filter. by rewrite <- Hid. }
  split; [|split; [|split]].
  - eapply NoDup_fmap_1. rewrite Hids. exact Himp.
  - unfold len. rewrite <- (length_fmap n_id), Hids, length_fmap.
    by apply (by_degree_length G 50).
  - intros row. rewrite Hjoin, list_elem_of_filter. simpl. tauto.
  - intros e. rewrite get_initial_data_edges_elem. by rewrite !Hids.
Qed.

Lemma get_initial_data_stored_witness :
  ∃ db, preprocess_graph failing_centrality
          (build [AddEdge "A" "B"; AddEdge "B" "C"]) None
        = (inr tt, Some db)
        ∧ NoDup (get_initial_data db).1
        ∧ len (get_initial_data db).1
          = Z.min 50 (number_of_nodes (build [AddEdge "A" "B"; AddEdge "B" "C"]))
        ∧ (∀ row, row ∈ (get_initial_data db).1 ↔
                  row ∈ nodes_table db
                  ∧ n_id row ∈ escape <$> (find_important_nodes failing_centrality
                                             (build [AddEdge "A" "B"; AddEdge "B" "C"])
                                             "degree" 50).2)
        ∧ (∀ e, e ∈ (get_initial_data db).2 ↔
                e ∈ edges_table db
                ∧ e_source e ∈ escape <$> (find_important_nodes failing_centrality
                                             (build [AddEdge "A" "B"; AddEdge "B" "C"])
                                             "degree" 50).2
                ∧ e_target e ∈ escape <$> (find_important_nodes failing_centrality
                                             (build [AddEdge "A" "B"; AddEdge "B" "C"])
                                             "degree" 50).2).
Proof.
  apply get_initial_data_stored; [apply build_wf|discriminate].
Defined.

(** ** Wildcards in the query of a search *)

Lemma string_length_app (a b : string) :
  String.length (a ++ b) = (String.length a + String.length b)%nat.
Proof.
  induction a as [|x a IH]; [done|]. rewrite string_app_cons. simpl. by rewrite IH.
Qed.

Lemma only_app c (a b : string) : only c a → only c b → only c (a ++ b).
Proof.
  intros Ha Hb. induction a as [|x a IH]; [done|].
  destruct Ha as [-> Ha]. rewrite string_app_cons. split; [done|]. by apply IH.
Qed.

Lemma like_only_percent pattern text :
  only "%" pattern → pattern ≠ "" → like pattern text = true.
Proof.
  induction pattern as [|c pattern IH]; intros Honly Hne; [done|].
  destruct Honly as [-> Honly]. apply like_percent.
  destruct pattern as [|c pattern].
  - exists text, "". by rewrite string_app_nil_r.
  - exists "", text. split; [done|]. by apply IH.
Qed.

Lemma like_only_underscore us rest text :
  only "_" us →
  like (us ++ rest) text = true ↔
  ∃ mid text', text = (mid ++ text')%string
               ∧ String.length mid = String.length us ∧ like rest text' = true.
Proof.
  revert text. induction us as [|c us IH]; intros text Honly.
  - rewrite string_app_nil_l. split.
    + intros H. by exists "", text.
    + intros ([|? ?] & text' & -> & Hlen & H); [done|discriminate].
  - destruct Honly as [-> Honly]. rewrite string_app_cons. cbn [like].
    change (Ascii.eqb "_" "%") with false. change (Ascii.eqb "_" "_") with true.
    cbn match. destruct text as [|t text].
    + split; [done|]. intros ([|? ?] & text' & Heq & Hlen & _); discriminate.
    + rewrite IH by done. split.
      * intros (mid & text' & -> & Hlen & H). exists (String t mid), text'.
        rewrite string_app_cons. simpl. by rewrite Hlen.
      * intros ([|m mid] & text' & Heq & Hlen & H); [discriminate|].
        rewrite string_app_cons in Heq. injection Heq as -> ->.
        injection Hlen as Hlen. by exists mid, text'.
Qed.

Lemma string_split_at (k : nat) (text : string) :
  (k ≤ String.length text)%nat →
  ∃ mid post, text = (mid ++ post)%string ∧ String.length mid = k.
Proof.
  revert text. induction k as [|k IH]; intros text Hk.
  - by exists "", text.
  - destruct text as [|t text]; simpl in Hk; [lia|].
    destruct (IH text) as (mid & post & -> & Hlen); [lia|].
    exists (String t mid), post. rewrite string_app_cons. simpl. by rewrite Hlen.
Qed.

(** X7.  The query of [search_nodes] is put between two [%] as it is, so
    the wildcards of LIKE keep their meaning inside it: a query of two or
    more characters that are all [%] matches every node row, and a query
    that is made of underscores matches the rows whose label has at least
    as many characters as the query. *)
Theorem search_nodes_wildcards db query :
  2 ≤ Z.of_nat (String.length query) →
  search_nodes db query = take 10 (search_candidates db query)
  ∧ (only "%" query →
     ∀ n, n ∈ search_candidates db query ↔ n ∈ nodes_table db)
  ∧ (only "_" query →
     ∀ n, n ∈ search_candidates db query ↔
          n ∈ nodes_table db ∧ (String.length query ≤ String.length (n_label n))%nat).
Proof.
  intros Hlen. split; [by apply search_nodes_long|]. split.
  - intros Honly n. rewrite search_candidates_elem. unfold search_matches.
    rewrite like_only_percent; [by split; [intros [? _]|]| |done].
    change ("%" ++ query ++ "%")%string with (String "%" (query ++ "%")).
    split; [done|]. by apply only_app.
  - intros Honly n. rewrite search_candidates_elem. unfold search_matches.
    change ("%" ++ query ++ "%")%string with (String "%" (query ++ "%")).
    rewrite Is_true_true, like_percent.
    split; intros [Hn Hmatch]; (split; [done|]).
    + destruct Hmatch as (pre & text' & Heq & (mid & post & -> & Hmid & _)%like_only_underscore);
        [|done].
      rewrite Heq, !string_length_app. lia.
    + apply string_split_at in Hmatch as (mid & post & Heq & Hmid).
      exists "", (n_label n). split; [done|].
      apply like_only_underscore; [done|]. exists mid, post.
      split; [done|]. split; [done|]. by apply like_only_percent.
Qed.

Lemma search_nodes_wildcards_witness :
  search_nodes (mkStore [mkNode "a" "a" 1; mkNode "abc" "abc" 2] [] [] []) "__"
  = take 10 (search_candidates
               (mkStore [mkNode "a" "a" 1; mkNode "abc" "abc" 2] [] [] []) "__")
  ∧ (only "%" "__" →
     ∀ n, n ∈ search_candidates
                (mkStore [mkNode "a" "a" 1; mkNode "abc" "abc" 2] [] [] []) "__" ↔
          n ∈ nodes_table (mkStore [mkNode "a" "a" 1; mkNode "abc" "abc" 2] [] [] []))
  ∧ (only "_" "__" →
     ∀ n, n ∈ search_candidates
                (mkStore [mkNode "a" "a" 1; mkNode "abc" "abc" 2] [] [] []) "__" ↔
          n ∈ nodes_table (mkStore [mkNode "a" "a" 1; mkNode "abc" "abc" 2] [] [] [])
          ∧ (String.length "__" ≤ String.length (n_label n))%nat).
Proof.
  apply search_nodes_wildcards. simpl. lia.
Defined.

(** ** The neighbourhood as a breadth-first tree *)

Lemma bfs_tree_mono G c hi hi' included dist :
  hi ≤ hi' → bfs_tree G c hi included dist → bfs_tree G c hi' included dist.
Proof.
  intros Hhi (Hc & Hdom & Hnodes & Htree). repeat split; [done..|].
  intros n d Hd. destruct (Htree n d Hd) as [?|[? ?]]; [by left|right].
  split; [lia|done].
Qed.

Lemma bfs_tree_bound G c hi included dist n d :
  0 ≤ hi → bfs_tree G c hi included dist → dist !! n = Some d → 0 ≤ d ≤ hi.
Proof.
  intros Hhi (_ & _ & _ & Htree) Hd.
  destruct (Htree n d Hd) as [[_ ->]|[? _]]; lia.
Qed.

Lemma bfs_grows_refl cd dist : bfs_grows cd dist dist.
Proof. split; auto. Qed.

Lemma bfs_grows_trans cd d1 d2 d3 :
  bfs_grows cd d1 d2 → bfs_grows cd d2 d3 → bfs_grows cd d1 d3.
Proof.
  intros [M1 R1] [M2 R2]. split; [auto|].
  intros y v Hv. destruct (R2 y v Hv) as [?|?]; [auto|by right].
Qed.

Lemma adjacent_target_node G u v : wf_graph G → adjacent G u v → v ∈ nodes G.
Proof. intros Hwf Huv. eapply adjacent_node. by apply wf_adjacent_sym. Qed.

Section bfs_tree.
Variable set_iter : gset string → list string.
Variable G : Graph.
Variable max_nodes : Z.
Variable center : string.
Hypothesis set_iter_spec : ∀ s x, x ∈ set_iter s ↔ x ∈ s.
Hypothesis G_wf : wf_graph G.

(** One pass over the neighbours of [node], which is at distance
    [cd - 1]. *)
Lemma add_neighbors_tree cd node l st :
  1 ≤ cd →
  bfs_tree G center cd (nodes_to_include st) (distance_map st) →
  (∀ x, x ∈ next_frontier st ↔ distance_map st !! x = Some cd) →
  distance_map st !! node = Some (cd - 1) →
  (∀ x, x ∈ l → adjacent G node x
                ∧ (x ∈ nodes_to_include st → x ∈ next_frontier st)) →
  let st' := add_neighbors max_nodes cd l st in
  bfs_tree G center cd (nodes_to_include st') (distance_map st')
  ∧ (∀ x, x ∈ next_frontier st' ↔ distance_map st' !! x = Some cd)
  ∧ bfs_grows cd (distance_map st) (distance_map st')
  ∧ nodes_to_include st ⊆ nodes_to_include st'
  ∧ (Z.of_nat (size (nodes_to_include st')) < max_nodes →
     ∀ x, x ∈ l → x ∈ nodes_to_include st').
Proof.
  intros Hcd. revert st. induction l as [|x l IH]; intros st Htree Hfr Hnode Hl; simpl.
  { repeat split; [apply Htree..|apply Hfr|apply Hfr|auto|auto|done|].
    by intros _ y ?%elem_of_nil. }
  destruct (Z.geb_spec (Z.of_nat (size (nodes_to_include st))) max_nodes) as [Hfull|Hroom].
  { repeat split; [apply Htree..|apply Hfr|apply Hfr|auto|auto|done|]. lia. }
  destruct (Hl x) as [Hadj Hseen]; [apply elem_of_cons; by left|].
  destruct Htree as (Hc & Hdom & Hnodes & Htree).
  assert (Hold : ∀ v, distance_map st !! x = Some v → v = cd).
  { intros v Hv. assert (Hx : x ∈ nodes_to_include st).
    { rewrite <- Hdom. by apply elem_of_dom. }
    apply Hseen, Hfr in Hx. congruence. }
  assert (Hxc : x ≠ center).
  { intros ->. apply Hold in Hc. lia. }
  assert (Hxn : x ≠ node).
  { intros ->. apply Hold in Hnode. lia. }
  set (st1 := mkLayer ({[x]} ∪ nodes_to_include st)
                      (<[x := cd]> (distance_map st))
                      ({[x]} ∪ next_frontier st)).
  assert (Hgrow : bfs_grows cd (distance_map st) (distance_map st1)).
  { split; intros y v; simpl; rewrite lookup_insert; case_decide; subst.
    - by intros ->%Hold.
    - done.
    - intros [= <-]. by right.
    - by left. }
  destruct (IH st1) as (Htree' & Hfr' & Hgrow' & Hsub' & Hall').
  - split; [|split; [|split]]; simpl.
    + by rewrite lookup_insert_ne.
    + by rewrite dom_insert_L, Hdom.
    + intros n [->%elem_of_singleton|Hn]%elem_of_union; [|by apply Hnodes].
      by eapply adjacent_target_node.
    + intros n d. rewrite lookup_insert. case_decide as Hn.
      * intros [= <-]. subst n. right. split; [lia|]. exists node.
        split; [|done]. by rewrite lookup_insert_ne.
      * intros Hd. destruct (Htree n d Hd) as [?|[Hb (m & Hm & Hmn)]]; [by left|].
        right. split; [done|]. exists m. split; [|done]. by apply Hgrow.
  - intros y. simpl. rewrite elem_of_union, elem_of_singleton, lookup_insert, Hfr.
    case_decide; subst; naive_solver.
  - simpl. by rewrite lookup_insert_ne.
  - intros y Hy. split; [apply Hl; apply elem_of_cons; by right|]. simpl.
    intros [->%elem_of_singleton|Hin]%elem_of_union.
    + apply elem_of_union. left. by apply elem_of_singleton.
    + apply elem_of_union. right.
      apply (Hl y); [apply elem_of_cons; by right|done].
  - split; [done|]. split; [done|]. split; [by eapply bfs_grows_trans|].
    split.
    + etrans; [|exact Hsub']. simpl. apply union_subseteq_r.
    + intros Hsize y [->|Hy]%elem_of_cons; [|by apply Hall'].
      apply Hsub'. simpl. apply elem_of_union. left. by apply elem_of_singleton.
Qed.

(** One pass over the frontier, whose nodes are at distance [cd - 1];
    [visited] holds the nodes of the frontier that have had their turn. *)
Lemma visit_frontier_tree cd visited fr st :
  1 ≤ cd →
  bfs_tree G center cd (nodes_to_include st) (distance_map st) →
  (∀ x, x ∈ next_frontier st ↔ distance_map st !! x = Some cd) →
  (∀ x, x ∈ visited ++ fr → distance_map st !! x = Some (cd - 1)) →
  bfs_closed G max_nodes (cd - 1) visited (nodes_to_include st) (distance_map st) →
  ∃ st', visit_frontier set_iter G max_nodes cd fr st = inr st'
         ∧ bfs_tree G center cd (nodes_to_include st') (distance_map st')
         ∧ (∀ x, x ∈ next_frontier st' ↔ distance_map st' !! x = Some cd)
         ∧ bfs_grows cd (distance_map st) (distance_map st')
         ∧ nodes_to_include st ⊆ nodes_to_include st'
         ∧ bfs_closed G max_nodes (cd - 1) (visited ++ fr)
             (nodes_to_include st') (distance_map st').
Proof.
  intros Hcd. revert visited st.
  induction fr as [|node fr IH]; intros visited st Htree Hfr Hdist Hclosed; simpl.
  { exists st. rewrite app_nil_r. repeat split; [apply Htree..|apply Hfr|apply Hfr|auto|auto|done|done]. }
  assert (Hnode : distance_map st !! node = Some (cd - 1)).
  { apply Hdist. apply elem_of_app. right. apply elem_of_cons. by left. }
  pose proof Htree as (Hc & Hdom & Hnodes & Hparent).
  destruct (neighbors_of_node G node) as (nbrs & Hnbrs & Hin).
  { apply Hnodes. rewrite <- Hdom. by apply elem_of_dom. }
  rewrite Hnbrs. simpl.
  set (l := set_iter (list_to_set nbrs ∖ nodes_to_include st)).
  assert (Hl : ∀ x, x ∈ l ↔ x ∈ nbrs ∧ x ∉ nodes_to_include st).
  { intros x. unfold l. by rewrite set_iter_spec, elem_of_difference, elem_of_list_to_set. }
  destruct G_wf as [Hnd _].
  destruct (add_neighbors_tree cd node l st Hcd Htree Hfr Hnode)
    as (Htree1 & Hfr1 & Hgrow1 & Hsub1 & Hall1).
  { intros x [Hx Hout]%Hl. split; [|done]. by apply (adjacent_nbrs G node nbrs). }
  set (st1 := add_neighbors max_nodes cd l st) in *.
  pose proof Hgrow1 as [M1 R1].
  destruct (IH (visited ++ [node]) st1) as (st' & Hrun & Htree' & Hfr' & Hgrow' & Hsub' & Hclosed');
    [done|done| |..].
  - intros x Hx. apply M1, Hdist. by rewrite <- app_assoc in Hx.
  - intros Hsize n d v Hd Hcase Hadj.
    assert (Hsize0 : Z.of_nat (size (nodes_to_include st)) < max_nodes).
    { apply subseteq_size in Hsub1. lia. }
    assert (Hd0 : n ≠ node → distance_map st !! n = Some d).
    { intros Hn. destruct (R1 n d Hd) as [?| ->]; [done|].
      destruct Hcase as [?|[Hv|Hv%list_elem_of_singleton]%elem_of_app]; [lia| |done].
      assert (Hv' : distance_map st !! n = Some (cd - 1)).
      { apply Hdist. apply elem_of_app. by left. }
      apply M1 in Hv'. rewrite Hv' in Hd. injection Hd. lia. }
    destruct (decide (n = node)) as [->|Hn].
    + rewrite (M1 node _ Hnode) in Hd. injection Hd as <-.
      apply (adjacent_nbrs G node nbrs) in Hadj; [|done..].
      assert (Hv : v ∈ nodes_to_include st1).
      { destruct (decide (v ∈ nodes_to_include st)) as [Hv|Hv]; [by apply Hsub1|].
        apply Hall1; [done|]. by apply Hl. }
      pose proof Htree1 as (Hc1 & Hdom1 & Hnodes1 & _). rewrite <- Hdom1 in Hv.
      apply elem_of_dom in Hv as [dv Hv]. exists dv. split; [done|].
      assert (0 ≤ dv ≤ cd); [|lia].
      eapply (bfs_tree_bound G center cd); [lia|exact Htree1|exact Hv].
    + specialize (Hd0 Hn).
      destruct (Hclosed Hsize0 n d v Hd0) as (dv & Hdv & Hle); [|done|].
      * destruct Hcase as [?|[?|?%list_elem_of_singleton]%elem_of_app]; auto. done.
      * exists dv. split; [|done]. by apply M1.
  - exists st'. split; [done|]. split; [done|]. split; [done|].
    split; [by eapply bfs_grows_trans|]. split; [by etrans|].
    by rewrite <- app_assoc in Hclosed'.
Qed.

(** The [while] loop.  It is entered with the frontier made of the nodes
    at distance [cd], all nearer nodes having had their turn. *)
Lemma bfs_tree_run max_distance fuel cd frontier included dist :
  0 ≤ cd →
  max_distance - cd ≤ Z.of_nat fuel →
  bfs_tree G center cd included dist →
  (∀ x, x ∈ frontier ↔ dist !! x = Some cd) →
  bfs_closed G max_nodes cd [] included dist →
  ∃ included' dist',
    bfs set_iter G max_distance max_nodes fuel cd frontier included dist
    = inr (included', dist')
    ∧ bfs_tree G center (Z.max cd max_distance) included' dist'
    ∧ bfs_closed G max_nodes max_distance [] included' dist'.
Proof.
  revert cd frontier included dist.
  induction fuel as [|fuel IH];
    intros cd frontier included dist Hcd Hfuel Htree Hfr Hclosed; simpl.
  { exists included, dist. split; [done|].
    split; [eapply bfs_tree_mono; [|done]; lia|].
    intros Hsize n d v Hd [Hlt|?%elem_of_nil] Hadj; [|done].
    apply (Hclosed Hsize n d v); [done| |done]. left. lia. }
  destruct (Z.ltb_spec cd max_distance) as [Hlt|Hge]; simpl;
    [destruct (Z.ltb_spec (Z.of_nat (size included)) max_nodes) as [Hroom|Hfull]; simpl|].
  - destruct (visit_frontier_tree (cd + 1) [] (set_iter frontier)
                (mkLayer included dist ∅))
      as (st' & -> & Htree' & Hfr' & [M R] & Hsub' & Hclosed'); simpl.
    + lia.
    + eapply bfs_tree_mono; [|done]. lia.
    + intros x. split; [by intros ?%not_elem_of_empty|].
      intros Hx. pose proof (bfs_tree_bound G center cd _ _ _ _ Hcd Htree Hx). lia.
    + intros x Hx%set_iter_spec. replace (cd + 1 - 1) with cd by lia. by apply Hfr.
    + replace (cd + 1 - 1) with cd by lia. done.
    + simpl in *.
      assert (Hnext : bfs_closed G max_nodes (cd + 1) []
                        (nodes_to_include st') (distance_map st')).
      { intros Hsize n d v Hd [Hd'|?%elem_of_nil] Hadj; [|done].
        apply (Hclosed' Hsize n d v Hd); [|done].
        destruct (decide (d < cd)) as [?|Hdcd]; [left; lia|right].
        apply set_iter_spec, Hfr.
        destruct (R n d Hd) as [Hold| ->]; [|lia].
        replace d with cd in Hold by lia. done. }
      case_decide as Hempty.
      * exists (nodes_to_include st'), (distance_map st'). split; [done|].
        split; [eapply bfs_tree_mono; [|done]; lia|].
        intros Hsize n d v Hd [Hd'|?%elem_of_nil] Hadj; [|done].
        apply (Hnext Hsize n d v Hd); [|done]. left.
        assert (0 ≤ d ≤ cd + 1) by (eapply bfs_tree_bound; [|done..]; lia).
        destruct (decide (d = cd + 1)) as [->|?]; [|lia].
        apply Hfr' in Hd. rewrite Hempty in Hd. by apply not_elem_of_empty in Hd.
      * replace (Z.max cd max_distance) with (Z.max (cd + 1) max_distance) by lia.
        apply IH; [lia|lia|done|done|done].
  - exists included, dist. split; [done|].
    split; [eapply bfs_tree_mono; [|done]; lia|].
    intros Hsize. lia.
  - exists included, dist. split; [done|].
    split; [eapply bfs_tree_mono; [|done]; lia|].
    intros Hsize n d v Hd [Hd'|?%elem_of_nil] Hadj; [|done].
    apply (Hclosed Hsize n d v); [done| |done]. left. lia.
Qed.

End bfs_tree.

(** [G.subgraph(S)] keeps the nodes of [S] and the edges between them. *)
Lemma subgraph_get G (S : gset string) a :
  dict_get a (adj (subgraph G S))
  = if decide (a ∈ S) then filter (λ v, v ∈ S) <$> dict_get a (adj G) else None.
Proof.
  unfold subgraph. cbn [adj]. induction (adj G) as [|[n nbrs] rest IH].
  { by destruct (decide (a ∈ S)). }
  rewrite filter_cons. cbn [fst dict_get].
  destruct (String.eqb_spec a n) as [->|Hne].
  - destruct (decide (n ∈ S)) as [Hn|Hn].
    + cbn [map dict_get]. by rewrite String.eqb_refl.
    + exact IH.
  - destruct (decide (n ∈ S)) as [Hn|Hn]; [|done].
    cbn [map dict_get]. by rewrite (proj2 (String.eqb_neq a n) Hne).
Qed.

Lemma subgraph_adjacent G (S : gset string) a b :
  adjacent (subgraph G S) a b ↔ adjacent G a b ∧ a ∈ S ∧ b ∈ S.
Proof.
  unfold adjacent. rewrite subgraph_get. destruct (decide (a ∈ S)) as [Ha|Ha].
  - split.
    + intros (nbrs & Hget & Hb).
      destruct (dict_get a (adj G)) as [nbrs'|]; [|done]. injection Hget as <-.
      apply list_elem_of_filter in Hb as [Hb Hin]. split; [by exists nbrs'|done].
    + intros [(nbrs & -> & Hb) [_ HbS]]. exists (filter (λ v, v ∈ S) nbrs).
      split; [done|]. by apply list_elem_of_filter.
  - split; [by intros (? & ? & _)|]. by intros (_ & ? & _).
Qed.

Lemma subgraph_wf G (S : gset string) : wf_graph G → wf_graph (subgraph G S).
Proof.
  intros Hwf. pose proof Hwf as [Hnd _]. apply wf_graph_lookup in Hwf as [_ Hall].
  apply wf_graph_lookup. split.
  - rewrite subgraph_nodes. by apply NoDup_filter.
  - intros n nbrs. rewrite subgraph_get. case_decide as Hn; [|done].
    destruct (dict_get n (adj G)) as [nbrs'|] eqn:Hget; [|done]. intros [= <-].
    destruct (Hall n nbrs' Hget) as [Hnb Hsym]. split; [by apply NoDup_filter|].
    intros v [Hv Hin]%list_elem_of_filter. apply subgraph_adjacent. auto.
Qed.

Lemma subgraph_nodes_size G (S : gset string) :
  NoDup (nodes G) → (∀ n, n ∈ S → n ∈ nodes G) →
  length (nodes (subgraph G S)) = size S.
Proof.
  intros Hnd Hsub. rewrite subgraph_nodes.
  rewrite <- (size_list_to_set (C := gset string)) by by apply NoDup_filter.
  f_equal. apply set_eq. intros x.
  rewrite elem_of_list_to_set, list_elem_of_filter. naive_solver.
Qed.

(** The call returns for every graph that has a node, with a traversal
    that starts from the centre asked for when the graph has it. *)
Lemma get_node_neighborhood_run set_iter pick G center_node max_distance max_nodes :
  (∀ s x, x ∈ set_iter s ↔ x ∈ s) → wf_graph G → nodes G ≠ [] →
  ∃ c included dist,
    c ∈ nodes G
    ∧ (center_node ∈ nodes G → c = center_node)
    ∧ get_node_neighborhood set_iter pick G center_node max_distance max_nodes
      = inr (subgraph G included, dist)
    ∧ bfs_tree G c (Z.max 0 max_distance) included dist
    ∧ bfs_closed G max_nodes max_distance [] included dist.
Proof.
  intros Hiter Hwf Hne.
  assert (Hc : ∃ c, c ∈ nodes G ∧ (center_node ∈ nodes G → c = center_node) ∧
    get_node_neighborhood set_iter pick G center_node max_distance max_nodes
    = bind (bfs set_iter G max_distance max_nodes (Z.to_nat max_distance) 0
              {[c]} {[c]} {[c := 0]})
           (λ r, inr (subgraph G r.1, r.2))).
  { unfold get_node_neighborhood, has_node, dict_has. case_bool_decide as Hin.
    - by exists center_node.
    - destruct (random_choice_node pick (nodes G) Hne) as (c & -> & Hc).
      exists c. split; [done|]. split; [|done]. intros ?. by destruct Hin. }
  destruct Hc as (c & Hc & Hsame & ->).
  destruct (bfs_tree_run set_iter G max_nodes c Hiter Hwf max_distance
              (Z.to_nat max_distance) 0 {[c]} {[c]} {[c := 0]})
    as (included & dist & -> & Htree & Hclosed); [lia|lia| | | |].
  - split; [|split; [|split]].
    + by apply lookup_singleton_Some.
    + apply dom_singleton_L.
    + by intros n ->%elem_of_singleton.
    + intros n d [-> <-]%lookup_singleton_Some. by left.
  - intros x. rewrite elem_of_singleton, lookup_singleton_Some. naive_solver.
  - intros _ n d v [_ <-]%lookup_singleton_Some [?|?%elem_of_nil]; [lia|done].
  - exists c, included, dist. split; [done|]. split; [done|]. split; [done|].
    split; [|done]. eapply bfs_tree_mono; [|exact Htree]. lia.
Qed.

(** X8.  For a centre that is a node of the graph, the neighbourhood
    returned holds the centre, the centre and no other node is at
    distance [0], the keys of [distance_map] are the nodes of the
    subgraph, and these are nodes of the graph. *)
Theorem get_node_neighborhood_center set_iter pick G center_node max_distance max_nodes :
  (∀ s x, x ∈ set_iter s ↔ x ∈ s) → wf_graph G → center_node ∈ nodes G →
  ∃ sub dist,
    get_node_neighborhood set_iter pick G center_node max_distance max_nodes
    = inr (sub, dist)
    ∧ center_node ∈ nodes sub
    ∧ (∀ n, dist !! n = Some 0 ↔ n = center_node)
    ∧ (∀ n, n ∈ nodes sub ↔ is_Some (dist !! n))
    ∧ (∀ n, n ∈ nodes sub → n ∈ nodes G).
Proof.
  intros Hiter Hwf Hc.
  destruct (get_node_neighborhood_run set_iter pick G center_node max_distance max_nodes)
    as (c & included & dist & _ & Hsame & Hrun & (Hc0 & Hdom & Hnodes & Htree) & _);
    [done|done|by intros Hnil; rewrite Hnil in Hc; apply elem_of_nil in Hc|].
  rewrite (Hsame Hc) in *. clear Hsame.
  assert (Hkeys : ∀ n, n ∈ nodes (subgraph G included) ↔ is_Some (dist !! n)).
  { intros n. rewrite subgraph_nodes_elem, <- Hdom, elem_of_dom.
    split; [by intros [? _]|]. intros Hn. split; [done|].
    apply Hnodes. rewrite <- Hdom. by apply elem_of_dom. }
  exists (subgraph G included), dist. split; [done|].
  split; [by apply Hkeys|]. split; [|split; [done|]].
  - intros n. split; [|by intros ->].
    intros Hn. destruct (Htree n 0 Hn) as [[-> _]|[? _]]; [done|lia].
  - by intros n [_ ?]%subgraph_nodes_elem.
Qed.

Lemma get_node_neighborhood_center_witness :
  ∃ sub dist,
    get_node_neighborhood elements 0
      (build [AddEdge "A" "B"; AddEdge "B" "C"; AddEdge "C" "D"]) "B" 1 10
    = inr (sub, dist)
    ∧ "B" ∈ nodes sub
    ∧ (∀ n, dist !! n = Some 0 ↔ n = "B")
    ∧ (∀ n, n ∈ nodes sub ↔ is_Some (dist !! n))
    ∧ (∀ n, n ∈ nodes sub →
            n ∈ nodes (build [AddEdge "A" "B"; AddEdge "B" "C"; AddEdge "C" "D"])).
Proof.
  apply get_node_neighborhood_center.
  - intros s x. apply elem_of_elements.
  - apply build_wf.
  - apply elem_of_cons. right. apply elem_of_cons. by left.
Defined.

(** X9.  The subgraph returned by [get_node_neighborhood] is the graph
    induced on its nodes: two of its nodes are adjacent in it exactly when
    they are adjacent in the graph, and its adjacency is symmetric. *)
Theorem get_node_neighborhood_induced set_iter pick G center_node max_distance max_nodes :
  (∀ s x, x ∈ set_iter s ↔ x ∈ s) → wf_graph G → nodes G ≠ [] →
  ∃ sub dist,
    get_node_neighborhood set_iter pick G center_node max_distance max_nodes
    = inr (sub, dist)
    ∧ wf_graph sub
    ∧ (∀ a b, adjacent sub a b ↔ adjacent G a b ∧ a ∈ nodes sub ∧ b ∈ nodes sub).
Proof.
  intros Hiter Hwf Hne.
  destruct (get_node_neighborhood_run set_iter pick G center_node max_distance max_nodes)
    as (c & included & dist & _ & _ & Hrun & (_ & _ & Hnodes & _) & _); [done..|].
  exists (subgraph G included), dist. split; [done|].
  split; [by apply subgraph_wf|].
  intros a b. rewrite subgraph_adjacent, !subgraph_nodes_elem. naive_solver.
Qed.

Lemma get_node_neighborhood_induced_witness :
  ∃ sub dist,
    get_node_neighborhood elements 0
      (build [AddEdge "A" "B"; AddEdge "B" "C"; AddEdge "C" "A"; AddEdge "C" "D"]) "A" 1 10
    = inr (sub, dist)
    ∧ wf_graph sub
    ∧ (∀ a b, adjacent sub a b ↔
              adjacent (build [AddEdge "A" "B"; AddEdge "B" "C"; AddEdge "C" "A";
                               AddEdge "C" "D"]) a b
              ∧ a ∈ nodes sub ∧ b ∈ nodes sub).
Proof.
  apply get_node_neighborhood_induced.
  - intros s x. apply elem_of_elements.
  - apply build_wf.
  - discriminate.
Defined.

(** X10.  In the neighbourhood of a centre that is a node of the graph,
    every node but the centre is at a distance [d >= 1] and has, inside
    the subgraph returned, a neighbour at distance [d - 1]: the subgraph
    is connected to its centre. *)
Theorem get_node_neighborhood_parent set_iter pick G center_node max_distance max_nodes :
  (∀ s x, x ∈ set_iter s ↔ x ∈ s) → wf_graph G → center_node ∈ nodes G →
  ∃ sub dist,
    get_node_neighborhood set_iter pick G center_node max_distance max_nodes
    = inr (sub, dist)
    ∧ ∀ n d, dist !! n = Some d → n ≠ center_node →
             1 ≤ d ∧ ∃ m, dist !! m = Some (d - 1) ∧ adjacent sub m n.
Proof.
  intros Hiter Hwf Hc.
  destruct (get_node_neighborhood_run set_iter pick G center_node max_distance max_nodes)
    as (c & included & dist & _ & Hsame & Hrun & (Hc0 & Hdom & Hnodes & Htree) & _);
    [done|done|by intros Hnil; rewrite Hnil in Hc; apply elem_of_nil in Hc|].
  rewrite (Hsame Hc) in *. clear Hsame.
  exists (subgraph G included), dist. split; [done|].
  intros n d Hd Hn. destruct (Htree n d Hd) as [[-> _]|[Hb (m & Hm & Hadj)]]; [done|].
  split; [lia|]. exists m. split; [done|]. apply subgraph_adjacent.
  split; [done|]. rewrite <- Hdom, !elem_of_dom. by split.
Qed.

Lemma get_node_neighborhood_parent_witness :
  ∃ sub dist,
    get_node_neighborhood elements 0
      (build [AddEdge "A" "B"; AddEdge "B" "C"; AddEdge "C" "D"]) "A" 2 10
    = inr (sub, dist)
    ∧ ∀ n d, dist !! n = Some d → n ≠ "A" →
             1 ≤ d ∧ ∃ m, dist !! m = Some (d - 1) ∧ adjacent sub m n.
Proof.
  apply get_node_neighborhood_parent.
  - intros s x. apply elem_of_elements.
  - apply build_wf.
  - apply elem_of_cons. by left.
Defined.

(** X11.  For a centre that is a node of the graph, a node at distance
    [d] in [distance_map] is the end of a walk of [d] edges from the
    centre.  When the subgraph returned has fewer than [max_nodes] nodes,
    it holds every node that a walk of at most [max_distance] edges
    reaches from the centre, at a distance that is at most the length of
    the walk: the distances are those of the shortest walks. *)
Theorem get_node_neighborhood_distances set_iter pick G center_node max_distance max_nodes :
  (∀ s x, x ∈ set_iter s ↔ x ∈ s) → wf_graph G → center_node ∈ nodes G →
  ∃ sub dist,
    get_node_neighborhood set_iter pick G center_node max_distance max_nodes
    = inr (sub, dist)
    ∧ (∀ n d, dist !! n = Some d → 0 ≤ d ∧ walk G (Z.to_nat d) center_node n)
    ∧ (len (nodes sub) < max_nodes →
       ∀ k n, Z.of_nat k ≤ max_distance → walk G k center_node n →
              n ∈ nodes sub ∧ ∃ d, dist !! n = Some d ∧ d ≤ Z.of_nat k).
Proof.
  intros Hiter Hwf Hc. pose proof Hwf as [Hnd _].
  destruct (get_node_neighborhood_run set_iter pick G center_node max_distance max_nodes)
    as (c & included & dist & _ & Hsame & Hrun & Htree & Hclosed);
    [done|done|by intros Hnil; rewrite Hnil in Hc; apply elem_of_nil in Hc|].
  rewrite (Hsame Hc) in *. clear Hsame.
  pose proof Htree as (Hc0 & Hdom & Hnodes & Hparent).
  exists (subgraph G included), dist. split; [done|]. split.
  - assert (Hwalk : ∀ k n, dist !! n = Some (Z.of_nat k) → walk G k center_node n).
    { induction k as [|k IH]; intros n Hn.
      - destruct (Hparent n _ Hn) as [[-> _]|[? _]]; [done|lia].
      - destruct (Hparent n _ Hn) as [[_ ?]|[_ (m & Hm & Hadj)]]; [lia|].
        exists m. split; [|done]. apply IH. rewrite Hm. f_equal. lia. }
    intros n d Hd.
    assert (0 ≤ d).
    { destruct (Hparent n d Hd) as [[_ ->]|[? _]]; lia. }
    split; [done|]. apply Hwalk. rewrite Hd. f_equal. lia.
  - intros Hlen. unfold len in Hlen. rewrite subgraph_nodes_size in Hlen by done.
    assert (Hball : ∀ k n, Z.of_nat k ≤ max_distance → walk G k center_node n →
                           ∃ d, dist !! n = Some d ∧ d ≤ Z.of_nat k).
    { induction k as [|k IH]; intros n Hk Hw.
      - destruct Hw as [<- _]. exists 0. by split.
      - destruct Hw as (m & Hw & Hadj).
        destruct (IH m) as (dm & Hm & Hle); [lia|done|].
        destruct (Hclosed Hlen m dm n Hm) as (dv & Hv & Hle'); [left; lia|done|].
        exists dv. split; [done|]. lia. }
    intros k n Hk Hw. destruct (Hball k n Hk Hw) as (d & Hd & Hle).
    split; [|by exists d]. apply subgraph_nodes_elem.
    assert (n ∈ included) by (rewrite <- Hdom; by apply elem_of_dom).
    split; [done|by apply Hnodes].
Qed.

Lemma get_node_neighborhood_distances_witness :
  ∃ sub dist,
    get_node_neighborhood elements 0
      (build [AddEdge "A" "B"; AddEdge "B" "C"; AddEdge "C" "A"; AddEdge "C" "D"]) "A" 2 10
    = inr (sub, dist)
    ∧ (∀ n d, dist !! n = Some d →
              0 ≤ d ∧ walk (build [AddEdge "A" "B"; AddEdge "B" "C"; AddEdge "C" "A";
                                   AddEdge "C" "D"]) (Z.to_nat d) "A" n)
    ∧ (len (nodes sub) < 10 →
       ∀ k n, Z.of_nat k ≤ 2 →
              walk (build [AddEdge "A" "B"; AddEdge "B" "C"; AddEdge "C" "A";
                           AddEdge "C" "D"]) k "A" n →
              n ∈ nodes sub ∧ ∃ d, dist !! n = Some d ∧ d ≤ Z.of_nat k).
Proof.
  apply get_node_neighborhood_distances.
  - intros s x. apply elem_of_elements.
  - apply build_wf.
  - apply elem_of_cons. by left.
Defined.

(** ** The pages of [create_graph_explorer] *)

(** The first item of a sequence sorted by [sorted(..., reverse=True)] is
    the item [max] returns. *)
Lemma max_by_degree_head (best : string * Z) (items : list (string * Z)) :
  max_by_degree best items
  = match head (sorted_reverse (λ x y, x.2 <? y.2) items) with
    | Some y => if best.2 <? y.2 then y else best
    | None => best
    end.
Proof.
  revert best. induction items as [|item items IH]; intros best; [done|].
  cbn [max_by_degree sorted_reverse]. rewrite IH.
  destruct (sorted_reverse (λ x y : string * Z, x.2 <? y.2) items) as [|y sorted];
    cbn [insert_reverse head].
  - done.
  - destruct (Z.ltb_spec best.2 item.2), (Z.ltb_spec item.2 y.2); cbn [head];
      repeat (match goal with
              | |- context [?a <? ?b] => destruct (Z.ltb_spec a b)
              end); try done; lia.
Qed.

Lemma sorted_reverse_head (item : string * Z) (items : list (string * Z)) :
  head (sorted_reverse (λ x y, x.2 <? y.2) (item :: items))
  = Some (max_by_degree item items).
Proof.
  rewrite max_by_degree_head. cbn [sorted_reverse].
  destruct (sorted_reverse (λ x y : string * Z, x.2 <? y.2) items) as [|y sorted];
    cbn [insert_reverse head]; [done|].
  by destruct (item.2 <? y.2).
Qed.

(** X12.  The centre that [visualize_graph_page] takes when none is given
    is the node that [find_important_nodes] ranks first by degree, a node
    of greatest degree.  On a graph without nodes there is none, and [max]
    raises. *)
Theorem default_center_top_ranked C G :
  NoDup (nodes G) →
  default_center G = head (find_important_nodes C G "degree" 1).2
  ∧ (nodes G = [] ↔ default_center G = None)
  ∧ (∀ c, default_center G = Some c →
          ∃ d, Nx.degree G c = inr d
               ∧ ∀ n d', Nx.degree G n = inr d' → d' ≤ d).
Proof.
  intros Hnd. rewrite find_important_nodes_degree_eq. cbn [snd].
  assert (Heq : default_center G = head (by_degree G 1)).
  { unfold default_center, by_degree, top_nodes, slice_to. cbn [Z.leb Z.to_nat Z.compare].
    change (Pos.to_nat 1) with 1%nat.
    destruct (degree_items G) as [|item items] eqn:Hitems; [done|].
    pose proof (sorted_reverse_head item items) as Hhead.
    destruct (sorted_reverse _ (item :: items)) as [|y sorted]; [done|].
    cbn [head] in Hhead. injection Hhead as ->. done. }
  split; [done|]. split.
  - unfold default_center, nodes, degree_items.
    destruct (adj G) as [|[n nbrs] a]; [done|]. cbn [map fmap list_fmap]. split; done.
  - intros c Hc. unfold default_center in Hc.
    destruct (degree_items G) as [|item items] eqn:Hitems; [done|].
    injection Hc as <-.
    pose proof (sorted_reverse_head item items) as Hhead. rewrite <- Hitems in Hhead.
    pose proof (sorted_reverse_sorted (λ x : string * Z, x.2) (degree_items G)) as Hsorted.
    cbv beta in Hsorted.
    pose proof (sorted_reverse_perm (λ x : string * Z, x.2) (degree_items G)) as Hperm.
    cbv beta in Hperm.
    destruct (sorted_reverse _ (degree_items G)) as [|top rest]; [done|].
    cbn [head] in Hhead. injection Hhead as Htop.
    apply StronglySorted_inv in Hsorted as [_ Hle].
    assert (Hall : ∀ x, x ∈ degree_items G → x.2 ≤ top.2).
    { intros x Hx. rewrite <- Hperm in Hx.
      apply elem_of_cons in Hx as [->|Hx]; [done|].
      eapply Forall_forall in Hle; [|exact Hx]. done. }
    assert (Hin : top ∈ degree_items G).
    { rewrite <- Hperm. apply elem_of_cons. by left. }
    rewrite <- Htop. exists top.2. split.
    + apply degree_items_degree; [done|]. by destruct top.
    + intros n d' Hd. unfold Nx.degree in Hd.
      destruct (dict_get n (adj G)) as [nbrs|] eqn:Hget; [|done]. injection Hd as <-.
      apply dict_get_Some in Hget. apply (Hall (n, degree_of n nbrs)).
      unfold degree_items. apply list_elem_of_fmap. by exists (n, nbrs).
Qed.

Lemma default_center_top_ranked_witness :
  default_center (build [AddEdge "A" "B"; AddEdge "B" "C"; AddEdge "C" "D"])
  = head (find_important_nodes failing_centrality
            (build [AddEdge "A" "B"; AddEdge "B" "C"; AddEdge "C" "D"]) "degree" 1).2
  ∧ (nodes (build [AddEdge "A" "B"; AddEdge "B" "C"; AddEdge "C" "D"]) = [] ↔
     default_center (build [AddEdge "A" "B"; AddEdge "B" "C"; AddEdge "C" "D"]) = None)
  ∧ (∀ c, default_center (build [AddEdge "A" "B"; AddEdge "B" "C"; AddEdge "C" "D"])
          = Some c →
          ∃ d, Nx.degree (build [AddEdge "A" "B"; AddEdge "B" "C"; AddEdge "C" "D"]) c
               = inr d
               ∧ ∀ n d', Nx.degree (build [AddEdge "A" "B"; AddEdge "B" "C"; AddEdge "C" "D"]) n
                         = inr d' → d' ≤ d).
Proof.
  apply default_center_top_ranked.
  pose proof (build_wf [AddEdge "A" "B"; AddEdge "B" "C"; AddEdge "C" "D"]) as [Hnd _].
  exact Hnd.
Defined.

Lemma next_neighbors_run full_graph (shown : gset string) todo acc :
  NoDup (nodes full_graph) →
  (∀ n, n ∈ todo → n ∈ nodes full_graph) →
  ∃ next, next_neighbors full_graph shown todo acc = inr next
          ∧ ∀ x, x ∈ next ↔
                 x ∈ acc ∨ ((x ∉ shown) ∧ ∃ m, m ∈ todo ∧ adjacent full_graph m x).
Proof.
  intros Hnd. revert acc. induction todo as [|node todo IH]; intros acc Htodo; simpl.
  { exists acc. split; [done|]. intros x. split; [by left|].
    intros [?|(_ & m & ?%elem_of_nil & _)]; done. }
  destruct (neighbors_of_node full_graph node) as (nbrs & -> & Hin).
  { apply Htodo. apply elem_of_cons. by left. }
  simpl.
  destruct (IH (acc ∪ (list_to_set nbrs ∖ shown))) as (next & -> & Hnext).
  { intros n Hn. apply Htodo. apply elem_of_cons. by right. }
  exists next. split; [done|]. intros x.
  rewrite Hnext, elem_of_union, elem_of_difference, elem_of_list_to_set.
  rewrite <- (adjacent_nbrs full_graph node nbrs x Hnd Hin). split.
  - intros [[?|[Hadj Hout]]|(Hout & m & Hm & Hadj)]; [by left|right..].
    + split; [done|]. exists node. split; [apply elem_of_cons; by left|done].
    + split; [done|]. exists m. split; [apply elem_of_cons; by right|done].
  - intros [?|(Hout & m & [->|Hm]%elem_of_cons & Hadj)]; [by left; left|..].
    + left. right. done.
    + right. split; [done|]. by exists m.
Qed.

Lemma nav_links_elem page_number important_next t x :
  (t, x) ∈ nav_links page_number important_next →
  page_number < t ≤ page_number + 10 ∧ x ∈ important_next.
Proof.
  unfold nav_links, slice_to. cbn [Z.leb Z.compare Z.to_nat].
  intros (i & y & [= -> ->] & Hi)%elem_of_lookup_imap.
  pose proof (lookup_lt_Some _ _ _ Hi) as Hlt. rewrite length_take in Hlt.
  change (Pos.to_nat 10) with 10%nat in *.
  split; [lia|]. apply lookup_take_Some in Hi as [Hi _].
  by eapply list_elem_of_lookup_2.
Qed.

Lemma by_degree_all G top_n n :
  len (by_degree G top_n) < top_n → n ∈ nodes G → n ∈ by_degree G top_n.
Proof.
  intros Hlen Hn. assert (Hpos : 0 ≤ top_n) by (unfold len in Hlen; lia).
  rewrite by_degree_length in Hlen by done.
  rewrite by_degree_ranking. unfold slice_to.
  destruct (Z.leb_spec 0 top_n); [|lia].
  rewrite take_ge.
  - rewrite (fmap_Permutation fst _ _ (ranking_perm G)). by rewrite degree_items_fst.
  - unfold ranking. rewrite sorted_reverse_length. unfold degree_items.
    rewrite length_map. unfold number_of_nodes, len in Hlen. lia.
Qed.

(** A call of [visualize_graph_page] with the graph itself as full graph,
    as [create_graph_explorer] makes it. *)
Lemma visualize_graph_page_run C set_iter pick G full_graph center_node
    page_number max_distance max_nodes :
  (∀ s x, x ∈ set_iter s ↔ x ∈ s) → wf_graph G → nodes G ≠ [] →
  NoDup (nodes full_graph) → (∀ n, n ∈ nodes G → n ∈ nodes full_graph) →
  ∃ sub dist next,
    get_node_neighborhood set_iter pick G center_node max_distance max_nodes
    = inr (sub, dist)
    ∧ (∀ x, x ∈ next ↔
            (x ∉ nodes sub) ∧ ∃ m, m ∈ nodes sub ∧ adjacent full_graph m x)
    ∧ visualize_graph_page C set_iter pick G full_graph center_node page_number
        max_distance max_nodes
      = inr (mkPage page_number center_node sub dist
               (nav_links page_number (by_degree (subgraph full_graph next) 10)),
             by_degree (subgraph full_graph next) 10).
Proof.
  intros Hiter Hwf Hne Hnd Hsub.
  destruct (get_node_neighborhood_run set_iter pick G center_node max_distance max_nodes)
    as (c & included & dist & _ & _ & Hrun & (_ & _ & Hnodes & _) & _); [done..|].
  destruct (next_neighbors_run full_graph
              (list_to_set (nodes (subgraph G included)))
              (nodes (subgraph G included)) ∅ Hnd)
    as (next & Hnext & Helem).
  { intros n [_ Hn]%subgraph_nodes_elem. by apply Hsub. }
  exists (subgraph G included), dist, next. split; [done|]. split.
  - intros x. rewrite Helem, elem_of_list_to_set. split.
    + by intros [?%not_elem_of_empty|?].
    + by right.
  - unfold visualize_graph_page. rewrite Hrun. cbn [bind fst snd]. rewrite Hnext.
    cbn [bind]. by rewrite find_important_nodes_degree_eq.
Qed.

Lemma nav_links_texts page_number important_next :
  len important_next ≤ 10 → (nav_links page_number important_next).*2 = important_next.
Proof.
  intros Hlen. unfold nav_links, slice_to. cbn [Z.leb Z.compare Z.to_nat].
  rewrite take_ge by (unfold len in Hlen; lia).
  rewrite fmap_imap. rewrite (imap_ext _ (const id)); [|done].
  by rewrite imap_const, list_fmap_id.
Qed.

(** X13.  A call of [visualize_graph_page] on a graph with at least one
    node returns at most ten nodes for the navigation, none twice.  Each
    of them is outside the subgraph shown and is, in the full graph, a
    neighbour of a node shown; when fewer than ten are returned, they are
    all the nodes of that kind.  The page carries one link per node
    returned, to the page numbers that follow its own. *)
Theorem visualize_graph_page_navigation C set_iter pick G full_graph center_node
    page_number max_distance max_nodes :
  (∀ s x, x ∈ set_iter s ↔ x ∈ s) → wf_graph G → nodes G ≠ [] →
  wf_graph full_graph → (∀ n, n ∈ nodes G → n ∈ nodes full_graph) →
  ∃ p important_next,
    visualize_graph_page C set_iter pick G full_graph center_node page_number
      max_distance max_nodes
    = inr (p, important_next)
    ∧ get_node_neighborhood set_iter pick G center_node max_distance max_nodes
      = inr (page_subgraph p, page_distance_map p)
    ∧ NoDup important_next
    ∧ len important_next ≤ 10
    ∧ (∀ x, x ∈ important_next →
            (x ∉ nodes (page_subgraph p))
            ∧ ∃ m, m ∈ nodes (page_subgraph p) ∧ adjacent full_graph m x)
    ∧ (len important_next < 10 →
       ∀ m x, m ∈ nodes (page_subgraph p) → adjacent full_graph m x →
              x ∉ nodes (page_subgraph p) → x ∈ important_next)
    ∧ (page_links p).*2 = important_next
    ∧ (∀ t x, (t, x) ∈ page_links p → page_number < t ≤ page_number + 10).
Proof.
  intros Hiter Hwf Hne Hfull Hsub. pose proof Hfull as [Hnd _].
  destruct (visualize_graph_page_run C set_iter pick G full_graph center_node
              page_number max_distance max_nodes)
    as (sub & dist & next & Hrun & Hnext & ->); [done..|].
  set (G' := subgraph full_graph next).
  assert (Hnd' : NoDup (nodes G')).
  { unfold G'. rewrite subgraph_nodes. by apply NoDup_filter. }
  assert (Hlen : len (by_degree G' 10) ≤ 10).
  { rewrite by_degree_length by lia. lia. }
  eexists _, _. split; [done|]. cbn [page_subgraph page_distance_map page_links].
  split; [done|]. split; [by apply by_degree_NoDup|]. split; [done|].
  split; [|split; [|split]].
  - intros x [Hx _]%by_degree_elem%subgraph_nodes_elem. by apply Hnext.
  - intros Hfew m x Hm Hadj Hx. apply by_degree_all; [done|].
    apply subgraph_nodes_elem. split.
    + apply Hnext. split; [done|]. by exists m.
    + by eapply adjacent_target_node.
  - by apply nav_links_texts.
  - intros t x Hin. by apply nav_links_elem in Hin as [? _].
Qed.

Lemma visualize_graph_page_navigation_witness :
  ∃ p important_next,
    visualize_graph_page failing_centrality elements 0
      (build [AddEdge "A" "B"; AddEdge "B" "C"; AddEdge "C" "D"])
      (build [AddEdge "A" "B"; AddEdge "B" "C"; AddEdge "C" "D"]) "A" 1 1 10
    = inr (p, important_next)
    ∧ get_node_neighborhood elements 0
        (build [AddEdge "A" "B"; AddEdge "B" "C"; AddEdge "C" "D"]) "A" 1 10
      = inr (page_subgraph p, page_distance_map p)
    ∧ NoDup important_next
    ∧ len important_next ≤ 10
    ∧ (∀ x, x ∈ important_next →
            (x ∉ nodes (page_subgraph p))
            ∧ ∃ m, m ∈ nodes (page_subgraph p)
                   ∧ adjacent (build [AddEdge "A" "B"; AddEdge "B" "C"; AddEdge "C" "D"]) m x)
    ∧ (len important_next < 10 →
       ∀ m x, m ∈ nodes (page_subgraph p) →
              adjacent (build [AddEdge "A" "B"; AddEdge "B" "C"; AddEdge "C" "D"]) m x →
              x ∉ nodes (page_subgraph p) → x ∈ important_next)
    ∧ (page_links p).*2 = important_next
    ∧ (∀ t x, (t, x) ∈ page_links p → 1 < t ≤ 1 + 10).
Proof.
  apply visualize_graph_page_navigation.
  - intros s x. apply elem_of_elements.
  - apply build_wf.
  - discriminate.
  - apply build_wf.
  - done.
Defined.

Lemma pages_loop_run C set_iter pick G max_distance max_nodes i todo :
  (∀ s x, x ∈ set_iter s ↔ x ∈ s) → wf_graph G → nodes G ≠ [] →
  ∃ ps, pages_loop C set_iter pick G max_distance max_nodes i todo = inr ps
        ∧ (λ p, (page_number p, page_center p)) <$> ps
          = imap (λ k node, (i + Z.of_nat k + 1, node)) todo
        ∧ ∀ p t x, p ∈ ps → (t, x) ∈ page_links p →
                   page_number p < t ≤ page_number p + 10.
Proof.
  intros Hiter Hwf Hne. pose proof Hwf as [Hnd _].
  revert i. induction todo as [|node todo IH]; intros i; simpl.
  { exists []. split; [done|]. split; [done|]. by intros p t x ?%elem_of_nil. }
  destruct (visualize_graph_page_run C set_iter pick G G node (i + 1)
              max_distance max_nodes)
    as (sub & dist & next & _ & _ & ->); [done..|].
  cbn [bind fst]. destruct (IH (i + 1)) as (ps & -> & Hps & Hlinks). cbn [bind].
  eexists. split; [done|]. split.
  - rewrite fmap_cons. cbn [page_number page_center]. f_equal; [f_equal; lia|].
    rewrite Hps. apply imap_ext. intros k x _. simpl. f_equal. lia.
  - intros p t x [->|Hp]%elem_of_cons Hin; [|by eapply Hlinks].
    cbn [page_links page_number] in *. by apply nav_links_elem in Hin as [? _].
Qed.

(** X14.  On a graph without nodes [create_graph_explorer] raises
    [ZeroDivisionError] from the index page, before any page is written.
    On any other graph, and for [max_pages >= 0], it writes
    [min(max_pages, len(G))] pages, which is the number it reports; the
    pages are numbered from [1] in the order in which
    [find_important_nodes] ranks their centres by degree, and the index
    page links every one of them under the name of its centre.  The
    links of a page lead to page numbers above its own, whatever the
    centres of those pages are. *)
Theorem create_graph_explorer_pages C set_iter pick G max_pages max_distance
    max_nodes_per_page :
  (∀ s x, x ∈ set_iter s ↔ x ∈ s) → wf_graph G → 0 ≤ max_pages →
  (nodes G = []
   ∧ create_graph_explorer C set_iter pick G max_pages max_distance max_nodes_per_page
     = inl ZeroDivisionError)
  ∨ (nodes G ≠ []
     ∧ ∃ e, create_graph_explorer C set_iter pick G max_pages max_distance
              max_nodes_per_page
            = inr e
            ∧ pages_reported e = len (pages e)
            ∧ len (pages e) = Z.min max_pages (number_of_nodes G)
            ∧ index_links e = (λ p, (page_number p, page_center p)) <$> pages e
            ∧ (∀ i p, pages e !! i = Some p →
                      page_number p = Z.of_nat i + 1
                      ∧ (find_important_nodes C G "degree" max_pages).2 !! i
                        = Some (page_center p))
            ∧ (∀ p t x, p ∈ pages e → (t, x) ∈ page_links p →
                        page_number p < t ≤ page_number p + 10)).
Proof.
  intros Hiter Hwf Hpages. unfold create_graph_explorer.
  rewrite find_important_nodes_degree_eq. cbn [snd]. unfold create_index_page.
  destruct (decide (nodes G = [])) as [Hnil|Hne].
  { left. split; [done|]. by rewrite (nodes_nil_empty G Hnil). }
  right. split; [done|].
  assert (Hn : (number_of_nodes G =? 0) = false).
  { apply Z.eqb_neq. unfold number_of_nodes, len. unfold nodes in Hne.
    destruct (adj G); [done|]. simpl. lia. }
  rewrite Hn. cbn [bind].
  assert (Hslice : slice_to (by_degree G max_pages) max_pages = by_degree G max_pages).
  { unfold slice_to. destruct (Z.leb_spec 0 max_pages); [|lia].
    apply take_ge. pose proof (by_degree_length G max_pages Hpages) as Hlen.
    unfold len in Hlen. lia. }
  rewrite Hslice.
  destruct (pages_loop_run C set_iter pick G max_distance max_nodes_per_page 0
              (by_degree G max_pages)) as (ps & -> & Hps & Hlinks); [done..|].
  cbn [bind]. eexists. split; [done|].
  cbn [pages_reported pages index_links].
  assert (Hlen : len ps = len (by_degree G max_pages)).
  { unfold len. by rewrite <- (length_fmap (λ p, (page_number p, page_center p))), Hps,
      length_imap. }
  split; [rewrite Hlen, by_degree_length by done; lia|].
  split; [rewrite Hlen; by apply by_degree_length|].
  split.
  { rewrite Hps. apply imap_ext. intros k x _. apply pair_equal_spec.
    split; [lia|done]. }
  split; [|done].
  intros i p Hp.
  apply (f_equal (λ l, l !! i)) in Hps. rewrite list_lookup_fmap, Hp in Hps.
  rewrite list_lookup_imap in Hps. simpl in Hps.
  destruct (by_degree G max_pages !! i) as [node|]; [|done].
  simpl in Hps. injection Hps as Hnum Hcenter. split; [lia|by rewrite Hcenter].
Qed.

Lemma create_graph_explorer_pages_witness :
  (nodes (build [AddEdge "A" "B"; AddEdge "B" "C"]) = []
   ∧ create_graph_explorer failing_centrality elements 0
       (build [AddEdge "A" "B"; AddEdge "B" "C"]) 2 1 10
     = inl ZeroDivisionError)
  ∨ (nodes (build [AddEdge "A" "B"; AddEdge "B" "C"]) ≠ []
     ∧ ∃ e, create_graph_explorer failing_centrality elements 0
              (build [AddEdge "A" "B"; AddEdge "B" "C"]) 2 1 10
            = inr e
            ∧ pages_reported e = len (pages e)
            ∧ len (pages e)
              = Z.min 2 (number_of_nodes (build [AddEdge "A" "B"; AddEdge "B" "C"]))
            ∧ index_links e = (λ p, (page_number p, page_center p)) <$> pages e
            ∧ (∀ i p, pages e !! i = Some p →
                      page_number p = Z.of_nat i + 1
                      ∧ (find_important_nodes failing_centrality
                           (build [AddEdge "A" "B"; AddEdge "B" "C"]) "degree" 2).2 !! i
                        = Some (page_center p))
            ∧ (∀ p t x, p ∈ pages e → (t, x) ∈ page_links p →
                        page_number p < t ≤ page_number p + 10)).
Proof.
  apply create_graph_explorer_pages.
  - intros s x. apply elem_of_elements.
  - apply build_wf.
  - lia.
Defined.

(** ** The graph and the report of [build_graph] *)






Lemma filter_is_Some_length {A B} (f : A → option B) (l : list A) :
  length (filter (λ x, is_Some (f x)) l) = length (omap f l).
Proof.
  induction l as [|x l IH]; [done|]. rewrite !filter_cons.
  change (omap f (x :: l)) with (match f x with
                                 | Some y => y :: omap f l
                                 | None => omap f l
                                 end).
  destruct (f x) as [y|] eqn:Hfx.
  - rewrite decide_True by done. simpl. lia.
  - rewrite decide_False by (by intros [? ?]). done.
Qed.



(** ** The names read by [parse_nodes] *)

Lemma string_app_assoc (a b c : string) : ((a ++ b) ++ c = a ++ (b ++ c))%string.
Proof.
  induction a as [|x a IH]; [done|]. by rewrite !string_app_cons, IH.
Qed.

Lemma string_prefix_spec (a b : string) :
  String.prefix a b = true ↔ ∃ r, b = (a ++ r)%string.
Proof.
  revert b. induction a as [|x a IH]; intros b.
  - split; [|by destruct b]. intros _. by exists b.
  - destruct b as [|y b]; simpl.
    + split; [done|]. by intros (r & ?).
    + destruct (ascii_dec x y) as [->|Hne].
      * rewrite IH. split; intros (r & Hr); exists r.
        -- by rewrite string_app_cons, Hr.
        -- rewrite string_app_cons in Hr. by injection Hr.
      * split; [done|]. intros (r & Hr). rewrite string_app_cons in Hr.
        injection Hr as -> _. done.
Qed.

Lemma lstrip_suffix chars s : ∃ pre, s = (pre ++ lstrip chars s)%string.
Proof.
  induction s as [|c s [pre IH]]; [by exists ""|]. simpl.
  destruct (chars c); [|by exists ""].
  exists (String c pre). by rewrite string_app_cons, <- IH.
Qed.

Lemma lstrip_head chars s c r : lstrip chars s = String c r → chars c = false.
Proof.
  induction s as [|x s IH]; [done|]. simpl.
  destruct (chars x) eqn:Hx; [done|]. by intros [= <- _].
Qed.

Lemma lstrip_id chars c r : chars c = false → lstrip chars (String c r) = String c r.
Proof. intros Hc. simpl. by rewrite Hc. Qed.

Lemma rstrip_prefix chars s : ∃ post, s = (rstrip chars s ++ post)%string.
Proof.
  induction s as [|c s [post IH]]; [by exists ""|]. simpl.
  destruct (rstrip chars s) as [|d r] eqn:Hr.
  - destruct (chars c).
    + by exists (String c s).
    + exists s. by rewrite string_app_cons.
  - exists post. by rewrite string_app_cons, <- IH.
Qed.

Lemma rstrip_head chars c s :
  rstrip chars (String c s) = "" ∨ ∃ r, rstrip chars (String c s) = String c r.
Proof.
  simpl. destruct (rstrip chars s); [destruct (chars c)|]; eauto.
Qed.

Lemma rstrip_idem chars s : rstrip chars (rstrip chars s) = rstrip chars s.
Proof.
  induction s as [|c s IH]; [done|]. simpl.
  destruct (rstrip chars s) as [|d r] eqn:Hr.
  - destruct (chars c) eqn:Hc; [done|]. simpl. by rewrite Hc.
  - change (rstrip chars (String c (String d r)))
      with (match rstrip chars (String d r) with
            | EmptyString => if chars c then EmptyString else String c EmptyString
            | r' => String c r'
            end).
    by rewrite IH.
Qed.

Lemma rstrip_nil_lstrip chars s : rstrip chars s = "" → lstrip chars s = "".
Proof.
  induction s as [|c s IH]; [done|]. simpl.
  destruct (rstrip chars s); [|done]. destruct (chars c); [auto|done].
Qed.

Lemma rstrip_app chars (a b : string) :
  rstrip chars b ≠ "" → rstrip chars (a ++ b) = (a ++ rstrip chars b)%string.
Proof.
  intros Hb. induction a as [|c a IH]; [done|]. rewrite !string_app_cons. simpl.
  rewrite IH. destruct a as [|d a].
  - rewrite string_app_nil_l. by destruct (rstrip chars b).
  - by rewrite string_app_cons.
Qed.

Lemma strip_idem s : strip (strip s) = strip s.
Proof.
  unfold strip. destruct (lstrip isspace s) as [|c r] eqn:Hl; [done|].
  apply lstrip_head in Hl.
  destruct (rstrip_head isspace c r) as [->|[r' Hr]]; [done|].
  rewrite Hr, (lstrip_id _ _ _ Hl), <- Hr. apply rstrip_idem.
Qed.

Lemma strip_substring s : ∃ pre post, s = (pre ++ strip s ++ post)%string.
Proof.
  unfold strip. destruct (lstrip_suffix isspace s) as [pre Hpre].
  destruct (rstrip_prefix isspace (lstrip isspace s)) as [post Hpost].
  exists pre, post. by rewrite <- Hpost.
Qed.

(** The text before the first separator holds no separator. *)
Lemma split_head_no_sep sep s pre post :
  sep ≠ "" → split_head sep s ≠ (pre ++ sep ++ post)%string.
Proof.
  intros Hsep. assert (Hpre : ∀ s, ∃ r, s = (split_head sep s ++ r)%string).
  { clear. intros s. induction s as [|c s [r IH]]; [by exists ""|].
    cbn [split_head].
    destruct (String.prefix sep (String c s)); [by exists (String c s)|].
    exists r. by rewrite string_app_cons, <- IH. }
  revert pre. induction s as [|c s IH]; intros pre; cbn [split_head].
  - destruct pre; [|done]. rewrite string_app_nil_l. destruct sep; [done|done].
  - destruct (String.prefix sep (String c s)) eqn:Hp.
    + destruct pre; [|done]. rewrite string_app_nil_l. destruct sep; [done|done].
    + destruct pre as [|x pre].
      * rewrite string_app_nil_l. intros Heq.
        destruct (Hpre s) as [r Hr].
        assert (Htrue : String.prefix sep (String c s) = true); [|congruence].
        apply string_prefix_spec. exists (post ++ r)%string.
        rewrite <- string_app_assoc, <- Heq, string_app_cons. by rewrite <- Hr.
      * rewrite string_app_cons. intros [= <- Heq]. by apply (IH pre).
Qed.

Lemma contains_spec sep s :
  contains sep s = true ↔ ∃ pre post, s = (pre ++ sep ++ post)%string.
Proof.
  induction s as [|c s IH]; cbn [contains].
  - rewrite string_prefix_spec. split.
    + intros [r Hr]. by exists "", r.
    + intros ([|? ?] & post & Heq); [|done]. by exists post.
  - rewrite orb_true_iff, IH, string_prefix_spec. split.
    + intros [[r Hr]|(pre & post & ->)]; [by exists "", r|].
      by exists (String c pre), post.
    + intros ([|x pre] & post & Heq).
      * left. by exists post.
      * right. rewrite string_app_cons in Heq. injection Heq as -> ->.
        by exists pre, post.
Qed.

(** Where the name holds no space followed by a dash, the first
    separator is the one after the name. *)
Lemma split_head_dash (a b : string) :
  contains " -" a = false → split_head " - " (a ++ " - " ++ b) = a.
Proof.
  induction a as [|c a IH]; intros Ha.
  - rewrite string_app_nil_l.
    change (" - " ++ b)%string with (String " " (String "-" (String " " b))).
    cbn [split_head]. rewrite (proj2 (string_prefix_spec " - " _)); [done|].
    by exists b.
  - rewrite string_app_cons. cbn [split_head]. cbn [contains] in Ha.
    apply orb_false_iff in Ha as [Hp Ha].
    destruct (String.prefix " - " _) eqn:Hsep.
    + exfalso. apply string_prefix_spec in Hsep as [r Hr].
      change (" - " ++ r)%string with (String " " (String "-" (String " " r))) in Hr.
      injection Hr as -> Hr. destruct a as [|d a].
      * rewrite string_app_nil_l in Hr. discriminate.
      * rewrite string_app_cons in Hr. injection Hr as -> _.
        rewrite (proj2 (string_prefix_spec " -" _)) in Hp; [done|]. by exists a.
    + f_equal. by apply IH.
Qed.

Lemma parse_node_line_entry name desc :
  strip name = name →
  String.prefix "-" name = false →
  contains " -" name = false →
  strip desc ≠ "" →
  parse_node_line ("- " ++ name ++ " - " ++ desc) = Some name.
Proof.
  intros Hname Hdash Hsub Hdesc.
  assert (Hr : rstrip isspace desc ≠ "").
  { intros Hnil. apply Hdesc. unfold strip. by rewrite (rstrip_nil_lstrip _ _ Hnil). }
  assert (Hstrip : strip ("- " ++ name ++ " - " ++ desc)
                   = ("- " ++ name ++ " - " ++ rstrip isspace desc)%string).
  { unfold strip.
    change (lstrip isspace ("- " ++ name ++ " - " ++ desc))
      with ("- " ++ name ++ " - " ++ desc)%string.
    rewrite <- !string_app_assoc. by apply rstrip_app. }
  unfold parse_node_line. rewrite Hstrip.
  change ("- " ++ name ++ " - " ++ rstrip isspace desc)%string
    with (String "-" (String " " (name ++ " - " ++ rstrip isspace desc))).
  rewrite bool_decide_eq_false_2 by done.
  change (String.prefix "#" (String "-" ?s)) with false. cbn [orb].
  rewrite (proj2 (string_prefix_spec "-" _)) by (by eexists).
  change (String "-" (String " " (name ++ " - " ++ rstrip isspace desc)))
    with (String "-" (String " " name) ++ " - " ++ rstrip isspace desc)%string.
  rewrite split_head_dash.
  - change (lstrip (Ascii.eqb "-") (String "-" (String " " name)))
      with (String " " name).
    change (strip (String " " name)) with (strip name). by rewrite Hname.
  - cbn [contains]. change (String.prefix " -" (String "-" ?s)) with false.
    cbn [orb]. rewrite Hsub, orb_false_r.
    destruct name as [|c name]; [done|].
    change (String.prefix " -" (String " " (String c name)))
      with (String.prefix "-" (String c name)). done.
Qed.

(** X16.  [parse_nodes] returns at most one name per line, and a name
    for exactly the lines that start with a dash once stripped.  Every
    name it returns is stripped of white space at both ends and holds no
    separator [" - "]. *)
Theorem parse_nodes_names lines :
  len (parse_nodes lines) ≤ len lines
  ∧ (∀ line, is_Some (parse_node_line line) ↔ String.prefix "-" (strip line) = true)
  ∧ (∀ node, node ∈ parse_nodes lines ↔
             ∃ line, line ∈ lines ∧ parse_node_line line = Some node)
  ∧ (∀ node, node ∈ parse_nodes lines →
             strip node = node ∧ contains " - " node = false).
Proof.
  assert (Hline : ∀ line node, parse_node_line line = Some node →
                  strip node = node ∧ contains " - " node = false).
  { intros line node. unfold parse_node_line.
    destruct (_ || _); [done|]. destruct (String.prefix "-" _); [|done].
    intros [= <-]. split; [apply strip_idem|].
    apply not_true_is_false. intros (pre & post & Heq)%contains_spec.
    set (h := split_head " - " (strip line)) in *.
    destruct (lstrip_suffix (Ascii.eqb "-") h) as [p1 Hp1].
    destruct (strip_substring (lstrip (Ascii.eqb "-") h)) as (p2 & q2 & Hp2).
    rewrite Heq in Hp2. rewrite Hp2 in Hp1.
    apply (split_head_no_sep " - " (strip line) (p1 ++ p2 ++ pre) (post ++ q2));
      [done|].
    fold h. rewrite Hp1 at 1. by rewrite !string_app_assoc. }
  split; [|split; [|split]].
  - unfold parse_nodes, len.
    rewrite <- (filter_is_Some_length parse_node_line lines).
    pose proof (length_filter (λ x, is_Some (parse_node_line x)) lines). lia.
  - intros line. unfold parse_node_line.
    destruct (strip line) as [|c rest] eqn:Hs.
    + rewrite bool_decide_eq_true_2 by done. simpl. split; [by intros [? ?]|done].
    + rewrite bool_decide_eq_false_2 by done. cbn [orb].
      destruct (String.prefix "#" (String c rest)) eqn:Hhash.
      * split; [by intros [? ?]|]. intros Hd.
        apply string_prefix_spec in Hhash as [r1 Hr1].
        apply string_prefix_spec in Hd as [r2 Hr2].
        rewrite Hr1 in Hr2. discriminate.
      * destruct (String.prefix "-" (String c rest)); [|split; [by intros [? ?]|done]].
        split; [done|]. by eexists.
  - intros node. unfold parse_nodes. by rewrite list_elem_of_omap.
  - intros node (line & _ & Hnode)%list_elem_of_omap. by eapply Hline.
Qed.

(** X17.  A line made of a dash, a space, a name, the separator [" - "]
    and a description is read back as the name, provided the name is
    stripped, does not start with a dash and holds no space followed by a
    dash, and the description is not blank. *)
Theorem parse_nodes_round_trip name desc before after :
  strip name = name →
  String.prefix "-" name = false →
  contains " -" name = false →
  strip desc ≠ "" →
  parse_nodes (before ++ [("- " ++ name ++ " - " ++ desc)%string] ++ after)
  = parse_nodes before ++ [name] ++ parse_nodes after.
Proof.
  intros Hname Hdash Hsub Hdesc. unfold parse_nodes.
  rewrite !omap_app. f_equal. f_equal. cbn [omap list_omap].
  by rewrite parse_node_line_entry.
Qed.

Lemma parse_nodes_round_trip_witness :
  parse_nodes (["# nodes"] ++ ["- well-known node - a node that is known"]
               ++ ["no dash"])
  = parse_nodes ["# nodes"] ++ ["well-known node"] ++ parse_nodes ["no dash"].
Proof.
  apply (parse_nodes_round_trip "well-known node" "a node that is known"
           ["# nodes"] ["no dash"]); [reflexivity..|].
  vm_compute. discriminate.
Defined.

(** ** Escaped names *)

Lemma escape_length s : (String.length s ≤ String.length (escape s))%nat.
Proof.
  induction s as [|c s IH]; [done|]. simpl.
  destruct (Ascii.eqb c "'"); simpl; lia.
Qed.

(** X18.  The ids and labels written by [preprocess_graph] are the names
    with every apostrophe doubled.  Two names never get the same id; a
    name is stored as it is exactly when it holds no apostrophe, and is
    stored longer than it is otherwise. *)
Theorem escape_names s :
  (∀ t, escape s = escape t → s = t)
  ∧ (escape s = s ↔ contains "'" s = false)
  ∧ (contains "'" s = true ↔ (String.length s < String.length (escape s))%nat).
Proof.
  split; [intros t; apply escape_inj|].
  assert (Hiff : contains "'" s = false ↔ String.length (escape s) = String.length s).
  { induction s as [|c s IH]; [done|]. cbn [contains escape].
    pose proof (escape_length s) as Hlen.
    destruct (Ascii.eqb_spec c "'") as [->|Hne].
    - rewrite (proj2 (string_prefix_spec "'" _)) by (by exists s).
      simpl. split; [done|lia].
    - assert (Hp : String.prefix "'" (String c s) = false).
      { apply not_true_is_false. intros [r Hr]%string_prefix_spec.
        rewrite string_app_cons in Hr. by injection Hr as -> _. }
      rewrite Hp, orb_false_l, IH. simpl. split; [by intros ->|lia]. }
  split.
  - rewrite Hiff. split; [by intros ->|].
    clear Hiff. induction s as [|c s IH]; [done|]. cbn [escape].
    pose proof (escape_length s) as Hlen.
    destruct (Ascii.eqb c "'"); simpl; [lia|]. intros [= Heq]. f_equal. by apply IH.
  - pose proof (escape_length s) as Hlen.
    destruct (contains "'" s) eqn:Hc.
    + split; [|done]. intros _.
      destruct (decide (String.length (escape s) = String.length s)) as [Heq|Hne]; [|lia].
      by apply Hiff in Heq.
    + split; [done|]. intros Hlt. pose proof (proj1 Hiff eq_refl). lia.
Qed.

(** ** Budgets that leave the centre alone *)

Lemma subgraph_singleton_nodes G c :
  NoDup (nodes G) → c ∈ nodes G → nodes (subgraph G {[c]}) = [c].
Proof.
  intros Hnd Hc. rewrite subgraph_nodes.
  induction (nodes G) as [|n ns IH]; [by apply elem_of_nil in Hc|].
  apply NoDup_cons in Hnd as [Hn Hnd]. rewrite filter_cons.
  apply elem_of_cons in Hc as [->|Hc].
  - rewrite decide_True by by apply elem_of_singleton. f_equal.
    apply filter_nil_Forall, Forall_forall. by intros x Hx ->%elem_of_singleton.
  - rewrite decide_False; [by apply IH|]. by intros ->%elem_of_singleton.
Qed.

(** X19.  With [max_distance <= 0], or with [max_nodes <= 1], the
    neighbourhood of a centre that is a node of the graph is the centre
    alone, at distance [0]: the loop is not entered. *)
Theorem get_node_neighborhood_center_alone set_iter pick G center_node
    max_distance max_nodes :
  NoDup (nodes G) → center_node ∈ nodes G →
  max_distance ≤ 0 ∨ max_nodes ≤ 1 →
  ∃ sub,
    get_node_neighborhood set_iter pick G center_node max_distance max_nodes
    = inr (sub, {[center_node := 0]})
    ∧ nodes sub = [center_node].
Proof.
  intros Hnd Hc Hbudget. exists (subgraph G {[center_node]}).
  split; [|by apply subgraph_singleton_nodes].
  unfold get_node_neighborhood, has_node, dict_has.
  rewrite bool_decide_eq_true_2 by done. cbn [bind].
  destruct (Z.to_nat max_distance) as [|fuel] eqn:Hfuel; [done|]. cbn [bfs].
  rewrite size_singleton.
  destruct (Z.ltb_spec 0 max_distance); [|lia].
  destruct (Z.ltb_spec (Z.of_nat 1) max_nodes); [lia|]. done.
Qed.

Lemma get_node_neighborhood_center_alone_witness :
  ∃ sub,
    get_node_neighborhood elements 0
      (build [AddEdge "A" "B"; AddEdge "B" "C"]) "B" 3 1
    = inr (sub, {["B" := 0]})
    ∧ nodes sub = ["B"].
Proof.
  apply get_node_neighborhood_center_alone.
  - pose proof (build_wf [AddEdge "A" "B"; AddEdge "B" "C"]) as [Hnd _]. exact Hnd.
  - apply elem_of_cons. right. apply elem_of_cons. by left.
  - right. lia.
Defined.

(** ** A ranking that is asked for every node *)

(** X20.  When [top_n] is at least the number of nodes,
    [find_important_nodes] returns, by degree, every node of the graph
    once. *)
Theorem find_important_nodes_all C G top_n :
  NoDup (nodes G) → number_of_nodes G ≤ top_n →
  (find_important_nodes C G "degree" top_n).2 ≡ₚ nodes G.
Proof.
  intros Hnd Hn. rewrite find_important_nodes_degree_eq. cbn [snd].
  rewrite by_degree_ranking. unfold slice_to.
  assert (0 ≤ number_of_nodes G) by (unfold number_of_nodes, len; lia).
  destruct (Z.leb_spec 0 top_n); [|lia].
  rewrite take_ge.
  - rewrite (fmap_Permutation fst _ _ (ranking_perm G)). by rewrite degree_items_fst.
  - unfold ranking. rewrite sorted_reverse_length. unfold degree_items.
    rewrite length_map. unfold number_of_nodes, len in Hn. lia.
Qed.

Lemma find_important_nodes_all_witness :
  (find_important_nodes failing_centrality
     (build [AddEdge "A" "B"; AddEdge "B" "C"]) "degree" 50).2
  ≡ₚ nodes (build [AddEdge "A" "B"; AddEdge "B" "C"]).
Proof.
  apply find_important_nodes_all.
  - pose proof (build_wf [AddEdge "A" "B"; AddEdge "B" "C"]) as [Hnd _]. exact Hnd.
  - vm_compute. discriminate.
Defined.

(** ** Answers that the client can draw *)

Lemma expand_node_edges_elem db node_id e :
  e ∈ (expand_node db node_id).2 ↔ e ∈ edges_table db ∧ touches node_id e.
Proof.
  unfold expand_node. cbn [snd]. rewrite distinct_elem, list_elem_of_filter.
  split; [by intros [[? ?] _]|]. intros [? ?]. split; [done|apply not_elem_of_nil].
Qed.

(** X21.  On the database of a graph, whatever id [expand_node] is asked
    for, every edge row of its answer has the node rows of both its end
    points in the same answer. *)
Theorem expand_node_self_contained C G file :
  wf_graph G → nodes G ≠ [] →
  ∃ db, preprocess_graph C G file = (inr tt, Some db)
        ∧ ∀ node_id e, e ∈ (expand_node db node_id).2 →
            ∃ s t, s ∈ (expand_node db node_id).1 ∧ n_id s = e_source e
                   ∧ t ∈ (expand_node db node_id).1 ∧ n_id t = e_target e.
Proof.
  intros Hwf Hne. exists (ingested G).
  split; [by apply preprocess_graph_ingested|].
  intros node_id e [He Ht]%expand_node_edges_elem.
  assert (Hrow : ∀ x, x ∈ escape <$> nodes G →
                 ∃ row, row ∈ nodes_table (ingested G) ∧ n_id row = x).
  { intros x Hx. rewrite <- node_rows_ids in Hx.
    apply list_elem_of_fmap in Hx as (row & -> & Hrow). by exists row. }
  pose proof He as He'. rewrite ingested_edges in He' by done.
  apply indexed_rows_elem in He' as ([u v] & Huv & Hs & Htg). simpl in *.
  apply edges_endpoints in Huv as [Hu Hv]; [|done].
  destruct (Hrow (e_source e)) as (s & Hs_in & Hs_id);
    [rewrite Hs; by apply list_elem_of_fmap_2|].
  destruct (Hrow (e_target e)) as (t & Ht_in & Ht_id);
    [rewrite Htg; by apply list_elem_of_fmap_2|].
  exists s, t. split; [|split; [done|split; [|done]]].
  - apply (proj2 (expand_node_nodes_elem (ingested G) node_id s)).
    split; [done|]. exists e. auto.
  - apply (proj2 (expand_node_nodes_elem (ingested G) node_id t)).
    split; [done|]. exists e. auto.
Qed.

Lemma expand_node_self_contained_witness :
  ∃ db, preprocess_graph failing_centrality
          (build [AddEdge "A" "B"; AddEdge "B" "C"]) None
        = (inr tt, Some db)
        ∧ ∀ node_id e, e ∈ (expand_node db node_id).2 →
            ∃ s t, s ∈ (expand_node db node_id).1 ∧ n_id s = e_source e
                   ∧ t ∈ (expand_node db node_id).1 ∧ n_id t = e_target e.
Proof.
  apply expand_node_self_contained; [apply build_wf|discriminate].
Defined.

(** ** A negative number of pages *)

(** X22.  With [max_pages < 0] the slices count from the end:
    [create_graph_explorer] drops the [-max_pages] lowest ranked nodes
    twice over and writes [max(0, len(G) + 2 * max_pages)] pages, while
    the number of pages it reports is [max_pages] itself, a negative
    number. *)
Theorem create_graph_explorer_negative_pages C set_iter pick G max_pages max_distance
    max_nodes_per_page :
  (∀ s x, x ∈ set_iter s ↔ x ∈ s) → wf_graph G → nodes G ≠ [] → max_pages < 0 →
  ∃ e, create_graph_explorer C set_iter pick G max_pages max_distance
         max_nodes_per_page
       = inr e
       ∧ pages_reported e = max_pages
       ∧ len (pages e) = Z.max 0 (number_of_nodes G + 2 * max_pages)
       ∧ index_links e = (λ p, (page_number p, page_center p)) <$> pages e.
Proof.
  intros Hiter Hwf Hne Hneg. unfold create_graph_explorer.
  rewrite find_important_nodes_degree_eq. cbn [snd]. unfold create_index_page.
  assert (Hn : (number_of_nodes G =? 0) = false).
  { apply Z.eqb_neq. unfold number_of_nodes, len. unfold nodes in Hne.
    destruct (adj G); [done|]. simpl. lia. }
  rewrite Hn. cbn [bind].
  destruct (pages_loop_run C set_iter pick G max_distance max_nodes_per_page 0
              (slice_to (by_degree G max_pages) max_pages))
    as (ps & -> & Hps & _); [done..|].
  cbn [bind]. eexists. split; [done|]. cbn [pages_reported pages index_links].
  assert (Hlen : len ps = len (slice_to (by_degree G max_pages) max_pages)).
  { unfold len. by rewrite <- (length_fmap (λ p, (page_number p, page_center p))), Hps,
      length_imap. }
  assert (Himp : len (by_degree G max_pages) = Z.max 0 (number_of_nodes G + max_pages)).
  { unfold by_degree, top_nodes, slice_to, len. rewrite length_fmap.
    destruct (Z.leb_spec 0 max_pages); [lia|].
    rewrite length_take, sorted_reverse_length. unfold degree_items, number_of_nodes, len.
    rewrite length_map. lia. }
  split; [unfold len in *; lia|]. split.
  - rewrite Hlen. unfold slice_to at 1. destruct (Z.leb_spec 0 max_pages); [lia|].
    unfold len at 1. rewrite length_take. unfold len in *. lia.
  - rewrite Hps. apply imap_ext. intros k x _. apply pair_equal_spec.
    split; [lia|done].
Qed.

Lemma create_graph_explorer_negative_pages_witness :
  ∃ e, create_graph_explorer failing_centrality elements 0
         (build [AddEdge "A" "B"; AddEdge "B" "C"; AddEdge "C" "D"]) (-1) 1 10
       = inr e
       ∧ pages_reported e = -1
       ∧ len (pages e)
         = Z.max 0 (number_of_nodes (build [AddEdge "A" "B"; AddEdge "B" "C"; AddEdge "C" "D"])
                    + 2 * -1)
       ∧ index_links e = (λ p, (page_number p, page_center p)) <$> pages e.
Proof.
  apply create_graph_explorer_negative_pages.
  - intros s x. apply elem_of_elements.
  - apply build_wf.
  - discriminate.
  - lia.
Defined.
